(** * bt-challenge: the block packer, the block codec and the checksum model

    A shallow embedding of [internal/packer] (packer.go, block.go,
    metadata.go, validator.go) and the properties of its specification,
    followed by further properties of the package and of [parseSize] of
    the test generator (test-generator/main.go).

    Conventions.
    - Go's [int32], [int64] and [uint32] are integers in [Z]; every
      operation that can wrap in Go wraps here ([int64], [int32], [uint32]).
    - A byte stream is a [list byte]; [encoding/binary] little-endian reads
      and writes are [le_bytes] and [le_value].
    - The source tree, the output directory and the extraction root are
      explicit states; a function with effects returns the new state next to
      its optional error, because the Go code leaves its partial effects
      behind when it fails.
    - [sort.Slice] and [filepath.Join] belong to the Go library: the packer
      is parametrised by them, and what a theorem needs of them is stated as
      a hypothesis. To run the packer on a given tree, [GoSort] has the
      algorithm of the library, [pdqsort_func]. [crypto/sha256] is the
      FIPS 180-4 function, written out in [SHA256].
    - A loop that may not end takes fuel, and [None] is the outcome of a
      run that is not over when the fuel is spent. *)

From Stdlib Require Import ZArith Lia List Permutation Sorted.
From Stdlib.Strings Require Import Ascii String Byte.
From stdpp Require Import base gmap strings list pretty.

Open Scope Z_scope.

(** ** Machine integers *)

Module Int.

(** Two's complement wrap-around of a [w]-bit signed integer. *)
Definition wrap (w : Z) (z : Z) : Z := (z + 2 ^ (w - 1)) mod 2 ^ w - 2 ^ (w - 1).

Definition int32 (z : Z) : Z := wrap 32 z.
Definition int64 (z : Z) : Z := wrap 64 z.
Definition uint32 (z : Z) : Z := z mod 2 ^ 32.

Definition min_int32 : Z := - 2 ^ 31.
Definition max_int32 : Z := 2 ^ 31 - 1.
Definition min_int64 : Z := - 2 ^ 63.
Definition max_int64 : Z := 2 ^ 63 - 1.

Definition is_int32 (z : Z) : Prop := min_int32 <= z <= max_int32.
Definition is_int64 (z : Z) : Prop := min_int64 <= z <= max_int64.
Definition is_uint32 (z : Z) : Prop := 0 <= z < 2 ^ 32.

End Int.

(** ** Bytes and little-endian fields *)

Definition byte_of_Z (z : Z) : byte :=
  match Byte.of_N (Z.to_N (z mod 256)) with
  | Some b => b
  | None => x00
  end.

Definition Z_of_byte (b : byte) : Z := Z.of_N (Byte.to_N b).

(** [binary.Write(w, binary.LittleEndian, v)] for a fixed-width integer of
    [n] bytes: the two's complement image of [v], least significant byte
    first. *)
Fixpoint le_bytes (n : nat) (z : Z) : list byte :=
  match n with
  | O => []
  | S n' => byte_of_Z z :: le_bytes n' (z / 256)
  end.

(** The unsigned value of a little-endian field. *)
Fixpoint le_value (l : list byte) : Z :=
  match l with
  | [] => 0
  | b :: l' => Z_of_byte b + 256 * le_value l'
  end.

(** ** SHA-256

    [crypto/sha256] computes the FIPS 180-4 hash function. It is written out
    here so that checksums are values and not assumptions; the proofs below
    use only that a digest has [sha256.Size] = 32 bytes. *)

Module SHA256.

Definition Size : nat := 32.

Definition w32 (x : Z) : Z := x mod 2 ^ 32.
Definition add32 (x y : Z) : Z := w32 (x + y).
Definition rotr (n x : Z) : Z := w32 (Z.lor (Z.shiftr x n) (Z.shiftl x (32 - n))).

Definition Ch (x y z : Z) : Z := Z.lxor (Z.land x y) (Z.land (Z.lxor x (2 ^ 32 - 1)) z).
Definition Maj (x y z : Z) : Z := Z.lxor (Z.lxor (Z.land x y) (Z.land x z)) (Z.land y z).
Definition Sigma0 (x : Z) : Z := Z.lxor (Z.lxor (rotr 2 x) (rotr 13 x)) (rotr 22 x).
Definition Sigma1 (x : Z) : Z := Z.lxor (Z.lxor (rotr 6 x) (rotr 11 x)) (rotr 25 x).
Definition sigma0 (x : Z) : Z := Z.lxor (Z.lxor (rotr 7 x) (rotr 18 x)) (Z.shiftr x 3).
Definition sigma1 (x : Z) : Z := Z.lxor (Z.lxor (rotr 17 x) (rotr 19 x)) (Z.shiftr x 10).

(** The round constants: the first 32 bits of the fractional parts of the
    cube roots of the first 64 primes. *)
Definition K : list Z :=
  [
    1116352408; 1899447441; 3049323471; 3921009573; 961987163; 1508970993;
    2453635748; 2870763221; 3624381080; 310598401; 607225278; 1426881987;
    1925078388; 2162078206; 2614888103; 3248222580; 3835390401; 4022224774;
    264347078; 604807628; 770255983; 1249150122; 1555081692; 1996064986;
    2554220882; 2821834349; 2952996808; 3210313671; 3336571891; 3584528711;
    113926993; 338241895; 666307205; 773529912; 1294757372; 1396182291;
    1695183700; 1986661051; 2177026350; 2456956037; 2730485921; 2820302411;
    3259730800; 3345764771; 3516065817; 3600352804; 4094571909; 275423344;
    430227734; 506948616; 659060556; 883997877; 958139571; 1322822218;
    1537002063; 1747873779; 1955562222; 2024104815; 2227730452; 2361852424;
    2428436474; 2756734187; 3204031479; 3329325298 ].

(** The eight working variables, also the chaining value. *)
Record state := State { a : Z; b : Z; c : Z; d : Z; e : Z; f : Z; g : Z; h : Z }.

Definition init : state :=
  State 1779033703 3144134277 1013904242 2773480762
    1359893119 2600822924 528734635 1541459225.

(** Big-endian words. *)
Definition be_word (bs : list byte) : Z :=
  fold_left (fun acc x => acc * 256 + Z_of_byte x) bs 0.

Definition be_bytes4 (x : Z) : list byte :=
  [byte_of_Z (x / 2 ^ 24); byte_of_Z (x / 2 ^ 16); byte_of_Z (x / 2 ^ 8); byte_of_Z x].

Definition be_bytes8 (x : Z) : list byte :=
  be_bytes4 (x / 2 ^ 32) ++ be_bytes4 x.

(** Padding: a one bit, zeros up to 56 modulo 64, the bit length on 64 bits. *)
Definition pad (msg : list byte) : list byte :=
  let n := Z.of_nat (length msg) in
  let k := (55 - n) mod 64 in
  msg ++ [x80] ++ repeat x00 (Z.to_nat k) ++ be_bytes8 (8 * n).

(** The sixteen words of a block. *)
Fixpoint words (n : nat) (bs : list byte) : list Z :=
  match n with
  | O => []
  | S n' => be_word (firstn 4 bs) :: words n' (skipn 4 bs)
  end.

(** Message schedule, most recent word first: [rev_w] holds
    [W(t-1); W(t-2); ...]. *)
Fixpoint schedule (n : nat) (rev_w : list Z) : list Z :=
  match n with
  | O => rev_w
  | S n' =>
      let wt := add32 (add32 (sigma1 (nth 1 rev_w 0)) (nth 6 rev_w 0))
                      (add32 (sigma0 (nth 14 rev_w 0)) (nth 15 rev_w 0)) in
      schedule n' (wt :: rev_w)
  end.

Definition round (s : state) (kw : Z * Z) : state :=
  let t1 := add32 (add32 (add32 (h s) (Sigma1 (e s))) (add32 (Ch (e s) (f s) (g s)) (fst kw))) (snd kw) in
  let t2 := add32 (Sigma0 (a s)) (Maj (a s) (b s) (c s)) in
  State (add32 t1 t2) (a s) (b s) (c s) (add32 (d s) t1) (e s) (f s) (g s).

Definition compress (s : state) (block : list byte) : state :=
  let w := rev (schedule 48 (rev (words 16 block))) in
  let s' := fold_left round (combine K w) s in
  State (add32 (a s) (a s')) (add32 (b s) (b s')) (add32 (c s) (c s')) (add32 (d s) (d s'))
        (add32 (e s) (e s')) (add32 (f s) (f s')) (add32 (g s) (g s')) (add32 (h s) (h s')).

Fixpoint blocks (n : nat) (s : state) (bs : list byte) : state :=
  match n with
  | O => s
  | S n' =>
      match bs with
      | [] => s
      | _ => blocks n' (compress s (firstn 64 bs)) (skipn 64 bs)
      end
  end.

Definition digest (s : state) : list byte :=
  be_bytes4 (a s) ++ be_bytes4 (b s) ++ be_bytes4 (c s) ++ be_bytes4 (d s) ++
  be_bytes4 (e s) ++ be_bytes4 (f s) ++ be_bytes4 (g s) ++ be_bytes4 (h s).

(** [h := sha256.New(); h.Write(msg); h.Sum(nil)]. *)
Definition Sum256 (msg : list byte) : list byte :=
  let p := pad msg in digest (blocks (length p) init p).

End SHA256.

Arguments SHA256.Sum256 : simpl never.

(** ** Errors and outcomes *)

(** An argument of a [fmt.Errorf] format. *)
Inductive arg : Type :=
| ArgS (s : string)
| ArgD (n : Z).

(** The errors the package returns. [Errorf] is [fmt.Errorf] without [%w],
    [ErrorfW] is [fmt.Errorf] wrapping [err] with [%w]. *)
Inductive error : Type :=
| io_EOF
| io_ErrUnexpectedEOF
| PathError (op path : string)
| Errorf (format : string) (args : list arg)
| ErrorfW (format : string) (args : list arg) (err : error)
| BlockIntegrityError (BlockID : Z) (ExpectedSum ActualSum : list byte)
| FileIntegrityError (path : string) (ExpectedSum ActualSum : list byte).

(** How a call ends: it returns [nil], it returns an error, or the Go
    runtime panics. *)
Inductive status : Type :=
| Success
| Failure (err : error)
| Panicked (msg : string).

(** A value or the way the call ended without one. *)
Inductive result (A : Type) : Type :=
| Ok (a : A)
| Err (err : error)
| Panic (msg : string).

Arguments Ok {A} a.
Arguments Err {A} err.
Arguments Panic {A} msg.

(** ** Data model (metadata.go, block.go, packer.go) *)

(** [time.Time], as far as the package looks at it: the Unix seconds and the
    nanoseconds within the second. *)
Record Time : Type := mkTime { sec : Z; nsec : Z }.

(** [t.Unix()] *)
Definition Unix (t : Time) : Z := sec t.

(** [time.Unix(s, n)] for [0 <= n < 1e9] *)
Definition time_Unix (s n : Z) : Time := mkTime s n.

Module FileMetadata.
Record t : Type := mk {
  Path : string;
  Size : Z;
  ModTime : Time;
  Checksum : list byte;
  Offset : Z;
  BlockID : Z;
  Mode : Z
}.
End FileMetadata.

Module FileInfo.
Record t : Type := mk {
  Path : string;
  Size : Z;
  ModTime : Time;
  Mode : Z;
  IsDir : bool
}.
End FileInfo.

(** [Block]; its [Checksum] and [Writer] fields are never read or written
    by the package and are left out. *)
Module Block.
Record t : Type := mk {
  ID : Z;
  Files : list FileMetadata.t;
  Size : Z
}.
End Block.

Record PackerOptions : Type := mkOptions {
  VerifyIntegrity : bool;
  BufferSize : Z;
  BlockSize : Z
}.

(** A regular file of a file system: its bytes, its [os.FileMode] as
    [uint32] and its modification time. *)
Record File : Type := mkFile {
  data : list byte;
  mode : Z;
  modTime : Time
}.

(** A block file in the output directory, with the call of [writeBlock]
    that produced it: the block number, the in-memory block and the bytes
    that reached the file. *)
Record Written : Type := mkWritten {
  w_num : Z;
  w_block : Block.t;
  w_bytes : list byte
}.

(** ** Encoding (metadata.go [writeMetadata], block.go [writeBlock]) *)

Definition writeMetadata (metadata : FileMetadata.t) : list byte :=
  let pathBytes := list_byte_of_string (FileMetadata.Path metadata) in
  le_bytes 4 (Z.of_nat (length pathBytes)) ++
  pathBytes ++
  le_bytes 8 (FileMetadata.Size metadata) ++
  le_bytes 8 (Unix (FileMetadata.ModTime metadata)) ++
  le_bytes 8 (FileMetadata.Offset metadata) ++
  le_bytes 4 (FileMetadata.Mode metadata) ++
  FileMetadata.Checksum metadata.

(** The second loop of [writeBlock]: each file is opened again and copied
    whole; the first file that cannot be opened ends the loop with what was
    copied so far. *)
Fixpoint writeContents (fs : gmap string File) (files : list FileMetadata.t)
  : list byte * option error :=
  match files with
  | [] => ([], None)
  | metadata :: rest =>
      match fs !! FileMetadata.Path metadata with
      | None =>
          ([], Some (ErrorfW "failed to open file %s: %w" [ArgS (FileMetadata.Path metadata)]
                       (PathError "open" (FileMetadata.Path metadata))))
      | Some f =>
          let '(bytes, err) := writeContents fs rest in
          (data f ++ bytes, err)
      end
  end.

(** [writeBlock]: the bytes that reach [block-<blockNum>.beam] and the
    error, if any. Every byte goes through [io.MultiWriter(f, h)], so the
    footer is the digest of all the bytes before it. *)
Definition writeBlock (fs : gmap string File) (block : Block.t) (blockNum : Z)
  : list byte * option error :=
  let header := le_bytes 4 blockNum ++ le_bytes 4 (Z.of_nat (length (Block.Files block))) in
  let metas := concat (map writeMetadata (Block.Files block)) in
  let '(contents, err) := writeContents fs (Block.Files block) in
  let body := header ++ metas ++ contents in
  match err with
  | Some e => (body, Some e)
  | None => (body ++ SHA256.Sum256 body, None)
  end.

(** ** Packing (block.go [addFileToBlock], packer.go [packFiles],
    [collectFileInfo], [Pack]) *)

Definition addFileToBlock (fs : gmap string File) (block : Block.t) (file : FileInfo.t)
  : Block.t + error :=
  match fs !! FileInfo.Path file with
  | None => inr (ErrorfW "error opening file: %w" [] (PathError "open" (FileInfo.Path file)))
  | Some f =>
      let metaData :=
        FileMetadata.mk (FileInfo.Path file) (FileInfo.Size file) (FileInfo.ModTime file)
          (SHA256.Sum256 (data f)) (Block.Size block) (Block.ID block) (FileInfo.Mode file) in
      inl (Block.mk (Block.ID block) (Block.Files block ++ [metaData])
             (Int.int64 (Block.Size block + FileInfo.Size file)))
  end.

Definition newBlock (blockNum : Z) : Block.t := Block.mk blockNum [] 0.

(** The loop of [packFiles]. [out] is the output directory so far. The test
    [i == len(files)-1] is the test that no file is left. *)
Fixpoint packFiles_loop (opts : PackerOptions) (fs : gmap string File)
    (files : list FileInfo.t) (blockNum : Z) (currentBlock : Block.t) (currentSize : Z)
    (out : list Written) : list Written * option error :=
  match files with
  | [] => (out, None)
  | file :: rest =>
      let sealed :=
        if Int.int64 (currentSize + FileInfo.Size file) >? BlockSize opts then
          let '(bytes, err) := writeBlock fs currentBlock blockNum in
          let out' := out ++ [mkWritten blockNum currentBlock bytes] in
          match err with
          | Some e => (out', inr (ErrorfW "error writing block: %w" [] e))
          | None =>
              let blockNum' := Int.int32 (blockNum + 1) in
              (out', inl (blockNum', newBlock blockNum', 0))
          end
        else (out, inl (blockNum, currentBlock, currentSize)) in
      match sealed with
      | (out, inr e) => (out, Some e)
      | (out, inl (blockNum, currentBlock, currentSize)) =>
          match addFileToBlock fs currentBlock file with
          | inr e => (out, Some e)
          | inl currentBlock =>
              let currentSize := Int.int64 (currentSize + FileInfo.Size file) in
              match rest with
              | [] =>
                  let '(bytes, err) := writeBlock fs currentBlock blockNum in
                  let out' := out ++ [mkWritten blockNum currentBlock bytes] in
                  match err with
                  | Some e => (out', Some (ErrorfW "error writing block: %w" [] e))
                  | None => (out', None)
                  end
              | _ :: _ => packFiles_loop opts fs rest blockNum currentBlock currentSize out
              end
          end
      end
  end.

Definition packFiles (opts : PackerOptions) (fs : gmap string File) (files : list FileInfo.t)
  : list Written * option error :=
  packFiles_loop opts fs files 1 (newBlock 1) 0 [].

(** [collectFileInfo]: [os.Stat] on each walked path; a file larger than the
    block size is skipped with a message on standard output. The walked
    paths are regular files, so [info.IsDir()] is false. *)
Fixpoint collectFileInfo (opts : PackerOptions) (fs : gmap string File) (files : list string)
  : list FileInfo.t + error :=
  match files with
  | [] => inl []
  | path :: rest =>
      match fs !! path with
      | None => inr (ErrorfW "error getting file info: %w" [] (PathError "stat" path))
      | Some info =>
          match collectFileInfo opts fs rest with
          | inr e => inr e
          | inl fileInfo =>
              if Z.of_nat (length (data info)) >? BlockSize opts then inl fileInfo
              else inl (FileInfo.mk path (Z.of_nat (length (data info))) (modTime info)
                          (mode info) false :: fileInfo)
          end
      end
  end.

(** The [less] function [Pack] hands to [sort.Slice]. *)
Definition bySizeDesc (x y : FileInfo.t) : bool := FileInfo.Size x >? FileInfo.Size y.

Section Packer.

(** [sort.Slice(x, less)], as a function from the slice before the call
    to the slice after it. *)
Variable sort_Slice : (FileInfo.t -> FileInfo.t -> bool) -> list FileInfo.t -> list FileInfo.t.

(** The part of [Pack] after [collectFileInfo]: sort, then pack. *)
Definition packSorted (opts : PackerOptions) (fs : gmap string File)
    (fileInfos : list FileInfo.t) : list Written * option error :=
  packFiles opts fs (sort_Slice bySizeDesc fileInfos).

(** [Pack]. [files] is what [filepath.Walk] collected, the regular files
    under [inputDir] in the order of the walk; creating the output
    directory is taken to succeed. *)
Definition Pack (opts : PackerOptions) (fs : gmap string File) (files : list string)
  : list Written * option error :=
  if (length files =? 0)%nat then
    ([], Some (Errorf "no files found in input directory" []))
  else
    match collectFileInfo opts fs files with
    | inr e => ([], Some (ErrorfW "error collecting file info: %w" [] e))
    | inl fileInfos => packSorted opts fs fileInfos
    end.

End Packer.

(** ** Reading (the [io.Reader] of an open block file)

    A reader is the list of the bytes not read yet. *)

Definition lift {A : Type} (x : A + error) : result A :=
  match x with
  | inl a => Ok a
  | inr e => Err e
  end.

#[global] Instance result_bind : MBind result := fun A B k x =>
  match x with
  | Ok a => k a
  | Err e => Err e
  | Panic m => Panic m
  end.

(** [binary.Read(r, binary.LittleEndian, &v)] for a fixed-width [v] of [n]
    bytes ([n > 0]): [io.ReadFull], which reports [io.EOF] when the stream
    is exhausted and [io.ErrUnexpectedEOF] when it ends inside the field.
    The value is the unsigned one; the caller wraps it to its type. *)
Definition binary_Read (n : nat) (r : list byte) : (Z * list byte) + error :=
  match r with
  | [] => inr io_EOF
  | _ :: _ =>
      if (length r <? n)%nat then inr io_ErrUnexpectedEOF
      else inl (le_value (firstn n r), skipn n r)
  end.

(** [buf := make([]byte, n); r.Read(buf)] on an [*os.File]: one read that
    takes what is there, up to [n] bytes; it reports [io.EOF] only when
    nothing is left and [n > 0]. The buffer keeps its zeros past the bytes
    read. *)
Definition file_Read (n : nat) (r : list byte) : (list byte * list byte) + error :=
  match n, r with
  | O, _ => inl ([], r)
  | S _, [] => inr io_EOF
  | S _, _ :: _ =>
      let got := firstn n r in
      inl (got ++ repeat x00 (n - length got), skipn n r)
  end.

(** [readMetadata]. [make([]byte, pathLen)] panics on a negative length.
    [BlockID] is not stored in the file and stays zero. *)
Definition readMetadata (r : list byte) : result (FileMetadata.t * list byte) :=
  '(v, r) ← lift (binary_Read 4 r);
  let pathLen := Int.int32 v in
  if pathLen <? 0 then Panic "makeslice: len out of range" else
  '(pathBytes, r) ← lift (file_Read (Z.to_nat pathLen) r);
  '(v, r) ← lift (binary_Read 8 r);
  let size := Int.int64 v in
  '(v, r) ← lift (binary_Read 8 r);
  let modTime := Int.int64 v in
  '(v, r) ← lift (binary_Read 8 r);
  let offset := Int.int64 v in
  '(mode, r) ← lift (binary_Read 4 r);
  '(checksum, r) ← lift (file_Read SHA256.Size r);
  Ok (FileMetadata.mk (string_of_list_byte pathBytes) size (time_Unix modTime 0)
        checksum offset 0 mode, r).

(** The metadata loop of [UnpackBlock]: [i] counts the records read so
    far, [n] the records still to read. *)
Fixpoint readRecords (n : nat) (i : Z) (r : list byte)
  : result (list FileMetadata.t * list byte) :=
  match n with
  | O => Ok ([], r)
  | S n' =>
      match readMetadata r with
      | Err e => Err (ErrorfW "error reading metadata for file %d: %w" [ArgD i] e)
      | Panic m => Panic m
      | Ok (metadata, r) =>
          '(files, r) ← readRecords n' (i + 1) r;
          Ok (metadata :: files, r)
      end
  end.

(** Block decode, the first half of [UnpackBlock]: block ID, file count,
    the metadata records. It leaves the reader at the payload section.
    [make([]FileMetadata, numFiles)] panics on a negative count. *)
Definition decodeBlock (r : list byte) : result (list FileMetadata.t * list byte) :=
  '(_, r) ← lift (binary_Read 4 r);
  match binary_Read 4 r with
  | inr e => Err (ErrorfW "error reading number of files in block: %w" [] e)
  | inl (v, r) =>
      let numFiles := Int.int32 v in
      if numFiles <? 0 then Panic "makeslice: len out of range"
      else readRecords (Z.to_nat numFiles) 0 r
  end.

(** ** Validation (validator.go) *)

(** [ChecksumsEqual]: the lengths, then byte after byte. *)
Fixpoint bytesEqual (a b : list byte) : bool :=
  match a, b with
  | [], [] => true
  | av :: a', bv :: b' => if Byte.eqb av bv then bytesEqual a' b' else false
  | _, _ => false
  end.

Definition ChecksumsEqual (a b : list byte) : bool :=
  if (length a =? length b)%nat then bytesEqual a b else false.

(** [ValidateBlock] on the bytes of the block file; [None] is [nil].
    [Seek(-32, io.SeekEnd)] fails on a file shorter than 32 bytes. *)
Definition ValidateBlock (block : list byte) : option error :=
  match binary_Read 4 block with
  | inr e => Some (ErrorfW "error reading block ID: %w" [] e)
  | inl (v, _) =>
      let blockID := Int.int32 v in
      let size := length block in
      if (size <? 32)%nat then
        Some (ErrorfW "error seeking to checksum: %w" [] (PathError "seek" "invalid argument"))
      else
        let storedChecksum := skipn (size - 32) block in
        let actualChecksum := SHA256.Sum256 (firstn (size - 32) block) in
        if ChecksumsEqual storedChecksum actualChecksum then None
        else Some (BlockIntegrityError blockID storedChecksum actualChecksum)
  end.

(** ** Extraction (block.go [extractFile], packer.go [UnpackBlock], [Unpack]) *)

(** [bytes.Equal] *)
Definition bytes_Equal (a b : list byte) : bool := bytesEqual a b.

(** [os.FileMode.Perm]: the nine permission bits. *)
Definition Perm (m : Z) : Z := Z.land m 511.

(** The bits of an [os.FileMode] that [os.OpenFile] hands to the system
    call: the permission bits, setuid (bit 23), setgid (bit 22) and sticky
    (bit 20). *)
Definition syscallModeMask : Z := Z.lor 511 (Z.lor (2 ^ 23) (Z.lor (2 ^ 22) (2 ^ 20))).

(** [io.CopyN(w, r, n)]: what was copied, the reader after it and the
    error. A stream that ends before [n] bytes gives [io.EOF]; a count that
    is not positive copies nothing and gives no error. *)
Definition CopyN (r : list byte) (n : Z) : list byte * list byte * option error :=
  if n <=? 0 then ([], r, None)
  else
    let written := firstn (Z.to_nat n) r in
    (written, skipn (Z.to_nat n) r,
     if Z.of_nat (length written) <? n then Some io_EOF else None).

(** An entry of [os.ReadDir]; [Content] is what [os.Open] on it reads. *)
Record DirEntry : Type := mkDirEntry {
  Name : string;
  IsDir : bool;
  Content : list byte
}.

(** What [os.Stat(inputDir)] finds in [Unpack]: a directory with its
    entries in the order of [os.ReadDir], or a single block file. *)
Inductive Input : Type :=
| Directory (entries : list DirEntry)
| BlockFile (content : list byte).

(** [filepath.Ext]: the scan runs from the end of the path to the last
    separator. [rev_path] is the part not scanned yet, reversed; [suffix]
    is the part already scanned. *)
Fixpoint ext_scan (rev_path : list Ascii.ascii) (suffix : list Ascii.ascii) : string :=
  match rev_path with
  | [] => ""
  | ch :: rest =>
      if Ascii.eqb ch "/"%char then ""
      else if Ascii.eqb ch "."%char then string_of_list_ascii (ch :: suffix)
      else ext_scan rest (ch :: suffix)
  end.

Definition filepath_Ext (path : string) : string :=
  ext_scan (rev (list_ascii_of_string path)) [].

(** [fmt.Sprintf("block-%d.beam", blockNum)] *)
Definition blockName (blockNum : Z) : string :=
  "block-" +:+ pretty blockNum +:+ ".beam".

(** The output directory as [os.ReadDir] lists it after [Pack], up to the
    order of the entries. *)
Definition dirEntries (out : list Written) : list DirEntry :=
  map (fun w => mkDirEntry (blockName (w_num w)) false (w_bytes w)) out.

(** The mode of a file that [os.OpenFile] creates with [perm]: the bits
    the system call takes, less the permission bits of the umask. *)
Definition createdMode (umask perm : Z) : Z :=
  Z.ldiff (Z.land perm syscallModeMask) (Perm umask).

Section Unpacker.

(** [filepath.Join] *)
Variable filepath_Join : string -> string -> string.

(** The file mode creation mask of the process. *)
Variable umask : Z.

(** The clock: the modification time a file gets when it is created or
    written. *)
Variable now : Time.

(** [os.OpenFile(path, os.O_CREATE|os.O_WRONLY, perm)]: an existing file
    is opened as it is, without truncation; a new one is created empty
    with the mode [perm] less the bits of the umask. Creating the parent
    directories is taken to succeed. *)
Definition openFile (dest : gmap string File) (path : string) (perm : Z) : File :=
  match dest !! path with
  | Some f => f
  | None => mkFile [] (createdMode umask perm) now
  end.

(** Writing [written] from the start of an open file. *)
Definition writeAt0 (f : File) (written : list byte) : File :=
  mkFile (written ++ skipn (length written) (data f)) (mode f)
    (match written with [] => modTime f | _ :: _ => now end).

(** [extractFile]: the reader after the call, the extraction root after
    the call and the error. The file stays as written when the call
    fails. *)
Definition extractFile (r : list byte) (outputDir : string) (metadata : FileMetadata.t)
    (dest : gmap string File) : list byte * gmap string File * option error :=
  let outputPath := filepath_Join outputDir (FileMetadata.Path metadata) in
  let f := openFile dest outputPath (FileMetadata.Mode metadata) in
  let '(written, r, err) := CopyN r (FileMetadata.Size metadata) in
  let f := writeAt0 f written in
  let dest := <[outputPath := f]> dest in
  match err with
  | Some e => (r, dest, Some (ErrorfW "error writing file: %w" [] e))
  | None =>
      if negb (bytes_Equal (SHA256.Sum256 written) (FileMetadata.Checksum metadata)) then
        (r, dest, Some (Errorf "checksum mismatch for file: %s"
                          [ArgS (FileMetadata.Path metadata)]))
      else
        (r, <[outputPath := mkFile (data f) (mode f) (FileMetadata.ModTime metadata)]> dest,
         None)
  end.

(** The extraction loop of [UnpackBlock]: it returns at the first file
    that fails. *)
Fixpoint extractFiles (r : list byte) (outputDir : string) (files : list FileMetadata.t)
    (dest : gmap string File) : gmap string File * option error :=
  match files with
  | [] => (dest, None)
  | metadata :: rest =>
      let '(r, dest, err) := extractFile r outputDir metadata dest in
      match err with
      | Some e =>
          (dest, Some (ErrorfW "error extracting file %s: %w"
                         [ArgS (FileMetadata.Path metadata)] e))
      | None => extractFiles r outputDir rest dest
      end
  end.

(** [UnpackBlock] on the bytes of the block file. *)
Definition UnpackBlock (opts : PackerOptions) (block : list byte) (outputDir : string)
    (dest : gmap string File) : gmap string File * status :=
  match (if VerifyIntegrity opts then ValidateBlock block else None) with
  | Some e => (dest, Failure (ErrorfW "error verifying block integrity: %w" [] e))
  | None =>
      match decodeBlock block with
      | Err e => (dest, Failure e)
      | Panic m => (dest, Panicked m)
      | Ok (files, r) =>
          let '(dest, err) := extractFiles r outputDir files dest in
          (dest, match err with Some e => Failure e | None => Success end)
      end
  end.

(** The directory loop of [Unpack]. *)
Fixpoint unpackEntries (opts : PackerOptions) (entries : list DirEntry) (outputDir : string)
    (dest : gmap string File) : gmap string File * status :=
  match entries with
  | [] => (dest, Success)
  | entry :: rest =>
      if negb (IsDir entry) && String.eqb (filepath_Ext (Name entry)) ".beam" then
        match UnpackBlock opts (Content entry) outputDir dest with
        | (dest, Success) => unpackEntries opts rest outputDir dest
        | (dest, Failure e) =>
            (dest, Failure (ErrorfW "error unpacking block %s: %w" [ArgS (Name entry)] e))
        | (dest, Panicked m) => (dest, Panicked m)
        end
      else unpackEntries opts rest outputDir dest
  end.

(** [Unpack]; creating the output directory is taken to succeed. *)
Definition Unpack (opts : PackerOptions) (input : Input) (outputDir : string)
    (dest : gmap string File) : gmap string File * status :=
  match input with
  | Directory entries => unpackEntries opts entries outputDir dest
  | BlockFile content => UnpackBlock opts content outputDir dest
  end.

End Unpacker.

(** ** Notions used to state the properties *)

(** The metadata of a block, seen as file sizes. *)
Definition sizes (files : list FileMetadata.t) : list Z := map FileMetadata.Size files.

(** The sum of the sizes, in the integers. *)
Definition sumSizes (files : list FileMetadata.t) : Z := fold_right Z.add 0 (sizes files).

(** The running total Go computes, [total += size] on [int64]. *)
Definition runningTotal (start : Z) (files : list FileMetadata.t) : Z :=
  fold_left (fun acc m => Int.int64 (acc + FileMetadata.Size m)) files start.

(** Every record starts where the one before it ends, in Go's [int64]
    arithmetic; the first one starts at [start]. *)
Fixpoint chained (start : Z) (files : list FileMetadata.t) : Prop :=
  match files with
  | [] => True
  | m :: rest =>
      FileMetadata.Offset m = start /\
      chained (Int.int64 (start + FileMetadata.Size m)) rest
  end.

(** The same in the integers, with the offsets increasing. *)
Fixpoint contiguous (start : Z) (files : list FileMetadata.t) : Prop :=
  match files with
  | [] => True
  | m :: rest =>
      FileMetadata.Offset m = start /\
      start <= start + FileMetadata.Size m /\
      contiguous (start + FileMetadata.Size m) rest
  end.

(** What a record keeps of its descriptor. *)
Definition described (m : FileMetadata.t) : string * Z * Time * Z :=
  (FileMetadata.Path m, FileMetadata.Size m, FileMetadata.ModTime m, FileMetadata.Mode m).

Definition descriptor (f : FileInfo.t) : string * Z * Time * Z :=
  (FileInfo.Path f, FileInfo.Size f, FileInfo.ModTime f, FileInfo.Mode f).

(** The records of the written blocks, block after block. *)
Definition recordsOf (out : list Written) : list FileMetadata.t :=
  concat (map (fun w => Block.Files (w_block w)) out).

(** Offset contiguity of the records of a block, as the specification
    words it; [plus] is the addition meant by [+]. *)
Definition offsetContiguity (plus : Z -> Z -> Z) (files : list FileMetadata.t) : Prop :=
  (forall m, files !! 0%nat = Some m -> FileMetadata.Offset m = 0) /\
  (forall i m m', files !! i = Some m -> files !! S i = Some m' ->
     FileMetadata.Offset m' = plus (FileMetadata.Offset m) (FileMetadata.Size m)).

(** Offsets never decrease along the records, and a record ends where the
    next one starts: the payloads do not overlap. *)
Definition offsetsIncrease (files : list FileMetadata.t) : Prop :=
  forall i m m', files !! i = Some m -> files !! S i = Some m' ->
    FileMetadata.Offset m <= FileMetadata.Offset m' /\
    FileMetadata.Offset m + FileMetadata.Size m <= FileMetadata.Offset m'.

(** Go's [+] on [int64]. *)
Definition add64 (x y : Z) : Z := Int.int64 (x + y).

(** A record made from a file of the source tree: the path names the file
    and the checksum is the digest of its bytes. *)
Definition recorded (fs : gmap string File) (m : FileMetadata.t) : Prop :=
  exists file, fs !! FileMetadata.Path m = Some file /\
               FileMetadata.Checksum m = SHA256.Sum256 (data file).

(** The payload section of a block: the bytes of its files, in the order of
    the records. *)
Definition payload (fs : gmap string File) (files : list FileMetadata.t) : list byte :=
  concat (map (fun m => match fs !! FileMetadata.Path m with
                        | Some f => data f
                        | None => []
                        end) files).

(** The bytes of a block before the footer. *)
Definition blockBody (fs : gmap string File) (block : Block.t) (blockNum : Z) : list byte :=
  (le_bytes 4 blockNum ++ le_bytes 4 (Z.of_nat (length (Block.Files block)))) ++
  concat (map writeMetadata (Block.Files block)) ++
  payload fs (Block.Files block).

(** ** [sort.Slice] as the Go library implements it

    [sort.Slice(x, less)] runs [pdqsort_func] (sort/zsortfunc.go, Go 1.19
    and later) on the indices [0..len(x)). The functions below follow it
    line by line; the slice is a list and [less] and [swap] act through
    indices. Loops take a bound on their iterations as fuel. *)

Module GoSort.
Section Sort.

Context {A : Type}.
Variable less : A -> A -> bool.

(** [data.Less(i, j)] *)
Definition Less (data : list A) (i j : nat) : bool :=
  match data !! i, data !! j with
  | Some x, Some y => less x y
  | _, _ => false
  end.

(** [data.Swap(i, j)] *)
Definition Swap (data : list A) (i j : nat) : list A :=
  match data !! i, data !! j with
  | Some x, Some y => <[i := y]> (<[j := x]> data)
  | _, _ => data
  end.

(** The inner loop of [insertionSort_func]:
    [for j := i; j > a && data.Less(j, j-1); j--]. *)
Fixpoint insertDown (a j : nat) (data : list A) : list A :=
  match j with
  | O => data
  | S j' =>
      if (a <? j)%nat && Less data j j' then insertDown a j' (Swap data j j')
      else data
  end.

(** The outer loop, [for i := a + 1; i < b; i++], with [n] iterations
    left. *)
Fixpoint insertionLoop (n a i : nat) (data : list A) : list A :=
  match n with
  | O => data
  | S n' => insertionLoop n' a (S i) (insertDown a i data)
  end.

Definition insertionSort_func (data : list A) (a b : nat) : list A :=
  insertionLoop (b - (a + 1)) a (a + 1) data.

Fixpoint siftDown_loop (fuel : nat) (data : list A) (root hi first : nat) : list A :=
  match fuel with
  | O => data
  | S fuel' =>
      let child := (2 * root + 1)%nat in
      if (hi <=? child)%nat then data
      else
        let child :=
          if (child + 1 <? hi)%nat && Less data (first + child) (first + child + 1)
          then (child + 1)%nat else child in
        if negb (Less data (first + root) (first + child)) then data
        else siftDown_loop fuel' (Swap data (first + root) (first + child)) child hi first
  end.

Definition siftDown_func (data : list A) (lo hi first : nat) : list A :=
  siftDown_loop hi data lo hi first.

Definition heapSort_func (data : list A) (a b : nat) : list A :=
  let first := a in
  let lo := O in
  let hi := (b - a)%nat in
  let data :=
    fold_left (fun data i => siftDown_func data i hi first)
      (rev (seq 0 (S ((hi - 1) / 2)))) data in
  fold_left (fun data i => siftDown_func (Swap data first (first + i)) lo i first)
    (rev (seq 0 hi)) data.

(** [for i <= j && data.Less(i, a) { i++ }] *)
Fixpoint scanUp (fuel : nat) (data : list A) (i j a : nat) : nat :=
  match fuel with
  | O => i
  | S fuel' => if (i <=? j)%nat && Less data i a then scanUp fuel' data (S i) j a else i
  end.

(** [for i <= j && !data.Less(j, a) { j-- }] *)
Fixpoint scanDown (fuel : nat) (data : list A) (i j a : nat) : nat :=
  match fuel with
  | O => j
  | S fuel' =>
      if (i <=? j)%nat && negb (Less data j a) then scanDown fuel' data i (j - 1) a else j
  end.

(** The [for] loop of [partition_func]; it returns the slice and [j]. *)
Fixpoint partitionLoop (fuel : nat) (data : list A) (i j a : nat) : list A * nat :=
  match fuel with
  | O => (data, j)
  | S fuel' =>
      let i := scanUp (length data) data i j a in
      let j := scanDown (length data) data i j a in
      if (j <? i)%nat then (data, j)
      else partitionLoop fuel' (Swap data i j) (S i) (j - 1) a
  end.

Definition partition_func (data : list A) (a b pivot : nat) : list A * nat * bool :=
  let data := Swap data a pivot in
  let i := (a + 1)%nat in
  let j := (b - 1)%nat in
  let i := scanUp (length data) data i j a in
  let j := scanDown (length data) data i j a in
  if (j <? i)%nat then (Swap data j a, j, true)
  else
    let data := Swap data i j in
    let '(data, j) := partitionLoop (length data) data (S i) (j - 1) a in
    (Swap data j a, j, false).

(** [for i <= j && !data.Less(a, i) { i++ }] *)
Fixpoint scanUpEqual (fuel : nat) (data : list A) (i j a : nat) : nat :=
  match fuel with
  | O => i
  | S fuel' =>
      if (i <=? j)%nat && negb (Less data a i) then scanUpEqual fuel' data (S i) j a else i
  end.

(** [for i <= j && data.Less(a, j) { j-- }] *)
Fixpoint scanDownEqual (fuel : nat) (data : list A) (i j a : nat) : nat :=
  match fuel with
  | O => j
  | S fuel' =>
      if (i <=? j)%nat && Less data a j then scanDownEqual fuel' data i (j - 1) a else j
  end.

Fixpoint partitionEqualLoop (fuel : nat) (data : list A) (i j a : nat) : list A * nat :=
  match fuel with
  | O => (data, i)
  | S fuel' =>
      let i := scanUpEqual (length data) data i j a in
      let j := scanDownEqual (length data) data i j a in
      if (j <? i)%nat then (data, i)
      else partitionEqualLoop fuel' (Swap data i j) (S i) (j - 1) a
  end.

Definition partitionEqual_func (data : list A) (a b pivot : nat) : list A * nat :=
  let data := Swap data a pivot in
  partitionEqualLoop (length data) data (a + 1) (b - 1) a.

(** [for i < b && !data.Less(i, i-1) { i++ }] *)
Fixpoint scanSorted (fuel : nat) (data : list A) (i b : nat) : nat :=
  match fuel with
  | O => i
  | S fuel' =>
      if (i <? b)%nat && negb (Less data i (i - 1)) then scanSorted fuel' data (S i) b else i
  end.

(** [for j := i - 1; j >= 1; j-- { if !data.Less(j, j-1) { break }; data.Swap(j, j-1) }] *)
Fixpoint shiftLeft (j : nat) (data : list A) : list A :=
  match j with
  | O => data
  | S j' => if negb (Less data j j') then data else shiftLeft j' (Swap data j j')
  end.

(** [for j := i + 1; j < b; j++ { if !data.Less(j, j-1) { break }; data.Swap(j, j-1) }] *)
Fixpoint shiftRight (fuel : nat) (j b : nat) (data : list A) : list A :=
  match fuel with
  | O => data
  | S fuel' =>
      if (j <? b)%nat then
        if negb (Less data j (j - 1)) then data
        else shiftRight fuel' (S j) b (Swap data j (j - 1))
      else data
  end.

Definition maxSteps : nat := 5.
Definition shortestShifting : nat := 50.

(** The loop of [partialInsertionSort_func], with [steps] iterations
    left. *)
Fixpoint partialInsertionLoop (steps : nat) (data : list A) (i a b : nat) : list A * bool :=
  match steps with
  | O => (data, false)
  | S steps' =>
      let i := scanSorted (length data) data i b in
      if (i =? b)%nat then (data, true)
      else if (b - a <? shortestShifting)%nat then (data, false)
      else
        let data := Swap data i (i - 1) in
        let data := if (2 <=? i - a)%nat then shiftLeft (i - 1) data else data in
        let data := if (2 <=? b - i)%nat then shiftRight (length data) (i + 1) b data else data in
        partialInsertionLoop steps' data i a b
  end.

Definition partialInsertionSort_func (data : list A) (a b : nat) : list A * bool :=
  partialInsertionLoop maxSteps data (a + 1) a b.

(** [bits.Len(uint(n))] *)
Definition bits_Len (n : nat) : nat :=
  match n with
  | O => O
  | S _ => Z.to_nat (Z.log2 (Z.of_nat n) + 1)
  end.

(** [xorshift.Next] on a [uint64] state. *)
Definition xorshift_Next (r : Z) : Z :=
  let r := Z.lxor r (Z.shiftl r 13 mod 2 ^ 64) in
  let r := Z.lxor r (Z.shiftr r 17) in
  Z.lxor r (Z.shiftl r 5 mod 2 ^ 64).

Definition nextPowerOfTwo (length : nat) : Z := 2 ^ Z.of_nat (bits_Len length).

Definition breakPatterns_func (data : list A) (a b : nat) : list A :=
  let length := (b - a)%nat in
  if (8 <=? length)%nat then
    let modulus := nextPowerOfTwo length in
    let idx := (a + (length / 4) * 2 - 1)%nat in
    let step (st : Z * list A) (i : nat) : Z * list A :=
      let random := xorshift_Next (fst st) in
      let other := Z.to_nat (Z.land random (modulus - 1)) in
      let other := if (length <=? other)%nat then (other - length)%nat else other in
      (random, Swap (snd st) (idx - 1 + i) (a + other)) in
    snd (fold_left step (seq 0 3) (Z.of_nat length, data))
  else data.

Inductive sortedHint : Type := unknownHint | increasingHint | decreasingHint.

(** [order2_func]: the indices in order and the swap count. *)
Definition order2_func (data : list A) (a b : nat) (swaps : nat) : nat * nat * nat :=
  if Less data b a then (b, a, S swaps) else (a, b, swaps).

Definition median_func (data : list A) (a b c : nat) (swaps : nat) : nat * nat :=
  let '(a, b, swaps) := order2_func data a b swaps in
  let '(b, c, swaps) := order2_func data b c swaps in
  let '(a, b, swaps) := order2_func data a b swaps in
  (b, swaps).

Definition medianAdjacent_func (data : list A) (a : nat) (swaps : nat) : nat * nat :=
  median_func data (a - 1) a (a + 1) swaps.

Definition shortestNinther : nat := 50.
Definition maxSwaps : nat := 4 * 3.

Definition choosePivot_func (data : list A) (a b : nat) : nat * sortedHint :=
  let l := (b - a)%nat in
  let swaps := O in
  let i := (a + l / 4 * 1)%nat in
  let j := (a + l / 4 * 2)%nat in
  let k := (a + l / 4 * 3)%nat in
  let '(j, swaps) :=
    if (8 <=? l)%nat then
      let '(i, j, k, swaps) :=
        if (shortestNinther <=? l)%nat then
          let '(i, swaps) := medianAdjacent_func data i swaps in
          let '(j, swaps) := medianAdjacent_func data j swaps in
          let '(k, swaps) := medianAdjacent_func data k swaps in
          (i, j, k, swaps)
        else (i, j, k, swaps) in
      median_func data i j k swaps
    else (j, swaps) in
  if (swaps =? 0)%nat then (j, increasingHint)
  else if (swaps =? maxSwaps)%nat then (j, decreasingHint)
  else (j, unknownHint).

(** [for i < j { data.Swap(i, j); i++; j-- }] *)
Fixpoint reverseLoop (fuel : nat) (data : list A) (i j : nat) : list A :=
  match fuel with
  | O => data
  | S fuel' =>
      if (i <? j)%nat then reverseLoop fuel' (Swap data i j) (S i) (j - 1) else data
  end.

Definition reverseRange_func (data : list A) (a b : nat) : list A :=
  reverseLoop (length data) data a (b - 1).

Definition maxInsertion : nat := 12.

Definition isIncreasing (h : sortedHint) : bool :=
  match h with increasingHint => true | _ => false end.

Definition isDecreasing (h : sortedHint) : bool :=
  match h with decreasingHint => true | _ => false end.

(** [pdqsort_func]: one unit of fuel for each turn of its loop and each
    recursive call. *)
Fixpoint pdqsort_func (fuel : nat) (data : list A) (a b limit : nat)
    (wasBalanced wasPartitioned : bool) : list A :=
  match fuel with
  | O => data
  | S fuel' =>
      let length := (b - a)%nat in
      if (length <=? maxInsertion)%nat then insertionSort_func data a b
      else if (limit =? 0)%nat then heapSort_func data a b
      else
        let '(data, limit) :=
          if negb wasBalanced then (breakPatterns_func data a b, (limit - 1)%nat)
          else (data, limit) in
        let '(pivot, hint) := choosePivot_func data a b in
        let '(data, pivot, hint) :=
          if isDecreasing hint then
            (reverseRange_func data a b, ((b - 1) - (pivot - a))%nat, increasingHint)
          else (data, pivot, hint) in
        let '(data, done) :=
          if wasBalanced && wasPartitioned && isIncreasing hint
          then partialInsertionSort_func data a b
          else (data, false) in
        if done then data
        else if (0 <? a)%nat && negb (Less data (a - 1) pivot) then
          let '(data, mid) := partitionEqual_func data a b pivot in
          pdqsort_func fuel' data mid b limit wasBalanced wasPartitioned
        else
          let '(data, mid, alreadyPartitioned) := partition_func data a b pivot in
          let wasPartitioned := alreadyPartitioned in
          let leftLen := (mid - a)%nat in
          let rightLen := (b - mid)%nat in
          let balanceThreshold := (length / 8)%nat in
          if (leftLen <? rightLen)%nat then
            let wasBalanced := (balanceThreshold <=? leftLen)%nat in
            let data := pdqsort_func fuel' data a mid limit true true in
            pdqsort_func fuel' data (mid + 1) b limit wasBalanced wasPartitioned
          else
            let wasBalanced := (balanceThreshold <=? rightLen)%nat in
            let data := pdqsort_func fuel' data (mid + 1) b limit true true in
            pdqsort_func fuel' data a mid limit wasBalanced wasPartitioned
  end.

(** [sort.Slice] *)
Definition Slice (x : list A) : list A :=
  let length := List.length x in
  let limit := bits_Len length in
  pdqsort_func (S length) x 0 length limit true true.

End Sort.
End GoSort.

(** ** The sort the specification describes

    A stable sort under [less]: an element is inserted before the first
    element it does not have to follow, so equal elements keep their
    order. *)
Fixpoint insertStable {A : Type} (less : A -> A -> bool) (x : A) (l : list A) : list A :=
  match l with
  | [] => [x]
  | y :: l' => if less y x then y :: insertStable less x l' else x :: y :: l'
  end.

Definition stableSort {A : Type} (less : A -> A -> bool) (l : list A) : list A :=
  fold_right (insertStable less) [] l.

(** What the packer relies on when it calls [sort.Slice] with
    [bySizeDesc]: the slice is permuted, and afterwards no element is
    [less] than one before it. *)
Definition sortsBySizeDesc
    (sort_Slice : (FileInfo.t -> FileInfo.t -> bool) -> list FileInfo.t -> list FileInfo.t)
  : Prop :=
  forall l,
    Permutation (sort_Slice bySizeDesc l) l /\
    StronglySorted (fun x y => bySizeDesc y x = false) (sort_Slice bySizeDesc l).

(** ** A small source tree, used to run the definitions *)

Module Example.

Definition bytes (s : string) : list byte := list_byte_of_string s.

Definition opts : PackerOptions := mkOptions false 32768 10.

Definition fs : gmap string File :=
  list_to_map
    [ ("src/a.txt", mkFile (bytes "alpha!") 420 (mkTime 1700000000 5));
      ("src/b.txt", mkFile (bytes "bravo") 384 (mkTime 1700000100 0));
      ("src/c.txt", mkFile (bytes "char") 420 (mkTime 1700000200 999));
      ("src/d.txt", mkFile (bytes "") 420 (mkTime 1700000300 1)) ].

Definition walk : list string := ["src/a.txt"; "src/b.txt"; "src/c.txt"; "src/d.txt"].

Definition info (path : string) (size : Z) : FileInfo.t :=
  FileInfo.mk path size (mkTime 1700000000 0) 420 false.

(** Descriptors of the four files, smallest first. *)
Definition files : list FileInfo.t :=
  [info "src/d.txt" 0; info "src/c.txt" 4; info "src/b.txt" 5; info "src/a.txt" 6].

End Example.

(** ** The placement on its own

    The loop of [packFiles] without its input and output: which
    descriptors go to which block number, and the running size the block
    ends with. [current] is the open block, [currentSize] its size. *)
Fixpoint placement (capacity : Z) (files : list FileInfo.t) (blockNum : Z)
    (current : list FileInfo.t) (currentSize : Z) : list (Z * list FileInfo.t * Z) :=
  match files with
  | [] => []
  | file :: rest =>
      let '(sealed, blockNum, current, currentSize) :=
        if Int.int64 (currentSize + FileInfo.Size file) >? capacity
        then ([(blockNum, current, currentSize)], Int.int32 (blockNum + 1), [], 0)
        else ([], blockNum, current, currentSize) in
      let current := current ++ [file] in
      let currentSize := Int.int64 (currentSize + FileInfo.Size file) in
      sealed ++
      match rest with
      | [] => [(blockNum, current, currentSize)]
      | _ :: _ => placement capacity rest blockNum current currentSize
      end
  end.

(** A block file as a placement: its number, what its records keep of
    their descriptors, and the size of the block. *)
Definition placed (w : Written) : Z * list (string * Z * Time * Z) * Z :=
  (w_num w, map described (Block.Files (w_block w)), Block.Size (w_block w)).

Definition placedOf (g : Z * list FileInfo.t * Z) : Z * list (string * Z * Time * Z) * Z :=
  (g.1.1, map descriptor g.1.2, g.2).

Definition MB : Z := 1024 * 1024.

(** A record whose fields are values of their Go types: the path is a Go
    string short enough for its [int32] length, the integers are in range
    and the checksum is a digest. *)
Definition wfMetadata (m : FileMetadata.t) : Prop :=
  Z.of_nat (length (list_byte_of_string (FileMetadata.Path m))) <= Int.max_int32 /\
  Int.is_int64 (FileMetadata.Size m) /\
  Int.is_int64 (Unix (FileMetadata.ModTime m)) /\
  Int.is_int64 (FileMetadata.Offset m) /\
  Int.is_uint32 (FileMetadata.Mode m) /\
  length (FileMetadata.Checksum m) = SHA256.Size.

(** What decoding gives back of a record: the modification time has lost
    its nanoseconds and the block ID is not stored. *)
Definition decoded (m : FileMetadata.t) : FileMetadata.t :=
  FileMetadata.mk (FileMetadata.Path m) (FileMetadata.Size m)
    (time_Unix (Unix (FileMetadata.ModTime m)) 0) (FileMetadata.Checksum m)
    (FileMetadata.Offset m) 0 (FileMetadata.Mode m).

(** A record that also carries the size of its file. *)
Definition stored (fs : gmap string File) (m : FileMetadata.t) : Prop :=
  exists file, fs !! FileMetadata.Path m = Some file /\
               FileMetadata.Checksum m = SHA256.Sum256 (data file) /\
               FileMetadata.Size m = Z.of_nat (length (data file)).

(** The bytes of the file a record names. *)
Definition contentOf (fs : gmap string File) (m : FileMetadata.t) : list byte :=
  match fs !! FileMetadata.Path m with
  | Some f => data f
  | None => []
  end.

(** The file extraction leaves for a record in a fresh place: the bytes of
    the source file, the recorded mode as [os.OpenFile] creates it, the
    recorded modification time in whole seconds. *)
Definition restored (umask : Z) (fs : gmap string File) (m : FileMetadata.t) : File :=
  mkFile (contentOf fs m) (createdMode umask (FileMetadata.Mode m))
    (time_Unix (Unix (FileMetadata.ModTime m)) 0).

(** The extraction root after the files of [files] were restored. *)
Definition extracted (filepath_Join : string -> string -> string) (umask : Z)
    (fs : gmap string File) (outputDir : string) (files : list FileMetadata.t)
    (dest : gmap string File) : gmap string File :=
  fold_left (fun d m => <[filepath_Join outputDir (FileMetadata.Path m) := restored umask fs m]> d)
    files dest.

(** The test of the directory loops of [Unpack] and [Verify]. *)
Definition isBlockFile (entry : DirEntry) : bool :=
  negb (IsDir entry) && String.eqb (filepath_Ext (Name entry)) ".beam".

(** A block file as [Pack] leaves it: its records are stored records with
    fields of their types, few enough for the [int32] count, and its bytes
    are the body of the block followed by the digest of the body. *)
Definition packedBlock (fs : gmap string File) (w : Written) : Prop :=
  Forall (stored fs) (Block.Files (w_block w)) /\
  Forall wfMetadata (Block.Files (w_block w)) /\
  Z.of_nat (length (Block.Files (w_block w))) <= Int.max_int32 /\
  w_bytes w = blockBody fs (w_block w) (w_num w) ++
              SHA256.Sum256 (blockBody fs (w_block w) (w_num w)).

(** The descriptor [collectFileInfo] makes of a file. *)
Definition infoOf (path : string) (file : File) : FileInfo.t :=
  FileInfo.mk path (Z.of_nat (length (data file))) (modTime file) (mode file) false.

(** The discovery filter: the file is there and is not larger than a
    block. *)
Definition fits (opts : PackerOptions) (fs : gmap string File) (path : string) : bool :=
  match fs !! path with
  | Some f => negb (Z.of_nat (length (data f)) >? BlockSize opts)
  | None => false
  end.

(** A source tree whose walk is a list of distinct paths of files, all with
    attributes of their Go types: a path is a string short enough for an
    [int32] length, a size and a modification time are [int64], a mode is
    [uint32], and the number of files is an [int32]. *)
Definition wfSource (fs : gmap string File) (walk : list string) : Prop :=
  List.NoDup walk /\
  Z.of_nat (length walk) <= Int.max_int32 /\
  Forall (fun p =>
            Z.of_nat (length (list_byte_of_string p)) <= Int.max_int32 /\
            exists file, fs !! p = Some file /\
                         Z.of_nat (length (data file)) <= Int.max_int64 /\
                         Int.is_int64 (Unix (modTime file)) /\
                         Int.is_uint32 (mode file)) walk.

(** A record as [Pack] makes it from a file of the source tree. *)
Definition fromSource (fs : gmap string File) (m : FileMetadata.t) : Prop :=
  exists file,
    fs !! FileMetadata.Path m = Some file /\
    FileMetadata.Checksum m = SHA256.Sum256 (data file) /\
    FileMetadata.Size m = Z.of_nat (length (data file)) /\
    FileMetadata.Mode m = mode file /\
    FileMetadata.ModTime m = modTime file /\
    wfMetadata m.

(** ** Thirteen files, ten of them of one size *)

Module TiesExample.

Definition opts : PackerOptions := mkOptions false 32768 10.

Definition file (size : nat) : File := mkFile (repeat "x"%byte size) 420 (mkTime 1700000000 0).

(** The walk, in discovery order, and the size of each file. *)
Definition tree : list (string * nat) :=
  [ ("f00", 7); ("f01", 3); ("f02", 3); ("f03", 3); ("f04", 3); ("f05", 3); ("f06", 5);
    ("f07", 3); ("f08", 3); ("f09", 3); ("f10", 3); ("f11", 3); ("f12", 3) ]%nat.

Definition walk : list string := map fst tree.

Definition fs : gmap string File := list_to_map (map (fun e => (fst e, file (snd e))) tree).

(** The descriptors [collectFileInfo] makes of the walk. *)
Definition descriptors : list FileInfo.t :=
  map (fun e => FileInfo.mk (fst e) (Z.of_nat (snd e)) (mkTime 1700000000 0) 420 false) tree.

(** The paths of the records of each block file. *)
Definition assignment (out : list Written) : list (list string) :=
  map (fun w => map FileMetadata.Path (Block.Files (w_block w))) out.

End TiesExample.

(** The file count a block stream declares, bytes 4 to 7, and the path
    length a record stream declares, bytes 0 to 3, both as [int32]. *)
Definition declaredCount (r : list byte) : Z := Int.int32 (le_value (firstn 4 (skipn 4 r))).
Definition declaredPathLen (r : list byte) : Z := Int.int32 (le_value (firstn 4 r)).

(** A written block in which the payload of the record [m] was replaced by
    [bad]; [pre] and [post] are the records before and after [m], and
    [footer] is whatever follows the payload section. *)
Definition corruptedBlock (fs : gmap string File) (blockNum : Z)
    (pre : list FileMetadata.t) (m : FileMetadata.t) (post : list FileMetadata.t)
    (bad footer : list byte) : list byte :=
  (le_bytes 4 blockNum ++ le_bytes 4 (Z.of_nat (length (pre ++ m :: post)))) ++
  concat (map writeMetadata (pre ++ m :: post)) ++
  payload fs pre ++ bad ++ payload fs post ++ footer.

(** ** A block of two files and a damaged copy of it *)

Module CorruptExample.

Definition walk : list string := ["src/b.txt"; "src/c.txt"].

(** The one block file [Pack] writes for the two files, capacity 10. *)
Definition good : list byte :=
  match (Pack GoSort.Slice Example.opts Example.fs walk).1 with
  | w :: _ => w_bytes w
  | [] => []
  end.

(** The payload section starts after the header and two records of 73
    bytes; its first byte belongs to [src/b.txt]. *)
Definition payloadStart : nat := 8 + 73 + 73.

Definition corrupted : list byte := <[payloadStart := xff]> good.

Definition opts : PackerOptions := mkOptions false 32768 10.

Definition mb : FileMetadata.t :=
  FileMetadata.mk "src/b.txt" 5 (mkTime 1700000100 0)
    (SHA256.Sum256 (Example.bytes "bravo")) 0 1 384.

Definition mc : FileMetadata.t :=
  FileMetadata.mk "src/c.txt" 4 (mkTime 1700000200 999)
    (SHA256.Sum256 (Example.bytes "char")) 5 1 420.

End CorruptExample.

(** What holds of a block file when no [int64] sum can wrap. *)
Definition wellFormed (capacity : Z) (w : Written) : Prop :=
  w_num w = Block.ID (w_block w) /\
  Block.Files (w_block w) <> [] /\
  Block.Size (w_block w) = sumSizes (Block.Files (w_block w)) /\
  sumSizes (Block.Files (w_block w)) <= capacity /\
  contiguous 0 (Block.Files (w_block w)).

(** Every block file holds what [writeBlock] wrote for its block, and every
    record of it was made from a file of the source tree. *)
Definition faithful (fs : gmap string File) (w : Written) : Prop :=
  Forall (recorded fs) (Block.Files (w_block w)) /\
  w_bytes w = (writeBlock fs (w_block w) (w_num w)).1.

Module RoundTripExample.

Definition join (dir path : string) : string := dir +:+ "/" +:+ path.
Definition umask : Z := 18.
Definition now : Time := mkTime 1800000000 123.
Definition opts : PackerOptions := mkOptions true 32768 5.

(** The output directory of [Pack], with the directory [Unpack] is asked
    to fill and a stray file in it. *)
Definition entries : list DirEntry :=
  mkDirEntry "unpack" true [] ::
  rev (dirEntries (Pack stableSort opts Example.fs Example.walk).1) ++
  [mkDirEntry "notes.txt" false (Example.bytes "not a block")].

End RoundTripExample.

Module OversizedExample.
Definition opts : PackerOptions := mkOptions false 32768 3.
Definition walk : list string := ["src/a.txt"; "src/b.txt"; "src/c.txt"].
End OversizedExample.

(** One read of [readMetadata] in a hypothesis: the case of an error is
    closed, the case of a value goes on. *)
Ltac read_step H E :=
  match type of H with
  | context [lift (?f ?n ?r)] =>
      destruct (f n r) as [[? ?]|?] eqn:E;
      cbn [lift mbind result_bind] in H; [|discriminate H]
  end.

(** ** Checksums of files (validator.go [NewValidator],
    [CalculateReaderChecksum], [CalculateFileChecksum],
    [VerifyFileIntegrity]) *)

Record Validator : Type := mkValidator { bufferSize : Z }.

Definition NewValidator (bufferSize : Z) : Validator := mkValidator bufferSize.

(** [n, err := r.Read(buf)] on an [*os.File], [size] being [len(buf)]: the
    bytes read, [buf[:n]], the reader after the call and the error. One
    read takes what is there, up to [size] bytes, and reports [io.EOF] only
    when nothing is left; a buffer of length zero reads nothing and reports
    no error, at the end of the file too. *)
Definition os_File_Read (size : nat) (r : list byte) : list byte * list byte * option error :=
  match size, r with
  | O, _ => ([], r, None)
  | S _, [] => ([], [], Some io_EOF)
  | S _, _ :: _ => (firstn size r, skipn size r, None)
  end.

(** The loop of [CalculateReaderChecksum] on an open file. [h] is the
    state of the hash, the bytes written to it so far; [h.Write] never
    fails. The result is [None] when the loop is still running after
    [fuel] iterations. *)
Fixpoint checksumLoop (fuel : nat) (size : nat) (r : list byte) (h : list byte)
  : option (result (list byte)) :=
  match fuel with
  | O => None
  | S fuel' =>
      let '(got, r, err) := os_File_Read size r in
      let h := if (0 <? length got)%nat then h ++ got else h in
      match err with
      | Some io_EOF => Some (Ok (SHA256.Sum256 h))
      | Some e => Some (Err (ErrorfW "error reading file: %w" [] e))
      | None => checksumLoop fuel' size r h
      end
  end.

(** [CalculateReaderChecksum] on an open file; [make([]byte, v.bufferSize)]
    panics on a negative length. *)
Definition CalculateReaderChecksum (v : Validator) (fuel : nat) (r : list byte)
  : option (result (list byte)) :=
  if bufferSize v <? 0 then Some (Panic "makeslice: len out of range")
  else checksumLoop fuel (Z.to_nat (bufferSize v)) r [].

Definition CalculateFileChecksum (v : Validator) (fuel : nat) (fs : gmap string File)
    (path : string) : option (result (list byte)) :=
  match fs !! path with
  | None => Some (Err (ErrorfW "error opening file: %w" [] (PathError "open" path)))
  | Some f => CalculateReaderChecksum v fuel (data f)
  end.

Definition VerifyFileIntegrity (v : Validator) (fuel : nat) (fs : gmap string File)
    (path : string) (expectedSum : list byte) : option status :=
  match CalculateFileChecksum v fuel fs path with
  | None => None
  | Some (Panic msg) => Some (Panicked msg)
  | Some (Err err) => Some (Failure (ErrorfW "error calculating checksum: %w" [] err))
  | Some (Ok actualSum) =>
      if negb (ChecksumsEqual expectedSum actualSum)
      then Some (Failure (FileIntegrityError path expectedSum actualSum))
      else Some Success
  end.

(** ** Verifying a directory of blocks (packer.go [Verify]) *)

(** The directory loop of [Verify]: it returns at the first block file
    that does not validate. *)
Fixpoint verifyEntries (entries : list DirEntry) : option error :=
  match entries with
  | [] => None
  | entry :: rest =>
      if negb (IsDir entry) && String.eqb (filepath_Ext (Name entry)) ".beam" then
        match ValidateBlock (Content entry) with
        | Some e => Some (ErrorfW "error verifying block integrity: %w" [] e)
        | None => verifyEntries rest
        end
      else verifyEntries rest
  end.

(** [Verify], on what [os.Stat(inputDir)] finds. *)
Definition Verify (input : Input) : option error :=
  match input with
  | Directory entries => verifyEntries entries
  | BlockFile content => ValidateBlock content
  end.

(** ** The layout of a block file *)

(** The bytes a record takes in the metadata section: the fixed-width
    fields, the path and the checksum. *)
Definition recordLength (m : FileMetadata.t) : nat :=
  4 + length (list_byte_of_string (FileMetadata.Path m)) + 8 + 8 + 8 + 4 +
  length (FileMetadata.Checksum m).

(** Where the payload section starts in a block file: after the header and
    the records. *)
Definition payloadOffset (files : list FileMetadata.t) : nat :=
  8 + list_sum (map recordLength files).

(** The blocks written before the last one. *)
Definition sealedBlocks (out : list Written) : list Written := removelast out.

(** The sum of the sizes of the files of the walk that fit in a block. *)
Definition packedSize (opts : PackerOptions) (fs : gmap string File) (walk : list string) : Z :=
  fold_right Z.add 0
    (map (fun p => match fs !! p with
                   | Some f => Z.of_nat (length (data f))
                   | None => 0
                   end) (List.filter (fits opts fs) walk)).

(** ** The size strings of the test generator (test-generator/main.go
    [parseSize]) *)

Module Generator.

(** [strconv.ErrSyntax] and [strconv.ErrRange]. *)
Inductive numError : Type := ErrSyntax | ErrRange.

(** The errors [parseSize] returns: a [*strconv.NumError], or
    [fmt.Errorf] wrapping one with [%w]. *)
Inductive error : Type :=
| NumError (Func Num : string) (Err : numError)
| ErrorfW (format : string) (err : error).

(** A byte of a string, as a number. *)
Definition code (c : ascii) : Z := Z.of_N (N_of_ascii c).

(** [\d] of a Go regular expression, and the test ['0' <= c && c <= '9']
    of [strconv]. *)
Definition isDigit (c : ascii) : bool := (48 <=? code c) && (code c <=? 57).

(** [\s] of a Go regular expression: tab, line feed, form feed, carriage
    return and space. *)
Definition isRegexpSpace (c : ascii) : bool :=
  (code c =? 9) || (code c =? 10) || (code c =? 12) || (code c =? 13) || (code c =? 32).

Fixpoint hasPrefix (prefix l : list ascii) : bool :=
  match prefix, l with
  | [], _ => true
  | a :: prefix', b :: l' => Ascii.eqb a b && hasPrefix prefix' l'
  | _ :: _, [] => false
  end.

(** [strings.HasSuffix] *)
Definition strings_HasSuffix (s suffix : string) : bool :=
  hasPrefix (rev (list_ascii_of_string suffix)) (rev (list_ascii_of_string s)).

(** [strings.TrimSuffix] *)
Definition strings_TrimSuffix (s suffix : string) : string :=
  if strings_HasSuffix s suffix then
    string_of_list_ascii
      (firstn (String.length s - String.length suffix) (list_ascii_of_string s))
  else s.

Fixpoint dropSpaces (l : list ascii) : list ascii :=
  match l with
  | [] => []
  | c :: rest => if isRegexpSpace c then dropSpaces rest else l
  end.

(** [regexp.MatchString(`\d+\s*` + u + `$`, s)] for a unit [u] of
    letters: the pattern is not anchored at the start, so [s] matches when
    it ends with a digit, then any white space, then [u]. The scan runs
    from the end of [s]. *)
Definition matchUnit (u s : string) : bool :=
  let rs := rev (list_ascii_of_string s) in
  let ru := rev (list_ascii_of_string u) in
  if hasPrefix ru rs then
    match dropSpaces (skipn (length ru) rs) with
    | c :: _ => isDigit c
    | [] => false
    end
  else false.

Definition maxUint64 : Z := 2 ^ 64 - 1.

(** The loop of [strconv.ParseUint(s, 10, 64)] over the bytes of [s]; [n]
    is the [uint64] read so far. A byte that is no digit is a syntax
    error; a value that does not fit is a range error, found at the first
    digit that does not fit. *)
Fixpoint parseUintLoop (cs : list ascii) (n : Z) : Z + numError :=
  match cs with
  | [] => inl n
  | c :: rest =>
      if isDigit c then
        let d := code c - 48 in
        if maxUint64 / 10 + 1 <=? n then inr ErrRange
        else
          let n := n * 10 in
          let n1 := (n + d) mod 2 ^ 64 in
          if (n1 <? n) || (maxUint64 <? n1) then inr ErrRange
          else parseUintLoop rest n1
      else inr ErrSyntax
  end.

(** [strconv.ParseInt(s, 10, 64)]: the value and the error. *)
Definition ParseInt (s : string) : Z * option error :=
  match list_ascii_of_string s with
  | [] => (0, Some (NumError "ParseInt" s ErrSyntax))
  | c :: rest =>
      let '(neg, digits) :=
        if Ascii.eqb c "+" then (false, rest)
        else if Ascii.eqb c "-" then (true, rest)
        else (false, c :: rest) in
      let parsed :=
        match digits with
        | [] => inr ErrSyntax
        | _ :: _ => parseUintLoop digits 0
        end in
      match parsed with
      | inr ErrSyntax => (0, Some (NumError "ParseInt" s ErrSyntax))
      | inr ErrRange =>
          if neg then (- 2 ^ 63, Some (NumError "ParseInt" s ErrRange))
          else (2 ^ 63 - 1, Some (NumError "ParseInt" s ErrRange))
      | inl un =>
          if negb neg && (2 ^ 63 <=? un) then
            (2 ^ 63 - 1, Some (NumError "ParseInt" s ErrRange))
          else if neg && (2 ^ 63 <? un) then
            (- 2 ^ 63, Some (NumError "ParseInt" s ErrRange))
          else (if neg then - un else un, None)
      end
  end.

(** The map [units] of [parseSize]. *)
Definition units : gmap string Z :=
  list_to_map [ ("B"%string, 1); ("KB"%string, 1000); ("MB"%string, 1000 * 1000);
                ("GB"%string, 1000 * 1000 * 1000);
                ("TB"%string, 1000 * 1000 * 1000 * 1000) ].

(** The keys of [units]. *)
Definition unitNames : list string := ["B"; "KB"; "MB"; "GB"; "TB"]%string.

(** [units[unit]]: a key that is not in the map gives zero. *)
Definition unitFactor (unit : string) : Z := default 0 (units !! unit).

Section ParseSize.

(** [strings.ToUpper] and [strings.TrimSpace]. *)
Variable strings_ToUpper : string -> string.
Variable strings_TrimSpace : string -> string.

(** The loop [for u := range units] of [parseSize]. [order] is the order
    in which [range] yields the keys, which the Go runtime chooses anew
    for every loop. The result is what [parseSize] returns from inside the
    loop, or the [unit] and [value] the loop leaves. *)
Fixpoint unitLoop (order : list string) (sizeStr : string)
  : (Z * option error) + (string * Z) :=
  match order with
  | [] => inr (""%string, 0)
  | u :: rest =>
      if matchUnit u sizeStr then
        let numericPart := strings_TrimSuffix sizeStr u in
        let numericPart := strings_TrimSpace numericPart in
        match ParseInt numericPart with
        | (_, Some err) => inl (0, Some err)
        | (value, None) => inr (u, value)
        end
      else unitLoop rest sizeStr
  end.

(** [parseSize]; the product is a product of [int64]. *)
Definition parseSize (order : list string) (sizeStr : string) : Z * option error :=
  let sizeStr := strings_ToUpper sizeStr in
  match unitLoop order sizeStr with
  | inl ret => ret
  | inr (unit, value) =>
      let parsed :=
        if String.eqb unit "" then
          match ParseInt sizeStr with
          | (_, Some err) =>
              inl (ErrorfW "error parsing size string as integer: %w" err)
          | (value, None) => inr value
          end
        else inr value in
      match parsed with
      | inl err => (0, Some err)
      | inr value => (Int.int64 (value * unitFactor unit), None)
      end
  end.

End ParseSize.

(** What is assumed of [strings.ToUpper] and [strings.TrimSpace]: their
    results on strings of ASCII bytes. On such a string [ToUpper] maps the
    letters [a] to [z] to [A] to [Z], and [TrimSpace] removes the leading
    and trailing tabs, line feeds, vertical tabs, form feeds, carriage
    returns and spaces. *)
Definition isASCII (cs : list ascii) : Prop := Forall (fun c => code c < 128) cs.

Definition asciiUpper (c : ascii) : ascii :=
  if (97 <=? code c) && (code c <=? 122) then ascii_of_N (N_of_ascii c - 32) else c.

Definition isAsciiSpace (c : ascii) : bool :=
  (code c =? 9) || (code c =? 10) || (code c =? 11) || (code c =? 12) || (code c =? 13) ||
  (code c =? 32).

Fixpoint dropAsciiSpaces (l : list ascii) : list ascii :=
  match l with
  | [] => []
  | c :: rest => if isAsciiSpace c then dropAsciiSpaces rest else l
  end.

Definition asciiTrimSpace (cs : list ascii) : list ascii :=
  rev (dropAsciiSpaces (rev (dropAsciiSpaces cs))).

Definition upperCases (strings_ToUpper : string -> string) : Prop :=
  forall cs, isASCII cs ->
    strings_ToUpper (string_of_list_ascii cs) = string_of_list_ascii (map asciiUpper cs).

Definition trimsSpace (strings_TrimSpace : string -> string) : Prop :=
  forall cs, isASCII cs ->
    strings_TrimSpace (string_of_list_ascii cs) = string_of_list_ascii (asciiTrimSpace cs).

(** The number a string of digits denotes. *)
Definition decimal (cs : list ascii) : Z :=
  fold_left (fun n c => n * 10 + (code c - 48)) cs 0.

(** The two library functions on ASCII strings, to run [parseSize]. *)
Definition toUpperASCII (s : string) : string :=
  string_of_list_ascii (map asciiUpper (list_ascii_of_string s)).

Definition trimSpaceASCII (s : string) : string :=
  string_of_list_ascii (asciiTrimSpace (list_ascii_of_string s)).

End Generator.

(** * Properties *)

(** ** Machine integers and little-endian fields *)

Lemma int32_id z : Int.is_int32 z -> Int.int32 z = z.
Proof.
  unfold Int.is_int32, Int.min_int32, Int.max_int32, Int.int32, Int.wrap. intros H.
  rewrite Z.mod_small; lia.
Qed.

Lemma int64_id z : Int.is_int64 z -> Int.int64 z = z.
Proof.
  unfold Int.is_int64, Int.min_int64, Int.max_int64, Int.int64, Int.wrap. intros H.
  rewrite Z.mod_small; lia.
Qed.

Lemma uint32_id z : Int.is_uint32 z -> Int.uint32 z = z.
Proof. unfold Int.is_uint32, Int.uint32. intros H. apply Z.mod_small; lia. Qed.

Lemma int64_range z : Int.is_int64 (Int.int64 z).
Proof.
  unfold Int.is_int64, Int.min_int64, Int.max_int64, Int.int64, Int.wrap.
  pose proof (Z.mod_pos_bound (z + 2 ^ (64 - 1)) (2 ^ 64) ltac:(lia)). lia.
Qed.

Lemma int32_range z : Int.is_int32 (Int.int32 z).
Proof.
  unfold Int.is_int32, Int.min_int32, Int.max_int32, Int.int32, Int.wrap.
  pose proof (Z.mod_pos_bound (z + 2 ^ (32 - 1)) (2 ^ 32) ltac:(lia)). lia.
Qed.

(** Wrapping does not see multiples of [2^w]. *)
Lemma wrap_mod w z : 0 < w -> Int.wrap w (z mod 2 ^ w) = Int.wrap w z.
Proof.
  intros Hw. unfold Int.wrap. f_equal.
  rewrite Zplus_mod_idemp_l. reflexivity.
Qed.

Lemma Z_of_byte_range b : 0 <= Z_of_byte b < 256.
Proof.
  unfold Z_of_byte. pose proof (Byte.to_N_bounded b). lia.
Qed.

Lemma Z_of_byte_of_Z z : Z_of_byte (byte_of_Z z) = z mod 256.
Proof.
  unfold Z_of_byte, byte_of_Z.
  pose proof (Z.mod_pos_bound z 256 ltac:(lia)) as Hb.
  destruct (Byte.of_N (Z.to_N (z mod 256))) as [b|] eqn:E.
  - apply Byte.to_of_N in E. rewrite E. lia.
  - apply Byte.of_N_None_iff in E. lia.
Qed.

Lemma byte_of_Z_of_byte b : byte_of_Z (Z_of_byte b) = b.
Proof.
  unfold byte_of_Z. pose proof (Z_of_byte_range b) as Hb.
  rewrite Z.mod_small by lia. unfold Z_of_byte. rewrite N2Z.id.
  rewrite Byte.of_to_N. reflexivity.
Qed.

Lemma length_le_bytes n z : length (le_bytes n z) = n.
Proof. revert z. induction n as [|n IH]; intros z; simpl; [|rewrite IH]; reflexivity. Qed.

Lemma le_value_le_bytes n z : le_value (le_bytes n z) = z mod 256 ^ Z.of_nat n.
Proof.
  revert z. induction n as [|n IH]; intros z.
  - simpl. rewrite Z.mod_1_r. reflexivity.
  - cbn [le_bytes le_value]. rewrite Z_of_byte_of_Z, IH.
    rewrite Nat2Z.inj_succ, Z.pow_succ_r by lia.
    rewrite Z.rem_mul_r by lia. reflexivity.
Qed.

Lemma le_value_range l : 0 <= le_value l < 256 ^ Z.of_nat (length l).
Proof.
  induction l as [|b l IH].
  - simpl. lia.
  - cbn [le_value length]. rewrite Nat2Z.inj_succ, Z.pow_succ_r by lia.
    pose proof (Z_of_byte_range b). lia.
Qed.

(** Reading back what [binary.Write] wrote, at each of the three widths the
    block format uses. *)
Lemma read_int32_le_bytes z : Int.is_int32 z -> Int.int32 (le_value (le_bytes 4 z)) = z.
Proof.
  intros H. rewrite le_value_le_bytes.
  change (256 ^ Z.of_nat 4) with (2 ^ 32).
  unfold Int.int32. rewrite wrap_mod by lia. apply int32_id, H.
Qed.

Lemma read_int64_le_bytes z : Int.is_int64 z -> Int.int64 (le_value (le_bytes 8 z)) = z.
Proof.
  intros H. rewrite le_value_le_bytes.
  change (256 ^ Z.of_nat 8) with (2 ^ 64).
  unfold Int.int64. rewrite wrap_mod by lia. apply int64_id, H.
Qed.

Lemma read_uint32_le_bytes z : Int.is_uint32 z -> le_value (le_bytes 4 z) = z.
Proof.
  intros H. rewrite le_value_le_bytes.
  change (256 ^ Z.of_nat 4) with (2 ^ 32). apply uint32_id, H.
Qed.

(** ** SHA-256 *)

Lemma length_Sum256 msg : length (SHA256.Sum256 msg) = SHA256.Size.
Proof. reflexivity. Qed.

Example Sum256_empty :
  SHA256.Sum256 [] = map byte_of_Z
    [227; 176; 196; 66; 152; 252; 28; 20; 154; 251; 244; 200; 153; 111; 185; 36;
     39; 174; 65; 228; 100; 155; 147; 76; 164; 149; 153; 27; 120; 82; 184; 85].
Proof. vm_compute. reflexivity. Qed.

Example Sum256_abc :
  SHA256.Sum256 (list_byte_of_string "abc") = map byte_of_Z
    [186; 120; 22; 191; 143; 1; 207; 234; 65; 65; 64; 222; 93; 174; 34; 35;
     176; 3; 97; 163; 150; 23; 122; 156; 180; 16; 255; 97; 242; 0; 21; 173].
Proof. vm_compute. reflexivity. Qed.

(** Seventy bytes: two blocks. *)
Example Sum256_two_blocks :
  SHA256.Sum256 (repeat "a"%byte 70) = map byte_of_Z
    [107; 213; 229; 3; 72; 85; 161; 18; 65; 240; 222; 232; 252; 114; 133; 15;
     253; 153; 85; 178; 131; 71; 168; 100; 40; 181; 250; 25; 17; 159; 106; 208].
Proof. vm_compute. reflexivity. Qed.

(** ** The packing loop *)

Lemma runningTotal_app start l m :
  runningTotal start (l ++ [m]) = Int.int64 (runningTotal start l + FileMetadata.Size m).
Proof. unfold runningTotal. rewrite fold_left_app. reflexivity. Qed.

Lemma chained_app start l m :
  chained start (l ++ [m]) <-> chained start l /\ FileMetadata.Offset m = runningTotal start l.
Proof.
  revert start. induction l as [|x l IH]; intros start; simpl.
  - tauto.
  - rewrite IH. tauto.
Qed.

Lemma sumSizes_app l m : sumSizes (l ++ [m]) = sumSizes l + FileMetadata.Size m.
Proof.
  unfold sumSizes, sizes. induction l as [|x l IH]; simpl; lia.
Qed.

Lemma contiguous_app start l m :
  contiguous start (l ++ [m]) <->
  contiguous start l /\ FileMetadata.Offset m = start + sumSizes l /\ 0 <= FileMetadata.Size m.
Proof.
  revert start. induction l as [|x l IH]; intros start.
  - cbn. unfold sumSizes. simpl. intuition lia.
  - cbn [app contiguous]. rewrite IH.
    replace (sumSizes (x :: l)) with (FileMetadata.Size x + sumSizes l) by reflexivity.
    intuition lia.
Qed.

(** A loop rule for [packFiles]: [G] is known of every file, [J] holds of
    the state at the head of the loop, [P] is wanted of every block file. *)
Section LoopRule.

Variable opts : PackerOptions.
Variable fs : gmap string File.
Variable G : FileInfo.t -> Prop.
Variable J : Z -> Block.t -> Z -> Prop.
Variable P : Written -> Prop.

Hypothesis seal : forall n b s f,
  J n b s -> G f -> Int.int64 (s + FileInfo.Size f) > BlockSize opts ->
  P (mkWritten n b (writeBlock fs b n).1) /\
  J (Int.int32 (n + 1)) (newBlock (Int.int32 (n + 1))) 0.

Hypothesis add : forall n b s f b',
  J n b s -> G f -> Int.int64 (s + FileInfo.Size f) <= BlockSize opts \/ (s = 0 /\ b = newBlock n) ->
  addFileToBlock fs b f = inl b' ->
  J n b' (Int.int64 (s + FileInfo.Size f)) /\ P (mkWritten n b' (writeBlock fs b' n).1).

Lemma packFiles_loop_rule files : forall n b s out,
  Forall G files -> J n b s -> Forall P out ->
  Forall P (packFiles_loop opts fs files n b s out).1.
Proof.
  induction files as [|f rest IH]; intros n b s out HG HJ HP; [exact HP|].
  apply Forall_cons in HG as [Hf HG].
  cbn [packFiles_loop].
  destruct (Z.gtb_spec (Int.int64 (s + FileInfo.Size f)) (BlockSize opts)) as [Hgt|Hle].
  - destruct (seal n b s f HJ Hf ltac:(lia)) as [HPb HJ'].
    destruct (writeBlock fs b n) as [bytes [e|]] eqn:Ew; cbn [fst] in HPb.
    + cbn. apply Forall_app. split; [exact HP|]. constructor; [exact HPb|constructor].
    + assert (HP' : Forall P (out ++ [mkWritten n b bytes])).
      { apply Forall_app. split; [exact HP|]. constructor; [exact HPb|constructor]. }
      destruct (addFileToBlock fs (newBlock (Int.int32 (n + 1))) f) as [b'|e] eqn:Ea;
        [|exact HP'].
      destruct (add _ _ _ _ _ HJ' Hf (or_intror (conj eq_refl eq_refl)) Ea) as [HJ'' HPb'].
      destruct rest as [|f' rest'].
      * destruct (writeBlock fs b' (Int.int32 (n + 1))) as [bytes' [e|]]; cbn;
          (apply Forall_app; split; [exact HP'|]; constructor; [apply HPb'|constructor]).
      * apply IH; assumption.
  - destruct (addFileToBlock fs b f) as [b'|e] eqn:Ea; [|exact HP].
    destruct (add _ _ _ _ _ HJ Hf (or_introl Hle) Ea) as [HJ'' HPb'].
    destruct rest as [|f' rest'].
    + destruct (writeBlock fs b' n) as [bytes' [e|]]; cbn;
        (apply Forall_app; split; [exact HP|]; constructor; [apply HPb'|constructor]).
    + apply IH; assumption.
Qed.

End LoopRule.

Lemma addFileToBlock_inl fs b f b' :
  addFileToBlock fs b f = inl b' ->
  exists file,
    fs !! FileInfo.Path f = Some file /\
    b' = Block.mk (Block.ID b)
           (Block.Files b ++
            [FileMetadata.mk (FileInfo.Path f) (FileInfo.Size f) (FileInfo.ModTime f)
               (SHA256.Sum256 (data file)) (Block.Size b) (Block.ID b) (FileInfo.Mode f)])
           (Int.int64 (Block.Size b + FileInfo.Size f)).
Proof.
  unfold addFileToBlock. destruct (fs !! FileInfo.Path f) as [file|]; [|discriminate].
  intros [= <-]. exists file. split; reflexivity.
Qed.

Lemma packFiles_wellFormed opts fs files :
  2 * BlockSize opts <= Int.max_int64 ->
  Forall (fun f => 0 <= FileInfo.Size f <= BlockSize opts) files ->
  Forall (wellFormed (BlockSize opts)) (packFiles opts fs files).1.
Proof.
  intros Hcap HG. unfold packFiles.
  apply packFiles_loop_rule with
    (G := fun f => 0 <= FileInfo.Size f <= BlockSize opts)
    (J := fun n b s =>
            Block.ID b = n /\ Block.Size b = s /\ s = sumSizes (Block.Files b) /\
            contiguous 0 (Block.Files b) /\ 0 <= s /\ (Block.Files b <> [] -> s <= BlockSize opts)).
  - intros n b s f (Hid & Hsz & Hsum & Hc & H0 & Hle) Hf Hgt.
    assert (Hne : Block.Files b <> []).
    { intros E. rewrite E in Hsum. change (sumSizes []) with 0 in Hsum. subst s.
      rewrite int64_id in Hgt; unfold Int.is_int64, Int.min_int64, Int.max_int64 in *; lia. }
    split.
    + unfold wellFormed; cbn. split; [symmetry; exact Hid|].
      split; [exact Hne|]. split; [congruence|]. split; [|exact Hc].
      rewrite <- Hsum. apply Hle, Hne.
    + cbn. repeat split; try reflexivity; try lia.
  - intros n b s f b' (Hid & Hsz & Hsum & Hc & H0 & Hle) Hf Hcase Ha.
    apply addFileToBlock_inl in Ha as (file & _ & ->).
    assert (Hs : s <= BlockSize opts).
    { destruct (Block.Files b) eqn:E; [rewrite Hsum; change (sumSizes []) with 0; lia|].
      apply Hle. discriminate. }
    assert (Hnw : Int.int64 (s + FileInfo.Size f) = s + FileInfo.Size f).
    { apply int64_id. unfold Int.is_int64, Int.min_int64, Int.max_int64 in *. lia. }
    assert (Hfit : s + FileInfo.Size f <= BlockSize opts).
    { destruct Hcase as [Hle'|[-> _]]; lia. }
    rewrite Hsz, Hnw.
    assert (Hc' : contiguous 0 (Block.Files b ++
              [FileMetadata.mk (FileInfo.Path f) (FileInfo.Size f) (FileInfo.ModTime f)
                 (SHA256.Sum256 (data file)) s (Block.ID b) (FileInfo.Mode f)])).
    { apply contiguous_app. cbn. repeat split; [assumption|lia|lia]. }
    split.
    + cbn [Block.ID Block.Files Block.Size]. rewrite sumSizes_app.
      cbn [FileMetadata.Size]. repeat split; try assumption; try lia.
    + unfold wellFormed.
      cbn [w_num w_block Block.ID Block.Files Block.Size]. rewrite sumSizes_app.
      cbn [FileMetadata.Size].
      repeat split; try assumption; try lia.
      intros E. apply app_eq_nil in E as [_ E]. discriminate.
  - exact HG.
  - cbn. repeat split; try reflexivity; try lia. intros []; reflexivity.
  - constructor.
Qed.

Lemma chained_offsetContiguity files : chained 0 files -> offsetContiguity add64 files.
Proof.
  intros H. split.
  - intros m Hm. destruct files as [|x l]; [discriminate|].
    injection Hm as ->. apply H.
  - generalize dependent 0. induction files as [|x l IH]; intros start Hc i m m' Hm Hm'.
    + discriminate.
    + destruct Hc as [Hx Hc]. destruct i as [|i].
      * injection Hm as ->. destruct l as [|y l]; [discriminate|].
        injection Hm' as ->. destruct Hc as [Hy _]. rewrite Hy, Hx. reflexivity.
      * apply (IH _ Hc i); assumption.
Qed.

Lemma contiguous_offsetContiguity files :
  contiguous 0 files -> offsetContiguity Z.add files /\ offsetsIncrease files.
Proof.
  intros H. split; [split|].
  - intros m Hm. destruct files as [|x l]; [discriminate|].
    injection Hm as ->. apply H.
  - generalize dependent 0. induction files as [|x l IH]; intros start Hc i m m' Hm Hm'.
    + discriminate.
    + destruct Hc as (Hx & _ & Hc). destruct i as [|i].
      * injection Hm as ->. destruct l as [|y l]; [discriminate|].
        injection Hm' as ->. destruct Hc as [Hy _]. rewrite Hy, Hx. reflexivity.
      * apply (IH _ Hc i); assumption.
  - generalize dependent 0. induction files as [|x l IH]; intros start Hc i m m' Hm Hm'.
    + discriminate.
    + destruct Hc as (Hx & Hle & Hc). destruct i as [|i].
      * injection Hm as ->. destruct l as [|y l]; [discriminate|].
        injection Hm' as ->. destruct Hc as [Hy _]. rewrite Hy, Hx. lia.
      * apply (IH _ Hc i); assumption.
Qed.

Lemma packFiles_chained opts fs files :
  Forall (fun w => chained 0 (Block.Files (w_block w))) (packFiles opts fs files).1.
Proof.
  unfold packFiles.
  apply packFiles_loop_rule with
    (G := fun _ => True)
    (J := fun n b s => Block.Size b = runningTotal 0 (Block.Files b) /\
                       chained 0 (Block.Files b)).
  - intros n b s f [Hsz Hc] _ _. split; [exact Hc|]. cbn. split; [reflexivity|exact I].
  - intros n b s f b' [Hsz Hc] _ _ Ha.
    apply addFileToBlock_inl in Ha as (file & _ & ->).
    cbn [Block.ID Block.Files Block.Size w_block].
    assert (chained 0 (Block.Files b ++
              [FileMetadata.mk (FileInfo.Path f) (FileInfo.Size f) (FileInfo.ModTime f)
                 (SHA256.Sum256 (data file)) (Block.Size b) (Block.ID b) (FileInfo.Mode f)])).
    { apply chained_app. split; [exact Hc|exact Hsz]. }
    split; [split|]; try assumption.
    rewrite runningTotal_app, <- Hsz. reflexivity.
  - apply Forall_forall. intros; exact I.
  - cbn. split; [reflexivity|exact I].
  - constructor.
Qed.

(** No block file is empty when every file fits in a block. *)
Lemma packFiles_nonempty opts fs files :
  Forall (fun f => Int.is_int64 (FileInfo.Size f) /\ FileInfo.Size f <= BlockSize opts) files ->
  Forall (fun w => Block.Files (w_block w) <> []) (packFiles opts fs files).1.
Proof.
  intros HG. unfold packFiles.
  apply packFiles_loop_rule with
    (G := fun f => Int.is_int64 (FileInfo.Size f) /\ FileInfo.Size f <= BlockSize opts)
    (J := fun n b s => Block.Files b = [] -> s = 0).
  - intros n b s f HJ [Hty Hf] Hgt. split; [|intros _; reflexivity].
    cbn. intros E. rewrite (HJ E) in Hgt. rewrite Z.add_0_l, int64_id in Hgt by exact Hty. lia.
  - intros n b s f b' _ _ _ Ha.
    apply addFileToBlock_inl in Ha as (file & _ & ->).
    cbn [Block.Files w_block].
    split; intros E; apply app_eq_nil in E as [_ E]; discriminate.
  - exact HG.
  - intros _. reflexivity.
  - constructor.
Qed.

(** ** Writing a block *)

Lemma writeContents_readable fs files :
  Forall (fun m => is_Some (fs !! FileMetadata.Path m)) files ->
  writeContents fs files = (payload fs files, None).
Proof.
  induction 1 as [|m files [file Hfile] _ IH]; [reflexivity|].
  cbn [writeContents]. unfold payload in *. cbn [map concat].
  rewrite Hfile, IH. reflexivity.
Qed.

Lemma writeBlock_readable fs block blockNum :
  Forall (fun m => is_Some (fs !! FileMetadata.Path m)) (Block.Files block) ->
  writeBlock fs block blockNum =
    (blockBody fs block blockNum ++ SHA256.Sum256 (blockBody fs block blockNum), None).
Proof.
  intros H. unfold writeBlock. rewrite (writeContents_readable _ _ H). reflexivity.
Qed.

Lemma recorded_readable fs files :
  Forall (recorded fs) files -> Forall (fun m => is_Some (fs !! FileMetadata.Path m)) files.
Proof.
  intros H. eapply Forall_impl; [exact H|].
  intros m (file & Hfile & _). exists file. exact Hfile.
Qed.

Lemma writeBlock_recorded fs block blockNum :
  Forall (recorded fs) (Block.Files block) ->
  writeBlock fs block blockNum =
    (blockBody fs block blockNum ++ SHA256.Sum256 (blockBody fs block blockNum), None).
Proof. intros H. apply writeBlock_readable, recorded_readable, H. Qed.

Lemma packFiles_faithful opts fs files :
  Forall (faithful fs) (packFiles opts fs files).1.
Proof.
  unfold packFiles.
  apply packFiles_loop_rule with
    (G := fun _ => True) (J := fun n b s => Forall (recorded fs) (Block.Files b)).
  - intros n b s f HJ _ _. split; [split; [exact HJ|reflexivity]|constructor].
  - intros n b s f b' HJ _ _ Ha.
    apply addFileToBlock_inl in Ha as (file & Hfile & ->).
    assert (Forall (recorded fs) (Block.Files b ++
              [FileMetadata.mk (FileInfo.Path f) (FileInfo.Size f) (FileInfo.ModTime f)
                 (SHA256.Sum256 (data file)) (Block.Size b) (Block.ID b) (FileInfo.Mode f)])).
    { apply Forall_app. split; [exact HJ|]. constructor; [|constructor].
      exists file. split; [exact Hfile|reflexivity]. }
    split; [assumption|split; [assumption|reflexivity]].
  - apply Forall_forall. intros; exact I.
  - constructor.
  - constructor.
Qed.

Lemma recordsOf_app out w : recordsOf (out ++ [w]) = recordsOf out ++ Block.Files (w_block w).
Proof.
  unfold recordsOf. rewrite map_app, concat_app. cbn. rewrite app_nil_r. reflexivity.
Qed.

(** When every file can be opened, the loop ends without error and every
    file has its record in a written block, in the order of the input. *)
Lemma packFiles_loop_complete opts fs files : forall n b s out,
  Forall (fun f => is_Some (fs !! FileInfo.Path f)) files ->
  Forall (recorded fs) (Block.Files b) ->
  files <> [] \/ Block.Files b = [] ->
  (packFiles_loop opts fs files n b s out).2 = None /\
  map described (recordsOf (packFiles_loop opts fs files n b s out).1) =
    map described (recordsOf out) ++ map described (Block.Files b) ++ map descriptor files.
Proof.
  induction files as [|f rest IH]; intros n b s out Hr Hb Hne.
  - destruct Hne as [Hne|Hne]; [contradiction|]. rewrite Hne. cbn.
    split; [reflexivity|]. rewrite app_nil_r. reflexivity.
  - apply Forall_cons in Hr as [[file Hfile] Hr].
    assert (Hadd : forall b0, Forall (recorded fs) (Block.Files b0) ->
              exists b', addFileToBlock fs b0 f = inl b' /\
                Forall (recorded fs) (Block.Files b') /\
                map described (Block.Files b') = map described (Block.Files b0) ++ [descriptor f]).
    { intros b0 Hb0. unfold addFileToBlock. rewrite Hfile. eexists. split; [reflexivity|].
      cbn [Block.Files]. split.
      - apply Forall_app. split; [exact Hb0|]. constructor; [|constructor].
        exists file. split; [exact Hfile|reflexivity].
      - rewrite map_app. reflexivity. }
    cbn [packFiles_loop].
    destruct (Int.int64 (s + FileInfo.Size f) >? BlockSize opts).
    + rewrite (writeBlock_recorded _ _ _ Hb).
      cbv beta iota zeta.
      destruct (Hadd (newBlock (Int.int32 (n + 1))) ltac:(constructor)) as (b' & Ea & Hb' & Hd').
      rewrite Ea. cbv beta iota zeta.
      destruct rest as [|f' rest'].
      * rewrite (writeBlock_recorded _ _ _ Hb'). cbn [fst snd].
        split; [reflexivity|]. rewrite !recordsOf_app, !map_app. cbn [w_block].
        rewrite Hd'. cbn. rewrite <- ?app_assoc. reflexivity.
      * assert (Hne' : f' :: rest' <> []) by discriminate.
        pose proof (IH (Int.int32 (n + 1)) b' (Int.int64 (0 + FileInfo.Size f))
                      (out ++ [mkWritten n b
                                 (blockBody fs b n ++ SHA256.Sum256 (blockBody fs b n))])
                      Hr Hb' (or_introl Hne')) as [H1 H2].
        split; [exact H1|]. rewrite H2, recordsOf_app, map_app, Hd'. cbn.
        rewrite <- ?app_assoc. reflexivity.
    + destruct (Hadd b Hb) as (b' & Ea & Hb' & Hd').
      rewrite Ea. cbv beta iota zeta.
      destruct rest as [|f' rest'].
      * rewrite (writeBlock_recorded _ _ _ Hb'). cbn [fst snd].
        split; [reflexivity|]. rewrite recordsOf_app, map_app. cbn [w_block].
        rewrite Hd'. cbn. rewrite <- ?app_assoc. reflexivity.
      * assert (Hne' : f' :: rest' <> []) by discriminate.
        pose proof (IH n b' (Int.int64 (s + FileInfo.Size f)) out
                      Hr Hb' (or_introl Hne')) as [H1 H2].
        split; [exact H1|]. rewrite H2, Hd'. cbn.
        rewrite <- ?app_assoc. reflexivity.
Qed.

Lemma packFiles_complete opts fs files :
  Forall (fun f => is_Some (fs !! FileInfo.Path f)) files ->
  (packFiles opts fs files).2 = None /\
  map described (recordsOf (packFiles opts fs files).1) = map descriptor files.
Proof.
  intros Hr. unfold packFiles.
  destruct (packFiles_loop_complete opts fs files 1 (newBlock 1) 0 [] Hr
              ltac:(constructor) (or_intror eq_refl)) as [H1 H2].
  split; [exact H1|exact H2].
Qed.

(** ** Properties of the blocks *)

(** C4. Capacity invariant: when no descriptor's size exceeds the capacity,
    the sizes of the files of every block the packer produces sum to at
    most the capacity. Sizes are file sizes, so not negative, and the
    capacity is small enough for the [int64] sum of two sizes not to wrap;
    the [Size] field of the block is that sum. *)
Theorem capacity_invariant opts fs files :
  2 * BlockSize opts <= Int.max_int64 ->
  Forall (fun f => 0 <= FileInfo.Size f <= BlockSize opts) files ->
  Forall (fun w => sumSizes (Block.Files (w_block w)) <= BlockSize opts /\
                   Block.Size (w_block w) = sumSizes (Block.Files (w_block w)))
    (packFiles opts fs files).1.
Proof.
  intros Hcap HG.
  eapply Forall_impl; [apply packFiles_wellFormed; assumption|].
  intros w (_ & _ & Hsz & Hsum & _). split; assumption.
Qed.

Lemma capacity_invariant_witness :
  Forall (fun w => sumSizes (Block.Files (w_block w)) <= 10 /\
                   Block.Size (w_block w) = sumSizes (Block.Files (w_block w)))
    (packFiles Example.opts Example.fs (rev Example.files)).1.
Proof.
  apply (capacity_invariant Example.opts Example.fs (rev Example.files)).
  - vm_compute. discriminate.
  - repeat constructor; vm_compute; discriminate.
Defined.

(** C6. Offset contiguity: in every block the packer produces the first
    record has offset 0 and every record starts where the one before it
    ends, [record[i+1].offset == record[i].offset + record[i].size] with
    Go's [+]. When the sizes are file sizes within the capacity the sum is
    the sum of the integers, and the offsets increase without overlap. *)
Theorem offset_contiguity opts fs files :
  Forall (fun w => offsetContiguity add64 (Block.Files (w_block w)))
    (packFiles opts fs files).1 /\
  (2 * BlockSize opts <= Int.max_int64 ->
   Forall (fun f => 0 <= FileInfo.Size f <= BlockSize opts) files ->
   Forall (fun w => offsetContiguity Z.add (Block.Files (w_block w)) /\
                    offsetsIncrease (Block.Files (w_block w)))
     (packFiles opts fs files).1).
Proof.
  split.
  - eapply Forall_impl; [apply packFiles_chained|].
    intros w. apply chained_offsetContiguity.
  - intros Hcap HG.
    eapply Forall_impl; [apply packFiles_wellFormed; assumption|].
    intros w (_ & _ & _ & _ & Hc). apply contiguous_offsetContiguity, Hc.
Qed.

Lemma offset_contiguity_witness :
  Forall (fun w => offsetContiguity Z.add (Block.Files (w_block w)) /\
                   offsetsIncrease (Block.Files (w_block w)))
    (packFiles Example.opts Example.fs (rev Example.files)).1.
Proof.
  apply (offset_contiguity Example.opts Example.fs (rev Example.files)).
  - vm_compute. discriminate.
  - repeat constructor; vm_compute; discriminate.
Defined.

(** C10. For a non-empty sequence of descriptors whose sizes are at most
    the capacity, every block file the packer writes has at least one
    record; and when the files can be read the packer ends without error,
    having written at least one block file, with a record for every
    descriptor in the order of the input: the last, partly filled block is
    written too. *)
Theorem no_empty_block opts fs files :
  files <> [] ->
  Forall (fun f => Int.is_int64 (FileInfo.Size f) /\ FileInfo.Size f <= BlockSize opts) files ->
  Forall (fun w => Block.Files (w_block w) <> []) (packFiles opts fs files).1 /\
  (Forall (fun f => is_Some (fs !! FileInfo.Path f)) files ->
   (packFiles opts fs files).2 = None /\
   (packFiles opts fs files).1 <> [] /\
   map described (recordsOf (packFiles opts fs files).1) = map descriptor files).
Proof.
  intros Hne HG. split; [apply packFiles_nonempty, HG|].
  intros Hr. destruct (packFiles_complete opts fs files Hr) as [H1 H2].
  split; [exact H1|]. split; [|exact H2].
  intros E. rewrite E in H2. destruct files; [contradiction|discriminate].
Qed.

Lemma no_empty_block_witness :
  Forall (fun w => Block.Files (w_block w) <> [])
    (packFiles Example.opts Example.fs (rev Example.files)).1 /\
  (packFiles Example.opts Example.fs (rev Example.files)).2 = None /\
  (packFiles Example.opts Example.fs (rev Example.files)).1 <> [] /\
  map described (recordsOf (packFiles Example.opts Example.fs (rev Example.files)).1) =
    map descriptor (rev Example.files).
Proof.
  destruct (no_empty_block Example.opts Example.fs (rev Example.files)) as [H1 H2].
  - discriminate.
  - repeat constructor; vm_compute; try discriminate; intros [=].
  - split; [exact H1|]. apply H2.
    repeat constructor; vm_compute; eexists; reflexivity.
Defined.

(** A run: capacity 10, sizes 6, 5, 4 and 0. *)
Example packFiles_example :
  map (fun w => (w_num w, sizes (Block.Files (w_block w))))
    (packFiles Example.opts Example.fs (rev Example.files)).1 = [(1, [6]); (2, [5; 4; 0])].
Proof. vm_compute. reflexivity. Qed.

(** ** The placement the loop computes *)

Lemma packFiles_loop_placement opts fs files : forall n b s out cur,
  Forall (fun f => is_Some (fs !! FileInfo.Path f)) files ->
  Forall (recorded fs) (Block.Files b) ->
  map described (Block.Files b) = map descriptor cur ->
  Block.Size b = s ->
  map placed (packFiles_loop opts fs files n b s out).1 =
    map placed out ++ map placedOf (placement (BlockSize opts) files n cur s).
Proof.
  induction files as [|f rest IH]; intros n b s out cur Hr Hb Hcur Hs.
  - cbn. rewrite app_nil_r. reflexivity.
  - apply Forall_cons in Hr as [[file Hfile] Hr].
    assert (Hadd : forall b0 cur0, Forall (recorded fs) (Block.Files b0) ->
              map described (Block.Files b0) = map descriptor cur0 ->
              exists b', addFileToBlock fs b0 f = inl b' /\
                Forall (recorded fs) (Block.Files b') /\
                map described (Block.Files b') = map descriptor (cur0 ++ [f]) /\
                Block.Size b' = Int.int64 (Block.Size b0 + FileInfo.Size f)).
    { intros b0 cur0 Hb0 Hc0. unfold addFileToBlock. rewrite Hfile. eexists.
      split; [reflexivity|]. cbn [Block.Files Block.Size]. split; [|split; [|reflexivity]].
      - apply Forall_app. split; [exact Hb0|]. constructor; [|constructor].
        exists file. split; [exact Hfile|reflexivity].
      - rewrite !map_app, Hc0. reflexivity. }
    cbn [packFiles_loop placement].
    destruct (Int.int64 (s + FileInfo.Size f) >? BlockSize opts).
    + rewrite (writeBlock_recorded _ _ _ Hb). cbv beta iota zeta.
      destruct (Hadd (newBlock (Int.int32 (n + 1))) [] ltac:(constructor) eq_refl)
        as (b' & Ea & Hb' & Hd' & Hs').
      rewrite Ea. cbv beta iota zeta.
      destruct rest as [|f' rest'].
      * rewrite (writeBlock_recorded _ _ _ Hb'). cbn [fst].
        rewrite !map_app. cbn [map]. unfold placed at 2 3, placedOf.
        cbn [w_num w_block fst snd]. rewrite Hd', Hs', Hcur, Hs. cbn [newBlock Block.Size].
        rewrite <- app_assoc. reflexivity.
      * rewrite (IH _ _ _ _ ([] ++ [f]) Hr Hb' Hd' Hs').
        rewrite !map_app. cbn [map]. unfold placed at 2, placedOf at 1.
        cbn [w_num w_block fst snd]. rewrite Hcur, Hs.
        rewrite <- app_assoc. reflexivity.
    + destruct (Hadd b cur Hb Hcur) as (b' & Ea & Hb' & Hd' & Hs').
      rewrite Ea. cbv beta iota zeta. rewrite Hs in Hs'.
      destruct rest as [|f' rest'].
      * rewrite (writeBlock_recorded _ _ _ Hb'). cbn [fst].
        rewrite !map_app. cbn [map]. unfold placed at 2, placedOf.
        cbn [w_num w_block fst snd]. rewrite Hd', Hs'. reflexivity.
      * rewrite (IH _ _ _ _ (cur ++ [f]) Hr Hb' Hd' Hs'). reflexivity.
Qed.

Lemma packFiles_placement opts fs files :
  Forall (fun f => is_Some (fs !! FileInfo.Path f)) files ->
  map placed (packFiles opts fs files).1 =
    map placedOf (placement (BlockSize opts) files 1 [] 0).
Proof.
  intros Hr. unfold packFiles.
  apply (packFiles_loop_placement opts fs files 1 (newBlock 1) 0 [] []); try assumption;
    try reflexivity. constructor.
Qed.

(** ** Sorting *)

Lemma insertStable_perm {A} (less : A -> A -> bool) x l :
  Permutation (insertStable less x l) (x :: l).
Proof.
  induction l as [|y l IH]; cbn; [reflexivity|].
  destruct (less y x); [|reflexivity].
  rewrite IH. apply perm_swap.
Qed.

Lemma stableSort_perm {A} (less : A -> A -> bool) l : Permutation (stableSort less l) l.
Proof.
  induction l as [|x l IH]; cbn; [reflexivity|].
  fold (stableSort less l). rewrite insertStable_perm, IH. reflexivity.
Qed.

Lemma insertStable_sorted x l :
  StronglySorted (fun x y => bySizeDesc y x = false) l ->
  StronglySorted (fun x y => bySizeDesc y x = false) (insertStable bySizeDesc x l).
Proof.
  induction 1 as [|y l Hs IH Hy]; cbn.
  - repeat constructor.
  - destruct (bySizeDesc y x) eqn:E.
    + constructor; [exact IH|].
      rewrite insertStable_perm. constructor; [|exact Hy].
      unfold bySizeDesc in *. lia.
    + constructor; [constructor; assumption|].
      constructor; [exact E|].
      eapply Forall_impl; [exact Hy|]. cbn. intros z Hz. unfold bySizeDesc in *. lia.
Qed.

Lemma stableSort_sorts : sortsBySizeDesc (@stableSort FileInfo.t).
Proof.
  intros l. split; [apply stableSort_perm|].
  induction l as [|x l IH]; cbn; [constructor|].
  apply insertStable_sorted, IH.
Qed.

(** A sorted list is the only sorted permutation of itself when the order
    tells its elements apart. *)
Lemma StronglySorted_perm_eq {A} (R : A -> A -> Prop) (l1 : list A) : forall l2,
  (forall x y, In x l1 -> In y l1 -> R x y -> R y x -> x = y) ->
  StronglySorted R l1 -> StronglySorted R l2 -> Permutation l1 l2 -> l1 = l2.
Proof.
  induction l1 as [|x l1 IH]; intros l2 Hanti H1 H2 Hp.
  - apply Permutation_nil in Hp. congruence.
  - destruct l2 as [|y l2]; [apply Permutation_sym, Permutation_nil in Hp; discriminate|].
    apply StronglySorted_inv in H1 as [H1 Hx]. apply StronglySorted_inv in H2 as [H2 Hy].
    assert (Exy : x = y).
    { assert (Hin : In x (y :: l2)) by (eapply Permutation_in; [exact Hp|left; reflexivity]).
      assert (Hin' : In y (x :: l1))
        by (eapply Permutation_in; [symmetry; exact Hp|left; reflexivity]).
      destruct Hin as [->|Hin]; [reflexivity|].
      destruct Hin' as [->|Hin']; [reflexivity|].
      apply Hanti; [left; reflexivity|right; exact Hin'| |].
      - rewrite List.Forall_forall in Hx. apply Hx, Hin'.
      - rewrite List.Forall_forall in Hy. apply Hy, Hin. }
    subst y. f_equal. apply IH; try assumption.
    + intros a b Ha Hb. apply Hanti; right; assumption.
    + eapply Permutation_cons_inv, Hp.
Qed.

(** ** The scenario of the specification *)

(** C7. Capacity 60MB and files of 40MB, 30MB, 25MB and 5MB, discovered in
    any order: the sort hands them to the packer as 40, 30, 25, 5, and the
    packer writes exactly two blocks, block 1 with the 40MB file and block 2
    with the 30MB, 25MB and 5MB files, 60MB in all. *)
Theorem scenario_60MB sort_Slice opts fs f40 f30 f25 f5 files :
  sortsBySizeDesc sort_Slice ->
  BlockSize opts = 60 * MB ->
  FileInfo.Size f40 = 40 * MB -> FileInfo.Size f30 = 30 * MB ->
  FileInfo.Size f25 = 25 * MB -> FileInfo.Size f5 = 5 * MB ->
  Permutation files [f40; f30; f25; f5] ->
  Forall (fun f => is_Some (fs !! FileInfo.Path f)) [f40; f30; f25; f5] ->
  sort_Slice bySizeDesc files = [f40; f30; f25; f5] /\
  (packSorted sort_Slice opts fs files).2 = None /\
  map placed (packSorted sort_Slice opts fs files).1 =
    [ (1, [descriptor f40], 40 * MB);
      (2, [descriptor f30; descriptor f25; descriptor f5], 60 * MB) ].
Proof.
  intros Hsort Hcap H40 H30 H25 H5 Hperm Hr.
  assert (Hs : sort_Slice bySizeDesc files = [f40; f30; f25; f5]).
  { destruct (Hsort files) as [Hp Hso].
    apply StronglySorted_perm_eq with (R := fun x y => bySizeDesc y x = false).
    - assert (Hin : forall x, In x (sort_Slice bySizeDesc files) ->
                x = f40 \/ x = f30 \/ x = f25 \/ x = f5).
      { intros x Hx. eapply Permutation_in in Hx; [|rewrite Hp; exact Hperm].
        destruct Hx as [<-|[<-|[<-|[<-|[]]]]]; auto. }
      intros x y Hx Hy. apply Hin in Hx, Hy. unfold bySizeDesc, MB in *.
      destruct Hx as [-> | [-> | [-> | ->]]]; destruct Hy as [-> | [-> | [-> | ->]]];
        intros; try reflexivity; exfalso; lia.
    - exact Hso.
    - unfold bySizeDesc, MB in *. repeat constructor; lia.
    - rewrite Hp. exact Hperm. }
  split; [exact Hs|]. unfold packSorted. rewrite Hs.
  split; [apply packFiles_complete, Hr|].
  rewrite (packFiles_placement _ _ _ Hr), Hcap.
  destruct f40 as [p40 s40 t40 m40 d40], f30 as [p30 s30 t30 m30 d30],
           f25 as [p25 s25 t25 m25 d25], f5 as [p5 s5 t5 m5 d5].
  cbn in H40, H30, H25, H5. subst. vm_compute. reflexivity.
Qed.

Lemma scenario_60MB_witness :
  let opts := mkOptions false 32768 (60 * MB) in
  let f40 := Example.info "src/a.txt" (40 * MB) in
  let f30 := Example.info "src/b.txt" (30 * MB) in
  let f25 := Example.info "src/c.txt" (25 * MB) in
  let f5 := Example.info "src/d.txt" (5 * MB) in
  let files := [f5; f30; f40; f25] in
  stableSort bySizeDesc files = [f40; f30; f25; f5] /\
  (packSorted stableSort opts Example.fs files).2 = None /\
  map placed (packSorted stableSort opts Example.fs files).1 =
    [ (1, [descriptor f40], 40 * MB);
      (2, [descriptor f30; descriptor f25; descriptor f5], 60 * MB) ].
Proof.
  intros opts f40 f30 f25 f5 files.
  apply (scenario_60MB stableSort opts Example.fs f40 f30 f25 f5 files).
  - exact stableSort_sorts.
  - reflexivity.
  - reflexivity.
  - reflexivity.
  - reflexivity.
  - reflexivity.
  - subst files. rewrite (perm_swap f30 f5), (perm_swap f40 f5 [f25]).
    rewrite (perm_swap f25 f5 []). rewrite (perm_swap f40 f30). reflexivity.
  - repeat constructor; vm_compute; eexists; reflexivity.
Defined.

(** The scenario run with the sort of the library, files discovered
    smallest first. *)
Example scenario_60MB_run :
  map placed
    (packSorted GoSort.Slice (mkOptions false 32768 (60 * MB)) Example.fs
       [ Example.info "src/d.txt" (5 * MB); Example.info "src/c.txt" (25 * MB);
         Example.info "src/b.txt" (30 * MB); Example.info "src/a.txt" (40 * MB) ]).1 =
    [ (1, [descriptor (Example.info "src/a.txt" (40 * MB))], 40 * MB);
      (2, [ descriptor (Example.info "src/b.txt" (30 * MB));
            descriptor (Example.info "src/c.txt" (25 * MB));
            descriptor (Example.info "src/d.txt" (5 * MB)) ], 60 * MB) ].
Proof. vm_compute. reflexivity. Qed.

(** ** Validation *)

Lemma bytesEqual_eq a b : bytesEqual a b = true <-> a = b.
Proof.
  revert b. induction a as [|x a IH]; intros [|y b]; cbn; try (split; [discriminate|discriminate]).
  - split; reflexivity.
  - destruct (Byte.eqb x y) eqn:E.
    + apply Byte.byte_dec_bl in E. subst y. rewrite IH. split; [intros ->; reflexivity|].
      intros [= ->]. reflexivity.
    + split; [discriminate|]. intros [= Hxy _].
      apply Byte.byte_dec_lb in Hxy. congruence.
Qed.

Lemma ChecksumsEqual_refl a : ChecksumsEqual a a = true.
Proof.
  unfold ChecksumsEqual. rewrite Nat.eqb_refl. apply bytesEqual_eq. reflexivity.
Qed.

Lemma length_blockBody fs block blockNum : (8 <= length (blockBody fs block blockNum))%nat.
Proof.
  unfold blockBody. rewrite !length_app, !length_le_bytes. lia.
Qed.

(** A stream of at least 8 bytes followed by its digest passes
    [ValidateBlock]. *)
Lemma ValidateBlock_digest body :
  (4 <= length body)%nat -> ValidateBlock (body ++ SHA256.Sum256 body) = None.
Proof.
  intros Hlen. unfold ValidateBlock, binary_Read.
  destruct (body ++ SHA256.Sum256 body) as [|x l] eqn:E.
  { apply (f_equal (@length byte)) in E. rewrite length_app in E. cbn in E. lia. }
  rewrite <- E. clear x l E.
  assert (Hl : length (body ++ SHA256.Sum256 body) = (length body + 32)%nat).
  { rewrite length_app, length_Sum256. reflexivity. }
  rewrite Hl.
  destruct (Nat.ltb_spec (length body + 32) 4); [lia|].
  destruct (Nat.ltb_spec (length body + 32) 32); [lia|].
  replace (length body + 32 - 32)%nat with (length body + 0)%nat by lia.
  rewrite skipn_app, firstn_app, Nat.add_0_r, skipn_all, firstn_all.
  replace (length body - length body)%nat with O by lia.
  cbn [skipn firstn app]. rewrite app_nil_r, ChecksumsEqual_refl. reflexivity.
Qed.

(** C9. The footer [writeBlock] writes is the SHA-256 digest of all the
    bytes before it, and [ValidateBlock], which compares the last 32 bytes
    with the digest of the bytes before them, returns no error on the file
    [writeBlock] wrote. *)
Theorem encode_then_validate fs block blockNum :
  Forall (fun m => is_Some (fs !! FileMetadata.Path m)) (Block.Files block) ->
  exists body,
    writeBlock fs block blockNum = (body ++ SHA256.Sum256 body, None) /\
    body = blockBody fs block blockNum /\
    ValidateBlock (writeBlock fs block blockNum).1 = None.
Proof.
  intros Hr. exists (blockBody fs block blockNum).
  rewrite (writeBlock_readable _ _ _ Hr). split; [reflexivity|]. split; [reflexivity|].
  apply ValidateBlock_digest. pose proof (length_blockBody fs block blockNum). lia.
Qed.

Lemma encode_then_validate_witness :
  let block := Block.mk 1 [FileMetadata.mk "src/b.txt" 5 (mkTime 1700000100 0)
                             (SHA256.Sum256 (Example.bytes "bravo")) 0 1 384] 5 in
  exists body,
    writeBlock Example.fs block 1 = (body ++ SHA256.Sum256 body, None) /\
    body = blockBody Example.fs block 1 /\
    ValidateBlock (writeBlock Example.fs block 1).1 = None.
Proof.
  intros block. apply (encode_then_validate Example.fs block 1).
  repeat constructor. vm_compute. eexists. reflexivity.
Defined.

(** The same by running the code on a block of one file. *)
Example ValidateBlock_example :
  ValidateBlock
    (writeBlock Example.fs
       (Block.mk 1 [FileMetadata.mk "src/b.txt" 5 (mkTime 1700000100 0)
                      (SHA256.Sum256 (Example.bytes "bravo")) 0 1 384] 5) 1).1 = None.
Proof. vm_compute. reflexivity. Qed.

(** ** Decoding what was encoded *)

Lemma binary_Read_app n bs rest :
  (0 < n)%nat -> length bs = n -> binary_Read n (bs ++ rest) = inl (le_value bs, rest).
Proof.
  intros Hn Hlen. unfold binary_Read.
  destruct (bs ++ rest) as [|x l] eqn:E.
  { apply (f_equal (@length byte)) in E. rewrite length_app in E. cbn in E. lia. }
  rewrite <- E. clear x l E.
  destruct (Nat.ltb_spec (length (bs ++ rest)) n) as [Hlt|_].
  { rewrite length_app in Hlt. lia. }
  rewrite <- Hlen, firstn_app, firstn_all, skipn_app, skipn_all, Nat.sub_diag.
  cbn. rewrite app_nil_r. reflexivity.
Qed.

Lemma file_Read_app n bs rest :
  length bs = n -> file_Read n (bs ++ rest) = inl (bs, rest).
Proof.
  intros Hlen. unfold file_Read. destruct n as [|n'].
  - destruct bs; [reflexivity|discriminate].
  - destruct (bs ++ rest) as [|x l] eqn:E.
    { apply (f_equal (@length byte)) in E. rewrite length_app in E. cbn in E. lia. }
    rewrite <- E. clear x l E.
    rewrite <- Hlen, firstn_app, firstn_all, skipn_app, skipn_all, !Nat.sub_diag.
    cbn. rewrite !app_nil_r, Nat.sub_diag. cbn. rewrite app_nil_r. reflexivity.
Qed.

Lemma result_bind_Ok {A B} (a : A) (k : A -> result B) : (Ok a ≫= k) = k a.
Proof. reflexivity. Qed.

Lemma readMetadata_writeMetadata m rest :
  wfMetadata m -> readMetadata (writeMetadata m ++ rest) = Ok (decoded m, rest).
Proof.
  intros (Hpath & Hsize & Htime & Hoff & Hmode & Hsum).
  unfold readMetadata, writeMetadata. rewrite <- !app_assoc.
  rewrite binary_Read_app by (try apply length_le_bytes; lia).
  cbn [lift]. rewrite result_bind_Ok.
  rewrite read_int32_le_bytes
    by (unfold Int.is_int32, Int.min_int32, Int.max_int32 in *; lia).
  destruct (Z.ltb_spec (Z.of_nat (length (list_byte_of_string (FileMetadata.Path m)))) 0);
    [lia|].
  rewrite Nat2Z.id, file_Read_app by reflexivity.
  cbn [lift]. rewrite result_bind_Ok.
  rewrite binary_Read_app by (try apply length_le_bytes; lia).
  cbn [lift]. rewrite result_bind_Ok.
  rewrite binary_Read_app by (try apply length_le_bytes; lia).
  cbn [lift]. rewrite result_bind_Ok.
  rewrite binary_Read_app by (try apply length_le_bytes; lia).
  cbn [lift]. rewrite result_bind_Ok.
  rewrite binary_Read_app by (try apply length_le_bytes; lia).
  cbn [lift]. rewrite result_bind_Ok.
  rewrite file_Read_app by exact Hsum.
  cbn [lift]. rewrite result_bind_Ok.
  rewrite !read_int64_le_bytes, read_uint32_le_bytes, string_of_list_byte_of_string
    by assumption.
  reflexivity.
Qed.

Lemma readRecords_encoded files : forall i rest,
  Forall wfMetadata files ->
  readRecords (length files) i (concat (map writeMetadata files) ++ rest) =
    Ok (map decoded files, rest).
Proof.
  induction files as [|m files IH]; intros i rest Hwf; [reflexivity|].
  apply Forall_cons in Hwf as [Hm Hwf].
  cbn [length readRecords map concat]. rewrite <- app_assoc.
  rewrite (readMetadata_writeMetadata _ _ Hm), (IH _ _ Hwf). reflexivity.
Qed.

(** Decoding a written block gives its records back and stops at the
    payload section. *)
Lemma decodeBlock_encoded fs block blockNum footer :
  Forall wfMetadata (Block.Files block) ->
  Z.of_nat (length (Block.Files block)) <= Int.max_int32 ->
  decodeBlock (blockBody fs block blockNum ++ footer) =
    Ok (map decoded (Block.Files block), payload fs (Block.Files block) ++ footer).
Proof.
  intros Hwf Hlen. unfold decodeBlock, blockBody. rewrite <- !app_assoc.
  rewrite binary_Read_app by (try apply length_le_bytes; lia).
  cbn [lift]. rewrite result_bind_Ok.
  rewrite binary_Read_app by (try apply length_le_bytes; lia).
  rewrite read_int32_le_bytes
    by (unfold Int.is_int32, Int.min_int32, Int.max_int32 in *; lia).
  destruct (Z.ltb_spec (Z.of_nat (length (Block.Files block))) 0); [lia|].
  rewrite Nat2Z.id. apply readRecords_encoded, Hwf.
Qed.

(** ** Extraction *)

Lemma NoDup_app_stdlib {A} (l1 l2 : list A) :
  List.NoDup (l1 ++ l2) ->
  List.NoDup l1 /\ List.NoDup l2 /\ (forall x, In x l1 -> In x l2 -> False).
Proof.
  induction l1 as [|x l1 IH]; cbn; intros H.
  - split; [constructor|]. split; [exact H|]. intros x [].
  - apply List.NoDup_cons_iff in H as [Hx H]. destruct (IH H) as (H1 & H2 & H3).
    split; [constructor; [|exact H1]|split; [exact H2|]].
    + intros Hin. apply Hx, in_or_app. left. exact Hin.
    + intros y [<-|Hy] Hy2; [apply Hx, in_or_app; right; exact Hy2|].
      apply (H3 y Hy Hy2).
Qed.

Section UnpackerFacts.

Variable filepath_Join : string -> string -> string.
Variable umask : Z.
Variable now : Time.
Variable fs : gmap string File.
Variable outputDir : string.

Local Abbreviation target m := (filepath_Join outputDir (FileMetadata.Path m)).
Local Abbreviation extractFile := (extractFile filepath_Join umask now).
Local Abbreviation extractFiles := (extractFiles filepath_Join umask now).
Local Abbreviation extracted := (extracted filepath_Join umask fs outputDir).
Local Abbreviation UnpackBlock := (UnpackBlock filepath_Join umask now).
Local Abbreviation unpackEntries := (unpackEntries filepath_Join umask now).

Lemma CopyN_app bs rest :
  CopyN (bs ++ rest) (Z.of_nat (length bs)) = (bs, rest, None).
Proof.
  unfold CopyN. destruct (Z.leb_spec (Z.of_nat (length bs)) 0) as [Hle|Hgt].
  - destruct bs; [reflexivity|cbn in Hle; lia].
  - rewrite Nat2Z.id, firstn_app, firstn_all, skipn_app, skipn_all, Nat.sub_diag.
    cbn [firstn skipn]. rewrite app_nil_r.
    destruct (Z.ltb_spec (Z.of_nat (length bs)) (Z.of_nat (length bs))); [lia|reflexivity].
Qed.

(** Extracting a stored file to a place where there is no file. *)
Lemma extractFile_fresh m rest dest :
  stored fs m -> dest !! target m = None ->
  extractFile (contentOf fs m ++ rest) outputDir (decoded m) dest =
    (rest, <[target m := restored umask fs m]> dest, None).
Proof.
  intros (file & Hfile & Hsum & Hsize) Hfresh.
  unfold extractFile, openFile, contentOf, restored, contentOf.
  cbn [decoded FileMetadata.Path FileMetadata.Size FileMetadata.Mode FileMetadata.Checksum
         FileMetadata.ModTime].
  rewrite Hfresh, Hfile, Hsize, CopyN_app. cbv beta iota zeta.
  rewrite Hsum. replace (bytes_Equal (SHA256.Sum256 (data file)) (SHA256.Sum256 (data file)))
    with true by (symmetry; apply bytesEqual_eq; reflexivity).
  cbn [negb]. unfold writeAt0. cbn [data mode]. rewrite skipn_nil, app_nil_r.
  rewrite insert_insert_eq. reflexivity.
Qed.

Lemma extracted_fresh files : forall dest p,
  ~ In p (map (fun m => target m) files) -> extracted files dest !! p = dest !! p.
Proof.
  induction files as [|m files IH]; intros dest p Hp; [reflexivity|].
  cbn [extracted fold_left]. cbn [map In] in Hp.
  unfold extracted in IH. rewrite IH by tauto.
  apply lookup_insert_ne. tauto.
Qed.

Lemma extractFiles_stored files : forall rest dest,
  Forall (stored fs) files ->
  List.NoDup (map (fun m => target m) files) ->
  Forall (fun m => dest !! target m = None) files ->
  extractFiles (payload fs files ++ rest) outputDir (map decoded files) dest =
    (extracted files dest, None).
Proof.
  induction files as [|m files IH]; intros rest dest Hst Hnd Hfresh; [reflexivity|].
  apply Forall_cons in Hst as [Hm Hst]. apply Forall_cons in Hfresh as [Hfm Hfresh].
  cbn [map] in Hnd. apply List.NoDup_cons_iff in Hnd as [Hnin Hnd].
  cbn [map extractFiles]. unfold payload. cbn [map concat]. rewrite <- app_assoc.
  fold (contentOf fs m). fold (payload fs files).
  rewrite (extractFile_fresh _ _ _ Hm Hfm). cbv beta iota zeta.
  rewrite IH; [reflexivity|assumption|assumption|].
  rewrite List.Forall_forall in Hfresh |- *. intros m' Hm'.
  rewrite lookup_insert_ne; [apply Hfresh, Hm'|].
  intros E. apply Hnin. rewrite E. apply in_map_iff. exists m'. split; [reflexivity|exact Hm'].
Qed.

Lemma extracted_lookup files : forall dest m,
  List.NoDup (map (fun m => target m) files) -> In m files ->
  extracted files dest !! target m = Some (restored umask fs m).
Proof.
  induction files as [|x files IH]; intros dest m Hnd Hin; [destruct Hin|].
  cbn [map] in Hnd. apply List.NoDup_cons_iff in Hnd as [Hnin Hnd].
  cbn [extracted fold_left]. destruct Hin as [->|Hin].
  - pose proof (extracted_fresh files (<[target m := restored umask fs m]> dest)
                  (target m) Hnin) as E.
    unfold extracted in E. rewrite E. apply lookup_insert_eq.
  - apply (IH _ _ Hnd Hin).
Qed.

Lemma extracted_app l1 l2 dest :
  extracted (l1 ++ l2) dest = extracted l2 (extracted l1 dest).
Proof. unfold extracted. apply fold_left_app. Qed.

(** Unpacking a block file of the packer into a place where none of its
    files exists yet restores all of them. *)
Lemma UnpackBlock_packed opts w dest :
  packedBlock fs w ->
  List.NoDup (map (fun m => target m) (Block.Files (w_block w))) ->
  Forall (fun m => dest !! target m = None) (Block.Files (w_block w)) ->
  UnpackBlock opts (w_bytes w) outputDir dest =
    (extracted (Block.Files (w_block w)) dest, Success).
Proof.
  intros (Hst & Hwf & Hlen & Hbytes) Hnd Hfresh. unfold UnpackBlock.
  rewrite Hbytes.
  assert (Hv : (if VerifyIntegrity opts
                then ValidateBlock (blockBody fs (w_block w) (w_num w) ++
                                    SHA256.Sum256 (blockBody fs (w_block w) (w_num w)))
                else None) = None).
  { destruct (VerifyIntegrity opts); [|reflexivity].
    apply ValidateBlock_digest.
    pose proof (length_blockBody fs (w_block w) (w_num w)). lia. }
  rewrite Hv, (decodeBlock_encoded _ _ _ _ Hwf Hlen).
  rewrite (extractFiles_stored _ _ _ Hst Hnd Hfresh). reflexivity.
Qed.

Lemma unpackEntries_packed opts ws : forall dest,
  Forall (packedBlock fs) ws ->
  Forall (fun e => isBlockFile e = true) (dirEntries ws) ->
  List.NoDup (map (fun m => target m) (recordsOf ws)) ->
  Forall (fun m => dest !! target m = None) (recordsOf ws) ->
  unpackEntries opts (dirEntries ws) outputDir dest = (extracted (recordsOf ws) dest, Success).
Proof.
  induction ws as [|w ws IH]; intros dest Hp Hb Hnd Hfresh; [reflexivity|].
  apply Forall_cons in Hp as [Hw Hp]. cbn [dirEntries map] in Hb.
  apply Forall_cons in Hb as [Hbw Hb].
  unfold recordsOf in Hnd, Hfresh. cbn [map concat] in Hnd, Hfresh.
  rewrite map_app in Hnd. apply NoDup_app_stdlib in Hnd as (Hnd1 & Hnd2 & Hdisj).
  apply Forall_app in Hfresh as [Hf1 Hf2].
  cbn [dirEntries map unpackEntries]. unfold isBlockFile in Hbw. cbn [Name IsDir] in Hbw |- *.
  rewrite Hbw. cbn [Content].
  rewrite (UnpackBlock_packed _ _ _ Hw Hnd1 Hf1).
  fold (dirEntries ws). rewrite IH; try assumption.
  - unfold recordsOf. cbn [map concat]. rewrite extracted_app. reflexivity.
  - rewrite List.Forall_forall in Hf2 |- *. intros m Hm.
    rewrite extracted_fresh; [apply Hf2, Hm|].
    intros Hin. apply (Hdisj (target m)); [exact Hin|].
    apply in_map_iff. exists m. split; [reflexivity|exact Hm].
Qed.

(** Entries that are not block files do not matter. *)
Lemma unpackEntries_filter opts entries : forall dest,
  unpackEntries opts entries outputDir dest =
    unpackEntries opts (List.filter isBlockFile entries) outputDir dest.
Proof.
  induction entries as [|e entries IH]; intros dest; [reflexivity|].
  cbn [unpackEntries List.filter]. unfold isBlockFile at 1.
  destruct (negb (IsDir e) && String.eqb (filepath_Ext (Name e)) ".beam") eqn:E.
  - cbn [unpackEntries]. rewrite ?E.
    destruct (UnpackBlock opts (Content e) outputDir dest) as [d [| |]]; [apply IH| |];
      reflexivity.
  - apply IH.
Qed.

End UnpackerFacts.

(** ** From the source tree to the block files *)

Lemma collectFileInfo_readable opts fs walk :
  Forall (fun p => is_Some (fs !! p)) walk ->
  exists infos,
    collectFileInfo opts fs walk = inl infos /\
    map FileInfo.Path infos = List.filter (fits opts fs) walk /\
    Forall (fun f => exists file, fs !! FileInfo.Path f = Some file /\
                                  f = infoOf (FileInfo.Path f) file) infos.
Proof.
  induction 1 as [|p walk [file Hfile] _ (infos & Hc & Hpaths & Hinfos)].
  - exists []. repeat split; constructor.
  - cbn [collectFileInfo List.filter]. unfold fits at 1. rewrite Hfile, Hc.
    destruct (Z.of_nat (length (data file)) >? BlockSize opts).
    + exists infos. repeat split; assumption.
    + exists (infoOf p file :: infos). split; [reflexivity|]. split.
      * cbn. rewrite Hpaths. reflexivity.
      * constructor; [|exact Hinfos]. exists file. split; [exact Hfile|reflexivity].
Qed.

Lemma in_map_eq {A B C} (f : A -> C) (g : B -> C) l1 l2 x :
  map f l1 = map g l2 -> In x l1 -> exists y, In y l2 /\ f x = g y.
Proof.
  intros E Hx. apply (in_map f) in Hx. rewrite E in Hx.
  apply in_map_iff in Hx as (y & Hy & Hin). exists y. split; [exact Hin|symmetry; exact Hy].
Qed.

Lemma in_recordsOf m out :
  In m (recordsOf out) <-> exists w, In w out /\ In m (Block.Files (w_block w)).
Proof.
  unfold recordsOf. rewrite in_concat. split.
  - intros (l & Hl & Hm). apply in_map_iff in Hl as (w & <- & Hw). exists w. tauto.
  - intros (w & Hw & Hm). exists (Block.Files (w_block w)). split; [|exact Hm].
    apply in_map_iff. exists w. tauto.
Qed.

Lemma length_recordsOf w out :
  In w out -> (length (Block.Files (w_block w)) <= length (recordsOf out))%nat.
Proof.
  induction out as [|x out IH]; intros Hw; [destruct Hw|].
  unfold recordsOf in *. cbn [map concat]. rewrite length_app.
  destruct Hw as [->|Hw]; [lia|]. specialize (IH Hw). lia.
Qed.

(** Every offset the packer records is an [int64]. *)
Lemma packFiles_offsets opts fs files :
  Forall (fun w => Forall (fun m => Int.is_int64 (FileMetadata.Offset m))
                     (Block.Files (w_block w)))
    (packFiles opts fs files).1.
Proof.
  unfold packFiles.
  apply packFiles_loop_rule with
    (G := fun _ => True)
    (J := fun n b s => Int.is_int64 (Block.Size b) /\
                       Forall (fun m => Int.is_int64 (FileMetadata.Offset m)) (Block.Files b)).
  - intros n b s f [Hs Hb] _ _. split; [exact Hb|]. cbn. split; [|constructor].
    unfold Int.is_int64, Int.min_int64, Int.max_int64. lia.
  - intros n b s f b' [Hs Hb] _ _ Ha.
    apply addFileToBlock_inl in Ha as (file & _ & ->).
    cbn [Block.Files Block.Size w_block].
    assert (Forall (fun m => Int.is_int64 (FileMetadata.Offset m)) (Block.Files b ++
              [FileMetadata.mk (FileInfo.Path f) (FileInfo.Size f) (FileInfo.ModTime f)
                 (SHA256.Sum256 (data file)) (Block.Size b) (Block.ID b) (FileInfo.Mode f)])).
    { apply Forall_app. split; [exact Hb|]. constructor; [exact Hs|constructor]. }
    split; [split; [apply int64_range|assumption]|assumption].
  - apply Forall_forall. intros; exact I.
  - cbn. split; [|constructor]. unfold Int.is_int64, Int.min_int64, Int.max_int64. lia.
  - constructor.
Qed.

Section PackFacts.

Variable sort_Slice : (FileInfo.t -> FileInfo.t -> bool) -> list FileInfo.t -> list FileInfo.t.
Hypothesis sorts : sortsBySizeDesc sort_Slice.
Variable opts : PackerOptions.
Variable fs : gmap string File.
Variable walk : list string.
Hypothesis source : wfSource fs walk.

Lemma walk_readable : Forall (fun p => is_Some (fs !! p)) walk.
Proof.
  destruct source as (_ & _ & Hw). eapply Forall_impl; [exact Hw|].
  intros p (_ & file & Hfile & _). exists file. exact Hfile.
Qed.

(** What [Pack] does on a tree that is not empty: it ends without error;
    the records of its block files are, up to their order, the files of
    the walk that fit in a block, each made from its file. *)
Lemma Pack_records :
  walk <> [] ->
  (Pack sort_Slice opts fs walk).2 = None /\
  Forall (faithful fs) (Pack sort_Slice opts fs walk).1 /\
  Forall (fromSource fs) (recordsOf (Pack sort_Slice opts fs walk).1) /\
  Permutation (map FileMetadata.Path (recordsOf (Pack sort_Slice opts fs walk).1))
    (List.filter (fits opts fs) walk).
Proof.
  intros Hne. unfold Pack.
  destruct (Nat.eqb_spec (length walk) 0) as [E|_].
  { destruct walk; [contradiction|discriminate]. }
  destruct (collectFileInfo_readable opts fs walk walk_readable)
    as (infos & -> & Hpaths & Hinfos).
  unfold packSorted. destruct (sorts infos) as [Hperm _].
  set (sorted := sort_Slice bySizeDesc infos) in *.
  assert (Hsorted : Forall (fun f => exists file, fs !! FileInfo.Path f = Some file /\
                                       f = infoOf (FileInfo.Path f) file) sorted).
  { rewrite List.Forall_forall in Hinfos |- *. intros f Hf. apply Hinfos.
    eapply Permutation_in; [exact Hperm|exact Hf]. }
  assert (Hread : Forall (fun f => is_Some (fs !! FileInfo.Path f)) sorted).
  { eapply Forall_impl; [exact Hsorted|]. intros f (file & Hfile & _). exists file. exact Hfile. }
  destruct (packFiles_complete opts fs sorted Hread) as [Hok Hrec].
  pose proof (packFiles_faithful opts fs sorted) as Hfaith.
  pose proof (packFiles_offsets opts fs sorted) as Hoff.
  set (out := (packFiles opts fs sorted).1) in *.
  split; [exact Hok|]. split; [exact Hfaith|]. split.
  - rewrite List.Forall_forall. intros m Hm.
    destruct (in_map_eq _ _ _ _ _ Hrec Hm) as (f & Hf & Hmf).
    unfold described, descriptor in Hmf. injection Hmf as Hp Hs Ht Hmo.
    rewrite List.Forall_forall in Hsorted. destruct (Hsorted f Hf) as (file & Hfile & Hinfo).
    apply in_recordsOf in Hm as (w & Hw & Hmw).
    rewrite List.Forall_forall in Hfaith. destruct (Hfaith w Hw) as [Hrecd _].
    rewrite List.Forall_forall in Hrecd. destruct (Hrecd m Hmw) as (file' & Hfile' & Hsum).
    rewrite Hp, Hfile in Hfile'. injection Hfile' as <-.
    rewrite List.Forall_forall in Hoff. specialize (Hoff w Hw).
    rewrite List.Forall_forall in Hoff. specialize (Hoff m Hmw).
    assert (Hin : In (FileInfo.Path f) walk).
    { assert (Hin : In (FileInfo.Path f) (map FileInfo.Path infos)).
      { apply in_map. eapply Permutation_in; [exact Hperm|exact Hf]. }
      rewrite Hpaths in Hin. apply filter_In in Hin as [Hin _]. exact Hin. }
    destruct source as (_ & _ & Hwalk). rewrite List.Forall_forall in Hwalk.
    destruct (Hwalk _ Hin) as (Hplen & file' & Hfile' & Hsz & Htm & Hmd).
    rewrite Hfile in Hfile'. injection Hfile' as <-.
    rewrite Hinfo in Hs, Ht, Hmo. cbn in Hs, Ht, Hmo.
    exists file. rewrite Hp.
    split; [exact Hfile|]. split; [exact Hsum|]. split; [exact Hs|].
    split; [exact Hmo|]. split; [exact Ht|].
    unfold wfMetadata. rewrite Hp, Hs, Ht, Hmo, Hsum.
    split; [exact Hplen|]. split; [unfold Int.is_int64, Int.min_int64; lia|].
    split; [exact Htm|]. split; [exact Hoff|]. split; [exact Hmd|apply length_Sum256].
  - assert (E : map FileMetadata.Path (recordsOf out) = map FileInfo.Path sorted).
    { pose proof (f_equal (map (fun d : string * Z * Time * Z => d.1.1.1)) Hrec) as E.
      rewrite !map_map in E. exact E. }
    rewrite E, <- Hpaths. apply Permutation_map, Hperm.
Qed.

End PackFacts.

(** ** Round trip *)

(** A created file has the permission bits asked for when the umask masks
    none of them. *)
Lemma Perm_createdMode umask perm :
  Z.land (Perm perm) umask = 0 -> Perm (createdMode umask perm) = Perm perm.
Proof.
  unfold createdMode, syscallModeMask, Perm. intros H.
  apply Z.bits_inj'. intros n Hn.
  apply (f_equal (fun z => Z.testbit z n)) in H.
  rewrite Z.bits_0 in H.
  rewrite !Z.land_spec in H. rewrite !Z.land_spec, Z.ldiff_spec, !Z.land_spec, !Z.lor_spec.
  destruct (Z.testbit perm n), (Z.testbit 511 n), (Z.testbit umask n),
    (Z.testbit (2 ^ 23) n), (Z.testbit (2 ^ 22) n), (Z.testbit (2 ^ 20) n);
    cbn in *; try reflexivity; try discriminate.
Qed.

Lemma Permutation_recordsOf out out' :
  Permutation out out' -> Permutation (recordsOf out) (recordsOf out').
Proof.
  unfold recordsOf. induction 1 as [|w l l' _ IH|w w' l|l1 l2 l3 _ IH1 _ IH2]; cbn [map concat].
  - reflexivity.
  - apply Permutation_app_head, IH.
  - rewrite !app_assoc. apply Permutation_app_tail, Permutation_app_comm.
  - etransitivity; eassumption.
Qed.

Lemma NoDup_map_filter {A B} (g : A -> B) (f : A -> bool) l :
  List.NoDup (map g l) -> List.NoDup (map g (List.filter f l)).
Proof.
  induction l as [|x l IH]; cbn; intros H; [constructor|].
  apply List.NoDup_cons_iff in H as [Hx H]. destruct (f x); [|apply IH, H].
  cbn. constructor; [|apply IH, H].
  intros Hin. apply Hx. apply in_map_iff in Hin as (y & Hy & Hin).
  apply filter_In in Hin as [Hin _]. apply in_map_iff. exists y. tauto.
Qed.

Lemma Pack_packedBlocks sort_Slice opts fs walk :
  sortsBySizeDesc sort_Slice -> wfSource fs walk -> walk <> [] ->
  Forall (packedBlock fs) (Pack sort_Slice opts fs walk).1.
Proof.
  intros Hsort Hsrc Hne.
  destruct (Pack_records sort_Slice Hsort opts fs walk Hsrc Hne) as (_ & Hfaith & Hfrom & Hperm).
  rewrite List.Forall_forall in Hfaith, Hfrom |- *. intros w Hw.
  destruct (Hfaith w Hw) as [Hrecd Hbytes].
  assert (Hall : forall m, In m (Block.Files (w_block w)) -> fromSource fs m).
  { intros m Hm. apply Hfrom, in_recordsOf. exists w. tauto. }
  split; [|split; [|split]].
  - rewrite List.Forall_forall. intros m Hm.
    destruct (Hall m Hm) as (file & Hfile & Hsum & Hsize & _). exists file. tauto.
  - rewrite List.Forall_forall. intros m Hm.
    destruct (Hall m Hm) as (file & _ & _ & _ & _ & _ & Hwf). exact Hwf.
  - pose proof (length_recordsOf w _ Hw) as Hl.
    apply Permutation_length in Hperm. rewrite length_map in Hperm.
    pose proof (List.filter_length_le (fits opts fs) walk) as Hfl.
    destruct Hsrc as (_ & Hlen & _). lia.
  - rewrite Hbytes, (writeBlock_recorded _ _ _ Hrecd). reflexivity.
Qed.


(** ** Block file names *)

Lemma list_ascii_of_string_app s1 s2 :
  list_ascii_of_string (s1 +:+ s2) = list_ascii_of_string s1 ++ list_ascii_of_string s2.
Proof.
  induction s1 as [|ch s1 IH]; [reflexivity|].
  change (ch :: list_ascii_of_string (s1 +:+ s2) =
          ch :: (list_ascii_of_string s1 ++ list_ascii_of_string s2)).
  f_equal. exact IH.
Qed.

Lemma filepath_Ext_beam s : filepath_Ext (s +:+ ".beam") = ".beam"%string.
Proof.
  unfold filepath_Ext. rewrite list_ascii_of_string_app, rev_app_distr. reflexivity.
Qed.

Lemma filepath_Ext_blockName n : filepath_Ext (blockName n) = ".beam"%string.
Proof.
  unfold blockName, filepath_Ext.
  rewrite !list_ascii_of_string_app, app_assoc, rev_app_distr. reflexivity.
Qed.

(** The directory scan of [Unpack] takes every block file [Pack] wrote. *)
Lemma dirEntries_isBlockFile out : List.filter isBlockFile (dirEntries out) = dirEntries out.
Proof.
  induction out as [|w out IH]; [reflexivity|].
  cbn [dirEntries map List.filter]. unfold isBlockFile at 1. cbn [IsDir Name].
  rewrite filepath_Ext_blockName. cbn. fold (dirEntries out). rewrite IH. reflexivity.
Qed.


(** A run: capacity 5, so [src/a.txt] with its 6 bytes is skipped; the
    other three files come back. *)
Example roundtrip_run :
  let dest := (Unpack RoundTripExample.join RoundTripExample.umask RoundTripExample.now
                 RoundTripExample.opts (Directory RoundTripExample.entries) "out" ∅).1 in
  dest !! "out/src/a.txt"%string = None /\
  dest !! "out/src/b.txt"%string = Some (mkFile (Example.bytes "bravo") 384 (mkTime 1700000100 0)) /\
  dest !! "out/src/c.txt"%string = Some (mkFile (Example.bytes "char") 420 (mkTime 1700000200 0)) /\
  dest !! "out/src/d.txt"%string = Some (mkFile [] 420 (mkTime 1700000300 0)).
Proof. vm_compute. repeat split; reflexivity. Qed.

(** ** An empty selection *)

Lemma collectFileInfo_oversized opts fs walk :
  Forall (fun p => exists file, fs !! p = Some file /\
                                Z.of_nat (length (data file)) > BlockSize opts) walk ->
  collectFileInfo opts fs walk = inl [].
Proof.
  induction 1 as [|p walk (file & Hfile & Hbig) _ IH]; [reflexivity|].
  cbn [collectFileInfo]. rewrite Hfile, IH.
  destruct (Z.gtb_spec (Z.of_nat (length (data file))) (BlockSize opts)); [reflexivity|lia].
Qed.

(** C8, as the code has it. [Pack] returns the error "no files found in
    input directory" when the walk finds no file at all. When the walk
    finds files and every one of them is larger than the capacity, they
    are skipped and [Pack] returns no error and writes no block. *)
Theorem Pack_nothing_to_pack sort_Slice opts fs walk :
  sortsBySizeDesc sort_Slice ->
  (walk = [] ->
   Pack sort_Slice opts fs walk = ([], Some (Errorf "no files found in input directory" []))) /\
  (walk <> [] ->
   Forall (fun p => exists file, fs !! p = Some file /\
                                 Z.of_nat (length (data file)) > BlockSize opts) walk ->
   Pack sort_Slice opts fs walk = ([], None)).
Proof.
  intros Hsort. split.
  - intros ->. reflexivity.
  - intros Hne Hbig. unfold Pack.
    destruct (Nat.eqb_spec (length walk) 0) as [E|_].
    { destruct walk; [contradiction|discriminate]. }
    rewrite (collectFileInfo_oversized _ _ _ Hbig). unfold packSorted.
    destruct (Hsort []) as [Hperm _]. apply Permutation_sym, Permutation_nil in Hperm.
    rewrite Hperm. reflexivity.
Qed.

Lemma Pack_nothing_to_pack_witness :
  (@nil string = [] ->
   Pack stableSort OversizedExample.opts Example.fs [] =
     ([], Some (Errorf "no files found in input directory" []))) /\
  Pack stableSort OversizedExample.opts Example.fs OversizedExample.walk = ([], None).
Proof.
  destruct (Pack_nothing_to_pack stableSort OversizedExample.opts Example.fs []
              stableSort_sorts) as [H1 _].
  destruct (Pack_nothing_to_pack stableSort OversizedExample.opts Example.fs
              OversizedExample.walk stableSort_sorts) as [_ H2].
  split; [exact H1|]. apply H2; [discriminate|].
  repeat (apply Forall_cons; split;
            [eexists; split; [vm_compute; reflexivity|vm_compute; reflexivity]|]).
  constructor.
Defined.

(** C8, as the claim has it, fails: three files of 6, 5 and 4 bytes and a
    capacity of 3 bytes. Every file is skipped, and [Pack], run with the
    library's sort, returns [nil] with no block written. *)
Lemma Pack_all_oversized_no_error :
  OversizedExample.walk <> [] /\
  Forall (fun p => exists file, Example.fs !! p = Some file /\
                                Z.of_nat (length (data file)) > BlockSize OversizedExample.opts)
    OversizedExample.walk /\
  Pack GoSort.Slice OversizedExample.opts Example.fs OversizedExample.walk = ([], None).
Proof.
  split; [discriminate|]. split; [|vm_compute; reflexivity].
  repeat (apply Forall_cons; split;
            [eexists; split; [vm_compute; reflexivity|vm_compute; reflexivity]|]).
  constructor.
Qed.

(** ** Determinism *)

Lemma writeContents_ext fs1 fs2 files :
  Forall (fun m => fs1 !! FileMetadata.Path m = fs2 !! FileMetadata.Path m) files ->
  writeContents fs1 files = writeContents fs2 files.
Proof.
  induction 1 as [|m files Hm _ IH]; [reflexivity|].
  cbn [writeContents]. rewrite Hm, IH. reflexivity.
Qed.

Lemma writeBlock_ext fs1 fs2 block blockNum :
  Forall (fun m => fs1 !! FileMetadata.Path m = fs2 !! FileMetadata.Path m) (Block.Files block) ->
  writeBlock fs1 block blockNum = writeBlock fs2 block blockNum.
Proof.
  intros H. unfold writeBlock. rewrite (writeContents_ext _ _ _ H). reflexivity.
Qed.

(** The loop reads the source tree only at the paths of its descriptors. *)
Lemma packFiles_loop_ext opts fs1 fs2 files : forall n b s out,
  Forall (fun f => fs1 !! FileInfo.Path f = fs2 !! FileInfo.Path f) files ->
  Forall (fun m => fs1 !! FileMetadata.Path m = fs2 !! FileMetadata.Path m) (Block.Files b) ->
  packFiles_loop opts fs1 files n b s out = packFiles_loop opts fs2 files n b s out.
Proof.
  induction files as [|f rest IH]; intros n b s out Hf Hb; [reflexivity|].
  apply Forall_cons in Hf as [Hf Hrest].
  assert (Hadd : forall b0,
            Forall (fun m => fs1 !! FileMetadata.Path m = fs2 !! FileMetadata.Path m)
              (Block.Files b0) ->
            addFileToBlock fs1 b0 f = addFileToBlock fs2 b0 f /\
            forall b', addFileToBlock fs2 b0 f = inl b' ->
              Forall (fun m => fs1 !! FileMetadata.Path m = fs2 !! FileMetadata.Path m)
                (Block.Files b')).
  { intros b0 Hb0. split.
    - unfold addFileToBlock. rewrite Hf. reflexivity.
    - intros b' Ha. apply addFileToBlock_inl in Ha as (file & _ & ->). cbn [Block.Files].
      apply Forall_app. split; [exact Hb0|]. constructor; [exact Hf|constructor]. }
  cbn [packFiles_loop].
  rewrite (writeBlock_ext _ _ _ n Hb).
  destruct (Int.int64 (s + FileInfo.Size f) >? BlockSize opts).
  - destruct (writeBlock fs2 b n) as [bytes [e|]]; [reflexivity|].
    destruct (Hadd (newBlock (Int.int32 (n + 1))) ltac:(constructor)) as [-> Hb'].
    destruct (addFileToBlock fs2 (newBlock (Int.int32 (n + 1))) f) as [b'|e]; [|reflexivity].
    specialize (Hb' b' eq_refl).
    destruct rest as [|f' rest'].
    + rewrite (writeBlock_ext _ _ _ _ Hb'). reflexivity.
    + apply IH; assumption.
  - destruct (Hadd b Hb) as [-> Hb'].
    destruct (addFileToBlock fs2 b f) as [b'|e]; [|reflexivity].
    specialize (Hb' b' eq_refl).
    destruct rest as [|f' rest'].
    + rewrite (writeBlock_ext _ _ _ _ Hb'). reflexivity.
    + apply IH; assumption.
Qed.

(** C2, as the code has it. The packer hands [packFiles] a permutation of
    the descriptors in which no descriptor is larger than one before it:
    the sort is by size, descending. The block files, their records and
    their bytes are a function of the descriptor sequence and of the bytes
    of the files it names: two runs on the same sequence over source trees
    that agree on those files give the same blocks, byte for byte, whatever
    the sizes are. *)
Theorem packing_deterministic sort_Slice opts fs1 fs2 files :
  sortsBySizeDesc sort_Slice ->
  Forall (fun f => fs1 !! FileInfo.Path f = fs2 !! FileInfo.Path f) files ->
  Permutation (sort_Slice bySizeDesc files) files /\
  StronglySorted (fun x y => FileInfo.Size x >= FileInfo.Size y) (sort_Slice bySizeDesc files) /\
  packSorted sort_Slice opts fs1 files = packSorted sort_Slice opts fs2 files.
Proof.
  intros Hsort Hagree. destruct (Hsort files) as [Hperm Hsorted].
  split; [exact Hperm|]. split.
  - clear Hperm. induction Hsorted as [|x l _ IH Hx]; constructor; [exact IH|].
    eapply Forall_impl; [exact Hx|]. cbn. intros y Hy. unfold bySizeDesc in Hy. lia.
  - unfold packSorted, packFiles. apply packFiles_loop_ext; [|constructor].
    rewrite List.Forall_forall in Hagree |- *. intros f Hf. apply Hagree.
    eapply Permutation_in; [exact Hperm|exact Hf].
Qed.

Lemma packing_deterministic_witness :
  let fs2 := <["elsewhere" := mkFile (Example.bytes "other") 420 (mkTime 0 0)]> Example.fs in
  Permutation (stableSort bySizeDesc Example.files) Example.files /\
  StronglySorted (fun x y => FileInfo.Size x >= FileInfo.Size y)
    (stableSort bySizeDesc Example.files) /\
  packSorted stableSort Example.opts Example.fs Example.files =
    packSorted stableSort Example.opts fs2 Example.files.
Proof.
  intros fs2.
  apply (packing_deterministic stableSort Example.opts Example.fs fs2 Example.files).
  - exact stableSort_sorts.
  - repeat (apply Forall_cons; split; [vm_compute; reflexivity|]). constructor.
Defined.

(** C2, as the claim has it, fails: [sort.Slice] is not a stable sort.
    Thirteen files are discovered in the order f00 .. f12; f00 has 7 bytes,
    f06 has 5 and the others have 3 each. With a capacity of 10 bytes the
    records of the block files are not in discovery order among the files
    of 3 bytes: f03 is packed first, next to f06, and f01 only after f02,
    f04 and f05. A stable sort would have packed f01 next to f06. *)
Lemma sort_Slice_not_stable :
  collectFileInfo TiesExample.opts TiesExample.fs TiesExample.walk =
    inl TiesExample.descriptors /\
  map FileInfo.Path (GoSort.Slice bySizeDesc TiesExample.descriptors) =
    ["f00"; "f06"; "f03"; "f02"; "f04"; "f05"; "f01"; "f07"; "f08"; "f09"; "f10"; "f11"; "f12"]%string /\
  map FileInfo.Path (stableSort bySizeDesc TiesExample.descriptors) =
    ["f00"; "f06"; "f01"; "f02"; "f03"; "f04"; "f05"; "f07"; "f08"; "f09"; "f10"; "f11"; "f12"]%string /\
  GoSort.Slice bySizeDesc TiesExample.descriptors <>
    stableSort bySizeDesc TiesExample.descriptors /\
  TiesExample.assignment
    (Pack GoSort.Slice TiesExample.opts TiesExample.fs TiesExample.walk).1 =
    [ ["f00"]; ["f06"; "f03"]; ["f02"; "f04"; "f05"]; ["f01"; "f07"; "f08"];
      ["f09"; "f10"; "f11"]; ["f12"] ]%string /\
  TiesExample.assignment
    (Pack stableSort TiesExample.opts TiesExample.fs TiesExample.walk).1 =
    [ ["f00"]; ["f06"; "f01"]; ["f02"; "f03"; "f04"]; ["f05"; "f07"; "f08"];
      ["f09"; "f10"; "f11"]; ["f12"] ]%string.
Proof.
  split; [vm_compute; reflexivity|]. split; [vm_compute; reflexivity|].
  split; [vm_compute; reflexivity|]. split; [|split; vm_compute; reflexivity].
  vm_compute. intros H. discriminate H.
Qed.

(** ** Decoding any stream *)

Lemma binary_Read_inl n r v r' :
  binary_Read n r = inl (v, r') ->
  (n <= length r)%nat /\ v = le_value (firstn n r) /\ r' = skipn n r.
Proof.
  unfold binary_Read. destruct r as [|x r]; [discriminate|].
  destruct (Nat.ltb_spec (length (x :: r)) n); [discriminate|].
  intros [= <- <-]. repeat split. assumption.
Qed.

Lemma binary_Read_short n r :
  (length r < n)%nat -> exists e, binary_Read n r = inr e.
Proof.
  intros H. unfold binary_Read. destruct r as [|x r]; [eexists; reflexivity|].
  destruct (Nat.ltb_spec (length (x :: r)) n); [eexists; reflexivity|lia].
Qed.

Lemma file_Read_inl n r bs r' :
  file_Read n r = inl (bs, r') -> r' = skipn n r /\ (n = O \/ (1 <= length r)%nat).
Proof.
  unfold file_Read. destruct n as [|n].
  - intros [= <- <-]. split; [reflexivity|left; reflexivity].
  - destruct r as [|x r]; [discriminate|]. intros [= <- <-].
    split; [reflexivity|right; cbn; lia].
Qed.

(** A record that decodes took at least 33 bytes: its fixed-width fields
    and one byte of checksum. *)
Lemma readMetadata_Ok r m r' :
  readMetadata r = Ok (m, r') ->
  (length r' + 33 <= length r)%nat /\ exists k, (k <= length r)%nat /\ r' = skipn k r.
Proof.
  unfold readMetadata. intros H.
  read_step H E1. destruct (Int.int32 z <? 0); [discriminate|].
  read_step H E2. read_step H E3. read_step H E4. read_step H E5. read_step H E6.
  read_step H E7. injection H as _ <-.
  apply binary_Read_inl in E1 as (L1 & _ & ->).
  apply file_Read_inl in E2 as (-> & _).
  apply binary_Read_inl in E3 as (L3 & _ & ->).
  apply binary_Read_inl in E4 as (L4 & _ & ->).
  apply binary_Read_inl in E5 as (L5 & _ & ->).
  apply binary_Read_inl in E6 as (L6 & _ & ->).
  apply file_Read_inl in E7 as (-> & L7).
  split.
  - change SHA256.Size with 32%nat in *.
    rewrite !length_skipn in *. destruct L7 as [L7|L7]; [discriminate|]. lia.
  - rewrite !skipn_skipn.
    match goal with |- exists k, _ /\ skipn ?K r = _ => set (total := K) end.
    exists (Nat.min total (length r)). split; [lia|].
    destruct (Nat.le_ge_cases total (length r)) as [Hle|Hge].
    + rewrite Nat.min_l by exact Hle. reflexivity.
    + rewrite Nat.min_r by exact Hge. rewrite skipn_all, skipn_all2 by exact Hge. reflexivity.
Qed.

Lemma readMetadata_Panic r msg :
  readMetadata r = Panic msg -> declaredPathLen r < 0.
Proof.
  unfold readMetadata, declaredPathLen. intros H.
  destruct (binary_Read 4 r) as [[v r1]|e] eqn:E1; cbn [lift mbind result_bind] in H;
    [|discriminate].
  apply binary_Read_inl in E1 as (_ & -> & _).
  destruct (Z.ltb_spec (Int.int32 (le_value (firstn 4 r))) 0) as [Hneg|_]; [exact Hneg|].
  repeat match type of H with
         | context [lift ?x] =>
             destruct x as [[? ?]|?]; cbn [lift mbind result_bind] in H; [|discriminate H]
         end.
  discriminate.
Qed.

Lemma readRecords_Ok n : forall i r files r',
  readRecords n i r = Ok (files, r') ->
  length files = n /\ (length r' + 33 * n <= length r)%nat.
Proof.
  induction n as [|n IH]; intros i r files r' H.
  - injection H as <- <-. split; [reflexivity|lia].
  - cbn [readRecords] in H.
    destruct (readMetadata r) as [[m r1]|e|msg] eqn:E; try discriminate.
    destruct (readRecords n (i + 1) r1) as [[files1 r2]|e|msg] eqn:E2;
      cbn [mbind result_bind] in H; try discriminate.
    injection H as <- <-.
    apply readMetadata_Ok in E as [L _]. apply IH in E2 as [Hl L2].
    split; [cbn; lia|lia].
Qed.

Lemma readRecords_Panic n : forall i r msg,
  readRecords n i r = Panic msg ->
  exists k, (k <= length r)%nat /\ declaredPathLen (skipn k r) < 0.
Proof.
  induction n as [|n IH]; intros i r msg H; [discriminate|].
  cbn [readRecords] in H.
  destruct (readMetadata r) as [[m r1]|e|msg'] eqn:E; try discriminate.
  - destruct (readRecords n (i + 1) r1) as [[files1 r2]|e|msg'] eqn:E2;
      cbn [mbind result_bind] in H; try discriminate.
    apply readMetadata_Ok in E as [L (k & Hk & ->)]. apply IH in E2 as (k' & Hk' & Hneg).
    rewrite skipn_skipn in Hneg. rewrite length_skipn in Hk', L.
    exists (k' + k)%nat. split; [lia|exact Hneg].
  - exists O. split; [lia|]. apply readMetadata_Panic in E. exact E.
Qed.




(** ** A damaged payload *)

Lemma decodeBlock_records files blockNum rest :
  Forall wfMetadata files ->
  Z.of_nat (length files) <= Int.max_int32 ->
  decodeBlock ((le_bytes 4 blockNum ++ le_bytes 4 (Z.of_nat (length files))) ++
               concat (map writeMetadata files) ++ rest) =
    Ok (map decoded files, rest).
Proof.
  intros Hwf Hlen. unfold decodeBlock. rewrite <- !app_assoc.
  rewrite binary_Read_app by (try apply length_le_bytes; lia).
  cbn [lift]. rewrite result_bind_Ok.
  rewrite binary_Read_app by (try apply length_le_bytes; lia).
  rewrite read_int32_le_bytes
    by (unfold Int.is_int32, Int.min_int32, Int.max_int32 in *; lia).
  destruct (Z.ltb_spec (Z.of_nat (length files)) 0); [lia|].
  rewrite Nat2Z.id. apply readRecords_encoded, Hwf.
Qed.

Section Corruption.

Variable filepath_Join : string -> string -> string.
Variable umask : Z.
Variable now : Time.
Variable fs : gmap string File.
Variable outputDir : string.

Local Abbreviation target m := (filepath_Join outputDir (FileMetadata.Path m)).
Local Abbreviation extracted := (extracted filepath_Join umask fs outputDir).

(** The files before the damaged one are extracted as usual. *)
Lemma extractFiles_stored_app l1 : forall l2 rest dest,
  Forall (stored fs) l1 ->
  List.NoDup (map (fun m => target m) l1) ->
  Forall (fun m => dest !! target m = None) l1 ->
  extractFiles filepath_Join umask now (payload fs l1 ++ rest) outputDir
    (map decoded l1 ++ l2) dest =
    extractFiles filepath_Join umask now rest outputDir l2 (extracted l1 dest).
Proof.
  induction l1 as [|m l1 IH]; intros l2 rest dest Hst Hnd Hfresh; [reflexivity|].
  apply Forall_cons in Hst as [Hm Hst]. apply Forall_cons in Hfresh as [Hfm Hfresh].
  cbn [map] in Hnd. apply List.NoDup_cons_iff in Hnd as [Hnin Hnd].
  cbn [map app]. cbn [extractFiles]. unfold payload. cbn [map concat].
  rewrite <- app_assoc.
  fold (contentOf fs m). fold (payload fs l1).
  rewrite (extractFile_fresh _ _ _ _ _ _ _ _ Hm Hfm). cbv beta iota zeta.
  rewrite IH; [reflexivity|assumption|assumption|].
  rewrite List.Forall_forall in Hfresh |- *. intros m' Hm'.
  rewrite lookup_insert_ne; [apply Hfresh, Hm'|].
  intros E. apply Hnin. rewrite E. apply in_map_iff. exists m'. split; [reflexivity|exact Hm'].
Qed.

(** The damaged file: its bytes are written, then the digest differs. *)
Lemma extractFile_corrupted m bad rest dest :
  Z.of_nat (length bad) = FileMetadata.Size m ->
  SHA256.Sum256 bad <> FileMetadata.Checksum m ->
  dest !! target m = None ->
  extractFile filepath_Join umask now (bad ++ rest) outputDir (decoded m) dest =
    (rest, <[target m := mkFile bad (createdMode umask (FileMetadata.Mode m)) now]> dest,
     Some (Errorf "checksum mismatch for file: %s" [ArgS (FileMetadata.Path m)])).
Proof.
  intros Hlen Hsum Hfresh. unfold extractFile, openFile.
  cbn [decoded FileMetadata.Path FileMetadata.Size FileMetadata.Mode FileMetadata.Checksum
         FileMetadata.ModTime].
  rewrite Hfresh, <- Hlen, CopyN_app. cbv beta iota zeta.
  destruct (bytes_Equal (SHA256.Sum256 bad) (FileMetadata.Checksum m)) eqn:E.
  { apply bytesEqual_eq in E. contradiction. }
  cbn [negb]. unfold writeAt0. cbn [data mode modTime]. rewrite skipn_nil, app_nil_r.
  destruct bad; reflexivity.
Qed.

End Corruption.

(** C5, as the code has it. Verification before extraction is off. In a
    packed block the payload bytes of one file are replaced by as many
    other bytes with another SHA-256 digest. [UnpackBlock] then returns the
    checksum error of that file, which names its path. The files before it
    in the block are extracted as in the round trip; the damaged bytes stay
    where the file was being written; the files after it in the block are
    not extracted, because the loop returns at the first error. *)
Theorem corrupted_file_extraction
    filepath_Join umask now opts fs blockNum pre m post bad footer outputDir dest :
  VerifyIntegrity opts = false ->
  Forall (stored fs) (pre ++ m :: post) ->
  Forall wfMetadata (pre ++ m :: post) ->
  Z.of_nat (length (pre ++ m :: post)) <= Int.max_int32 ->
  List.NoDup (map (fun x => filepath_Join outputDir (FileMetadata.Path x)) (pre ++ m :: post)) ->
  Forall (fun x => dest !! filepath_Join outputDir (FileMetadata.Path x) = None)
    (pre ++ m :: post) ->
  length bad = length (contentOf fs m) ->
  SHA256.Sum256 bad <> SHA256.Sum256 (contentOf fs m) ->
  exists dest',
    UnpackBlock filepath_Join umask now opts
      (corruptedBlock fs blockNum pre m post bad footer) outputDir dest =
      (dest', Failure (ErrorfW "error extracting file %s: %w" [ArgS (FileMetadata.Path m)]
                         (Errorf "checksum mismatch for file: %s"
                            [ArgS (FileMetadata.Path m)]))) /\
    (forall x, In x pre ->
       dest' !! filepath_Join outputDir (FileMetadata.Path x) = Some (restored umask fs x)) /\
    dest' !! filepath_Join outputDir (FileMetadata.Path m) =
      Some (mkFile bad (createdMode umask (FileMetadata.Mode m)) now) /\
    (forall y, In y post -> dest' !! filepath_Join outputDir (FileMetadata.Path y) = None).
Proof.
  intros Hverify Hst Hwf Hlen Hnd Hfresh Hbad Hsum.
  apply Forall_app in Hst as [Hst1 Hst2]. apply Forall_cons in Hst2 as [Hstm Hst2].
  apply Forall_app in Hfresh as [Hf1 Hf2]. apply Forall_cons in Hf2 as [Hfm Hf2].
  pose proof Hnd as Hnd0.
  rewrite map_app in Hnd. apply NoDup_app_stdlib in Hnd as (Hnd1 & Hnd2 & Hdisj).
  cbn [map] in Hnd2, Hdisj. apply List.NoDup_cons_iff in Hnd2 as [Hnin Hnd2].
  set (target := fun x => filepath_Join outputDir (FileMetadata.Path x)) in *.
  assert (Hm1 : extracted filepath_Join umask fs outputDir pre dest !! target m = None).
  { rewrite extracted_fresh; [exact Hfm|]. intros Hin. apply (Hdisj _ Hin). left. reflexivity. }
  destruct Hstm as (file & Hfile & Hck & Hsize).
  assert (Hcontent : contentOf fs m = data file) by (unfold contentOf; rewrite Hfile; reflexivity).
  eexists. split; [|split; [|split]].
  - unfold UnpackBlock, corruptedBlock. rewrite Hverify.
    rewrite (decodeBlock_records _ _ _ Hwf Hlen), map_app. cbn [map].
    rewrite (extractFiles_stored_app filepath_Join umask now fs outputDir pre _ _ dest
               Hst1 Hnd1 Hf1).
    cbn [extractFiles].
    rewrite (extractFile_corrupted filepath_Join umask now outputDir m bad _ _).
    + reflexivity.
    + rewrite Hbad, Hcontent, Hsize. reflexivity.
    + rewrite Hck, <- Hcontent. exact Hsum.
    + exact Hm1.
  - intros x Hx. rewrite lookup_insert_ne.
    + apply extracted_lookup; assumption.
    + intros E. apply (Hdisj (target x)).
      * apply in_map_iff. exists x. split; [reflexivity|exact Hx].
      * left. exact E.
  - apply lookup_insert_eq.
  - intros y Hy. rewrite lookup_insert_ne.
    + rewrite extracted_fresh.
      * rewrite List.Forall_forall in Hf2. apply Hf2, Hy.
      * intros Hin. apply (Hdisj _ Hin). right.
        apply in_map_iff. exists y. split; [reflexivity|exact Hy].
    + intros E. apply Hnin.
      apply in_map_iff. exists y. split; [symmetry; exact E|exact Hy].
Qed.

Lemma corrupted_file_extraction_witness :
  exists dest',
    UnpackBlock RoundTripExample.join RoundTripExample.umask RoundTripExample.now
      CorruptExample.opts
      (corruptedBlock Example.fs 1 [] CorruptExample.mb [CorruptExample.mc]
         (Example.bytes "brav0") []) "out" ∅ =
      (dest', Failure (ErrorfW "error extracting file %s: %w" [ArgS "src/b.txt"]
                         (Errorf "checksum mismatch for file: %s" [ArgS "src/b.txt"]))) /\
    (forall x, In x [] ->
       dest' !! RoundTripExample.join "out" (FileMetadata.Path x) =
         Some (restored RoundTripExample.umask Example.fs x)) /\
    dest' !! RoundTripExample.join "out" "src/b.txt" =
      Some (mkFile (Example.bytes "brav0") (createdMode RoundTripExample.umask 384)
              RoundTripExample.now) /\
    (forall y, In y [CorruptExample.mc] ->
       dest' !! RoundTripExample.join "out" (FileMetadata.Path y) = None).
Proof.
  apply (corrupted_file_extraction RoundTripExample.join RoundTripExample.umask
           RoundTripExample.now CorruptExample.opts Example.fs 1 [] CorruptExample.mb
           [CorruptExample.mc] (Example.bytes "brav0") [] "out" ∅).
  - reflexivity.
  - repeat (apply Forall_cons; split;
              [eexists; split; [vm_compute; reflexivity|];
               split; vm_compute; reflexivity|]).
    constructor.
  - repeat (apply Forall_cons; split;
              [split; [vm_compute; discriminate|];
               split; [split; vm_compute; discriminate|];
               split; [split; vm_compute; discriminate|];
               split; [split; vm_compute; discriminate|];
               split; [split; [vm_compute; discriminate|vm_compute; reflexivity]|];
               vm_compute; reflexivity|]).
    constructor.
  - vm_compute. discriminate.
  - repeat constructor; cbn; intuition discriminate.
  - repeat constructor.
  - vm_compute. reflexivity.
  - vm_compute. intros H. discriminate H.
Defined.

(** C5, as the claim has it, fails. [Pack] puts [src/b.txt] and
    [src/c.txt] in one block; unpacked as written, both files come back.
    With the first payload byte, a byte of [src/b.txt], replaced, and
    verification off, [UnpackBlock] fails on [src/b.txt] and never
    extracts its sibling [src/c.txt]. *)
Lemma sibling_not_extracted :
  let run := UnpackBlock RoundTripExample.join RoundTripExample.umask RoundTripExample.now
               CorruptExample.opts in
  TiesExample.assignment
    (Pack GoSort.Slice Example.opts Example.fs CorruptExample.walk).1 =
    [["src/b.txt"; "src/c.txt"]]%string /\
  (run CorruptExample.good "out" ∅).2 = Success /\
  (run CorruptExample.good "out" ∅).1 !! "out/src/b.txt"%string =
    Some (mkFile (Example.bytes "bravo") 384 (mkTime 1700000100 0)) /\
  (run CorruptExample.good "out" ∅).1 !! "out/src/c.txt"%string =
    Some (mkFile (Example.bytes "char") 420 (mkTime 1700000200 0)) /\
  CorruptExample.good !! CorruptExample.payloadStart = Some "b"%byte /\
  (run CorruptExample.corrupted "out" ∅).2 =
    Failure (ErrorfW "error extracting file %s: %w" [ArgS "src/b.txt"]
               (Errorf "checksum mismatch for file: %s" [ArgS "src/b.txt"])) /\
  (run CorruptExample.corrupted "out" ∅).1 !! "out/src/b.txt"%string =
    Some (mkFile (xff :: Example.bytes "ravo") 384 RoundTripExample.now) /\
  (run CorruptExample.corrupted "out" ∅).1 !! "out/src/c.txt"%string = None.
Proof. vm_compute. repeat split; reflexivity. Qed.

(** ** Block numbers and file names *)

(** The block files are numbered 1, 2, 3, ... in the order they are
    written, as long as the files are few enough for an [int32]; no block
    file is written twice. *)
Lemma numbered_snoc (out : list Written) n blk bytes :
  map w_num out = map Z.of_nat (seq 1 (length out)) ->
  n = 1 + Z.of_nat (length out) ->
  map w_num (out ++ [mkWritten n blk bytes]) =
    map Z.of_nat (seq 1 (length (out ++ [mkWritten n blk bytes]))).
Proof.
  intros Hout Hn. rewrite length_app, Nat.add_comm. cbn [length Nat.add].
  rewrite seq_S, !map_app, Hout. cbn [map w_num]. f_equal. f_equal. lia.
Qed.

Lemma packFiles_loop_numbers opts fs files : forall n b s out,
  Forall (fun f => Int.is_int64 (FileInfo.Size f) /\ FileInfo.Size f <= BlockSize opts) files ->
  Z.of_nat (length out) + Z.of_nat (length (Block.Files b)) + Z.of_nat (length files)
    <= Int.max_int32 ->
  n = 1 + Z.of_nat (length out) ->
  (Block.Files b = [] -> s = 0) ->
  map w_num out = map Z.of_nat (seq 1 (length out)) ->
  map w_num (packFiles_loop opts fs files n b s out).1 =
    map Z.of_nat (seq 1 (length (packFiles_loop opts fs files n b s out).1)).
Proof.
  induction files as [|f rest IH]; intros n b s out HG Hcount Hn Hs Hout; [exact Hout|].
  apply Forall_cons in HG as [[Hty Hf] HG].
  assert (Hext : forall bytes blk,
            map w_num (out ++ [mkWritten n blk bytes]) =
            map Z.of_nat (seq 1 (length (out ++ [mkWritten n blk bytes])))).
  { intros bytes blk. apply numbered_snoc; assumption. }
  cbn [packFiles_loop].
  destruct (Z.gtb_spec (Int.int64 (s + FileInfo.Size f)) (BlockSize opts)) as [Hgt|Hle].
  - assert (Hne : Block.Files b <> []).
    { intros E. rewrite (Hs E), Z.add_0_l, int64_id in Hgt by exact Hty. lia. }
    assert (Hb1 : (1 <= length (Block.Files b))%nat).
    { destruct (Block.Files b); [contradiction|cbn; lia]. }
    cbn [length] in Hcount.
    destruct (writeBlock fs b n) as [bytes [e|]]; cbn [fst]; [apply Hext|].
    assert (Hn' : Int.int32 (n + 1) = n + 1).
    { apply int32_id. unfold Int.is_int32, Int.min_int32, Int.max_int32 in *. lia. }
    rewrite Hn'.
    destruct (addFileToBlock fs (newBlock (n + 1)) f) as [b'|e] eqn:Ea; [|apply Hext].
    apply addFileToBlock_inl in Ea as (file & _ & ->).
    destruct rest as [|f' rest'].
    + destruct (writeBlock fs _ (n + 1)) as [bytes' [e|]]; cbn [fst].
      * apply numbered_snoc; [apply Hext|]. rewrite length_app. cbn. lia.
      * apply numbered_snoc; [apply Hext|]. rewrite length_app. cbn. lia.
    + apply IH.
      * exact HG.
      * rewrite length_app. cbn [length Block.Files newBlock app] in *. lia.
      * rewrite length_app. cbn. lia.
      * cbn [Block.Files newBlock app]. discriminate.
      * apply Hext.
  - destruct (addFileToBlock fs b f) as [b'|e] eqn:Ea; [|exact Hout].
    apply addFileToBlock_inl in Ea as (file & _ & ->).
    destruct rest as [|f' rest'].
    + destruct (writeBlock fs _ n) as [bytes' [e|]]; cbn [fst]; apply Hext.
    + apply IH.
      * exact HG.
      * cbn [Block.Files]. rewrite length_app. cbn [length] in *. lia.
      * exact Hn.
      * cbn [Block.Files]. intros E. apply app_eq_nil in E as [_ E]. discriminate.
      * exact Hout.
Qed.

Lemma packFiles_numbers opts fs files :
  Forall (fun f => Int.is_int64 (FileInfo.Size f) /\ FileInfo.Size f <= BlockSize opts) files ->
  Z.of_nat (length files) <= Int.max_int32 ->
  map w_num (packFiles opts fs files).1 =
    map Z.of_nat (seq 1 (length (packFiles opts fs files).1)).
Proof.
  intros HG Hlen. unfold packFiles.
  apply packFiles_loop_numbers; try assumption; reflexivity.
Qed.

Lemma blockName_inj n1 n2 : blockName n1 = blockName n2 -> n1 = n2.
Proof.
  unfold blockName. intros E. apply String.app_inj in E.
  apply (f_equal list_ascii_of_string) in E. rewrite !list_ascii_of_string_app in E.
  apply app_inv_tail in E. apply (f_equal string_of_list_ascii) in E.
  rewrite !string_of_list_ascii_of_string in E. apply pretty_Z_inj in E. exact E.
Qed.

(** The block files of one run of [packFiles] have different names: the
    directory [Unpack] reads holds every one of them. *)
Lemma packFiles_names_distinct opts fs files :
  Forall (fun f => Int.is_int64 (FileInfo.Size f) /\ FileInfo.Size f <= BlockSize opts) files ->
  Z.of_nat (length files) <= Int.max_int32 ->
  List.NoDup (map Name (dirEntries (packFiles opts fs files).1)).
Proof.
  intros HG Hlen. unfold dirEntries. rewrite map_map. cbn [Name].
  rewrite <- (map_map w_num blockName), (packFiles_numbers _ _ _ HG Hlen).
  apply Finite.Injective_map_NoDup; [intros a b; apply blockName_inj|].
  apply Finite.Injective_map_NoDup; [intros a b; apply Nat2Z.inj|].
  apply seq_NoDup.
Qed.

Lemma collectFileInfo_fit opts fs walk : forall infos,
  Forall (fun p => forall file, fs !! p = Some file ->
                   Z.of_nat (length (data file)) <= Int.max_int64) walk ->
  collectFileInfo opts fs walk = inl infos ->
  Forall (fun f => Int.is_int64 (FileInfo.Size f) /\ FileInfo.Size f <= BlockSize opts) infos /\
  (length infos <= length walk)%nat.
Proof.
  induction walk as [|p walk IH]; intros infos Hw Hc.
  - injection Hc as <-. split; [constructor|reflexivity].
  - apply Forall_cons in Hw as [Hp Hw]. cbn [collectFileInfo] in Hc.
    destruct (fs !! p) as [file|] eqn:Hfile; [|discriminate].
    destruct (collectFileInfo opts fs walk) as [rest|e]; [|discriminate].
    destruct (IH rest Hw eq_refl) as [Hrest Hlen].
    destruct (Z.gtb_spec (Z.of_nat (length (data file))) (BlockSize opts)) as [Hgt|Hle];
      injection Hc as <-.
    + split; [exact Hrest|cbn [length]; lia].
    + split; [|cbn [length]; lia].
      apply Forall_cons; split; [|exact Hrest]. cbn [FileInfo.Size]. split; [|exact Hle].
      specialize (Hp file eq_refl).
      unfold Int.is_int64, Int.min_int64, Int.max_int64 in *. lia.
Qed.

(** The block files of one run of [Pack] have different names, so the
    output directory holds each of them. *)
Lemma Pack_names_distinct sort_Slice opts fs walk :
  sortsBySizeDesc sort_Slice ->
  wfSource fs walk ->
  List.NoDup (map Name (dirEntries (Pack sort_Slice opts fs walk).1)).
Proof.
  intros sorts (_ & Hcount & Hw). unfold Pack.
  destruct (length walk =? 0)%nat; [constructor|].
  destruct (collectFileInfo opts fs walk) as [infos|e] eqn:Hc; [|constructor].
  apply collectFileInfo_fit in Hc as [Hfit Hlen].
  - unfold packSorted. destruct (sorts infos) as [Hperm _].
    apply packFiles_names_distinct.
    + rewrite List.Forall_forall in Hfit |- *. intros f Hf. apply Hfit.
      eapply Permutation_in; [exact Hperm|exact Hf].
    + rewrite (Permutation_length Hperm). lia.
  - eapply Forall_impl; [exact Hw|]. intros p (_ & file & Hfile & Hsize & _) file' Hfile'.
    rewrite Hfile in Hfile'. injection Hfile' as <-. exact Hsize.
Qed.

(** * Further properties of the package *)

(** ** The validator *)

Lemma ChecksumsEqual_true a b : ChecksumsEqual a b = true <-> a = b.
Proof.
  unfold ChecksumsEqual. destruct (Nat.eqb_spec (length a) (length b)) as [_|Hne].
  - apply bytesEqual_eq.
  - split; [discriminate|]. intros ->. contradiction.
Qed.

(** X1. [ChecksumsEqual] decides equality of byte slices: it returns true
    exactly when the two slices have the same length and the same bytes. *)
Theorem ChecksumsEqual_decides a b :
  (ChecksumsEqual a b = true <-> a = b) /\
  (ChecksumsEqual a b = false <-> a <> b).
Proof.
  pose proof (ChecksumsEqual_true a b) as H. split; [exact H|].
  destruct (ChecksumsEqual a b); split; intros H'; try discriminate; try reflexivity.
  - exfalso. apply H'. apply H. reflexivity.
  - intros E. apply H in E. discriminate.
Qed.

(** X2. [ValidateBlock] accepts a file exactly when the file has at least
    32 bytes and its last 32 bytes are the SHA-256 digest of all the bytes
    before them. Nothing else of the file is looked at: the header is read
    but its value only names the block in the error. A file of fewer than
    32 bytes is always refused. *)
Theorem ValidateBlock_accepts block :
  ValidateBlock block = None <->
  (32 <= length block)%nat /\
  skipn (length block - 32) block = SHA256.Sum256 (firstn (length block - 32) block).
Proof.
  unfold ValidateBlock, binary_Read. destruct block as [|x l] eqn:E.
  { split; [discriminate|]. cbn. intros [H _]. lia. }
  rewrite <- E. clear x l E.
  destruct (Nat.ltb_spec (length block) 4) as [H4|H4].
  { split; [discriminate|]. intros [H _]. lia. }
  destruct (Nat.ltb_spec (length block) 32) as [H32|H32].
  { split; [discriminate|]. intros [H _]. lia. }
  destruct (ChecksumsEqual (skipn (length block - 32) block)
              (SHA256.Sum256 (firstn (length block - 32) block))) eqn:Eq.
  - apply ChecksumsEqual_true in Eq. split; [intros _; split; assumption|reflexivity].
  - split; [discriminate|]. intros [_ H]. apply ChecksumsEqual_true in H. congruence.
Qed.

Lemma checksumLoop_digest size : forall fuel r h,
  (0 < size)%nat -> (length r < fuel)%nat ->
  checksumLoop fuel size r h = Some (Ok (SHA256.Sum256 (h ++ r))).
Proof.
  induction fuel as [|fuel IH]; intros r h Hsize Hfuel; [lia|].
  destruct size as [|n]; [lia|]. cbn [checksumLoop os_File_Read].
  destruct r as [|x l] eqn:E.
  - cbn. rewrite app_nil_r. reflexivity.
  - rewrite <- E in *.
    assert (Hgot : (0 < length (firstn (S n) r))%nat).
    { rewrite length_firstn, E. cbn [length]. lia. }
    destruct (Nat.ltb_spec 0 (length (firstn (S n) r))) as [_|Hc]; [|lia].
    rewrite IH; [|lia|].
    + rewrite <- app_assoc, firstn_skipn. reflexivity.
    + rewrite length_skipn. rewrite E in *. cbn [length] in *. lia.
Qed.

Lemma checksumLoop_zero : forall fuel r h, checksumLoop fuel 0 r h = None.
Proof.
  induction fuel as [|fuel IH]; intros r h; [reflexivity|].
  cbn [checksumLoop os_File_Read length Nat.ltb Nat.leb]. apply IH.
Qed.

Lemma CalculateReaderChecksum_positive v fuel r :
  0 < bufferSize v -> (length r < fuel)%nat ->
  CalculateReaderChecksum v fuel r = Some (Ok (SHA256.Sum256 r)).
Proof.
  intros Hv Hfuel. unfold CalculateReaderChecksum.
  destruct (Z.ltb_spec (bufferSize v) 0); [lia|].
  apply (checksumLoop_digest (Z.to_nat (bufferSize v)) fuel r []); [lia|exact Hfuel].
Qed.

(** X3. With a buffer of any positive size, [CalculateReaderChecksum]
    reads the file to its end and returns the SHA-256 digest of all its
    bytes: the result does not depend on the buffer size, and the loop ends
    after at most one iteration per byte and one more. *)
Theorem CalculateReaderChecksum_digest v fuel r :
  0 < bufferSize v -> (length r < fuel)%nat ->
  CalculateReaderChecksum v fuel r = Some (Ok (SHA256.Sum256 r)).
Proof. apply CalculateReaderChecksum_positive. Qed.

Lemma CalculateReaderChecksum_digest_witness :
  CalculateReaderChecksum (NewValidator 2) 6 (Example.bytes "bravo") =
    Some (Ok (SHA256.Sum256 (Example.bytes "bravo"))).
Proof.
  apply (CalculateReaderChecksum_digest (NewValidator 2) 6 (Example.bytes "bravo")).
  - reflexivity.
  - vm_compute. lia.
Defined.

(** X4. A validator made with buffer size 0 never returns from
    [CalculateFileChecksum] on a file that exists: every read takes no
    byte and reports no error, so the loop runs for ever, whatever the
    file holds; [VerifyFileIntegrity] then never returns either. With a
    negative buffer size the allocation of the buffer panics. *)
Theorem CalculateFileChecksum_zero_buffer v fs path f expectedSum :
  fs !! path = Some f ->
  (bufferSize v = 0 ->
   forall fuel, CalculateFileChecksum v fuel fs path = None /\
                VerifyFileIntegrity v fuel fs path expectedSum = None) /\
  (bufferSize v < 0 ->
   forall fuel, exists msg, CalculateFileChecksum v fuel fs path = Some (Panic msg) /\
                            VerifyFileIntegrity v fuel fs path expectedSum = Some (Panicked msg)).
Proof.
  intros Hf. split.
  - intros Hv fuel.
    assert (H : CalculateFileChecksum v fuel fs path = None).
    { unfold CalculateFileChecksum, CalculateReaderChecksum. rewrite Hf, Hv. cbn.
      apply checksumLoop_zero. }
    split; [exact H|]. unfold VerifyFileIntegrity. rewrite H. reflexivity.
  - intros Hv fuel. exists "makeslice: len out of range"%string.
    assert (H : CalculateFileChecksum v fuel fs path =
                Some (Panic "makeslice: len out of range")).
    { unfold CalculateFileChecksum, CalculateReaderChecksum. rewrite Hf.
      destruct (Z.ltb_spec (bufferSize v) 0); [reflexivity|lia]. }
    split; [exact H|]. unfold VerifyFileIntegrity. rewrite H. reflexivity.
Qed.

Lemma CalculateFileChecksum_zero_buffer_witness :
  (forall fuel,
     CalculateFileChecksum (NewValidator 0) fuel Example.fs "src/b.txt" = None /\
     VerifyFileIntegrity (NewValidator 0) fuel Example.fs "src/b.txt"
       (SHA256.Sum256 (Example.bytes "bravo")) = None) /\
  (bufferSize (NewValidator 0) < 0 ->
   forall fuel, exists msg,
     CalculateFileChecksum (NewValidator 0) fuel Example.fs "src/b.txt" = Some (Panic msg) /\
     VerifyFileIntegrity (NewValidator 0) fuel Example.fs "src/b.txt"
       (SHA256.Sum256 (Example.bytes "bravo")) = Some (Panicked msg)).
Proof.
  destruct (CalculateFileChecksum_zero_buffer (NewValidator 0) Example.fs "src/b.txt"
              (mkFile (Example.bytes "bravo") 384 (mkTime 1700000100 0))
              (SHA256.Sum256 (Example.bytes "bravo"))) as [H0 Hneg].
  - vm_compute. reflexivity.
  - split; [apply H0; reflexivity|exact Hneg].
Defined.

(** X5. [VerifyFileIntegrity], with a positive buffer size. On a path that
    cannot be opened it returns the error of the open, wrapped twice. On a
    file it returns [nil] exactly when the expected sum is the SHA-256
    digest of the bytes of the file, and otherwise a [FileIntegrityError]
    that carries the path, the expected sum and the digest found. *)
Theorem VerifyFileIntegrity_outcomes v fuel fs path expectedSum :
  0 < bufferSize v ->
  match fs !! path with
  | None =>
      VerifyFileIntegrity v fuel fs path expectedSum =
        Some (Failure (ErrorfW "error calculating checksum: %w" []
                         (ErrorfW "error opening file: %w" [] (PathError "open" path))))
  | Some f =>
      (length (data f) < fuel)%nat ->
      (expectedSum = SHA256.Sum256 (data f) ->
       VerifyFileIntegrity v fuel fs path expectedSum = Some Success) /\
      (expectedSum <> SHA256.Sum256 (data f) ->
       VerifyFileIntegrity v fuel fs path expectedSum =
         Some (Failure (FileIntegrityError path expectedSum (SHA256.Sum256 (data f)))))
  end.
Proof.
  intros Hv. unfold VerifyFileIntegrity, CalculateFileChecksum.
  destruct (fs !! path) as [f|]; [|reflexivity].
  intros Hfuel. rewrite (CalculateReaderChecksum_positive _ _ _ Hv Hfuel).
  destruct (ChecksumsEqual expectedSum (SHA256.Sum256 (data f))) eqn:E; cbn [negb].
  - apply ChecksumsEqual_true in E. split; [reflexivity|]. intros H. contradiction.
  - split; [|reflexivity]. intros H. apply ChecksumsEqual_true in H. congruence.
Qed.

Lemma VerifyFileIntegrity_outcomes_witness :
  VerifyFileIntegrity (NewValidator 32768) 10 Example.fs "src/b.txt"
    (SHA256.Sum256 (Example.bytes "bravo")) = Some Success /\
  VerifyFileIntegrity (NewValidator 32768) 10 Example.fs "src/none"
    (SHA256.Sum256 (Example.bytes "bravo")) =
    Some (Failure (ErrorfW "error calculating checksum: %w" []
                     (ErrorfW "error opening file: %w" [] (PathError "open" "src/none")))).
Proof.
  split.
  - pose proof (VerifyFileIntegrity_outcomes (NewValidator 32768) 10 Example.fs "src/b.txt"
                  (SHA256.Sum256 (Example.bytes "bravo")) eq_refl) as H.
    change (Example.fs !! "src/b.txt"%string)
      with (Some (mkFile (Example.bytes "bravo") 384 (mkTime 1700000100 0))) in H.
    cbv beta iota in H. apply H; [vm_compute; lia|reflexivity].
  - exact (VerifyFileIntegrity_outcomes (NewValidator 32768) 10 Example.fs "src/none"
             (SHA256.Sum256 (Example.bytes "bravo")) eq_refl).
Defined.

(** ** Verifying the output directory *)

Lemma verifyEntries_None entries :
  verifyEntries entries = None <->
  Forall (fun e => isBlockFile e = true -> ValidateBlock (Content e) = None) entries.
Proof.
  induction entries as [|e entries IH]; [split; [constructor|reflexivity]|].
  cbn [verifyEntries]. fold (isBlockFile e). rewrite Forall_cons.
  destruct (isBlockFile e).
  - destruct (ValidateBlock (Content e)) as [err|].
    + split; [discriminate|]. intros [H _]. specialize (H eq_refl). discriminate.
    + rewrite IH. split; [intros H; split; [reflexivity|exact H]|intros [_ H]; exact H].
  - rewrite IH. split; [intros H; split; [discriminate|exact H]|intros [_ H]; exact H].
Qed.

Lemma verifyEntries_app pre post :
  verifyEntries pre = None -> verifyEntries (pre ++ post) = verifyEntries post.
Proof.
  induction pre as [|e pre IH]; [reflexivity|]. cbn [verifyEntries app].
  destruct (negb (IsDir e) && String.eqb (filepath_Ext (Name e)) ".beam"); [|exact IH].
  destruct (ValidateBlock (Content e)); [discriminate|exact IH].
Qed.

(** X6. [Verify] on a directory returns [nil] exactly when every entry
    that is a regular file with the extension [.beam] passes
    [ValidateBlock]; directories and other files are not looked at. When
    a block file fails, [Verify] returns the error of the first one that
    fails, in the order of the directory, and the entries after it are not
    checked. *)
Theorem Verify_directory entries :
  (Verify (Directory entries) = None <->
   Forall (fun e => isBlockFile e = true -> ValidateBlock (Content e) = None) entries) /\
  Verify (Directory entries) = Verify (Directory (List.filter isBlockFile entries)) /\
  (forall pre e post err,
     entries = pre ++ e :: post ->
     Verify (Directory pre) = None ->
     isBlockFile e = true ->
     ValidateBlock (Content e) = Some err ->
     Verify (Directory entries) =
       Some (ErrorfW "error verifying block integrity: %w" [] err)).
Proof.
  split; [apply verifyEntries_None|]. split.
  - cbn [Verify]. induction entries as [|e entries IH]; [reflexivity|].
    cbn [verifyEntries List.filter]. fold (isBlockFile e).
    destruct (isBlockFile e) eqn:E; [|exact IH].
    cbn [verifyEntries]. fold (isBlockFile e). rewrite E, IH. reflexivity.
  - intros pre e post err -> Hpre He Herr. cbn [Verify] in *.
    rewrite (verifyEntries_app _ _ Hpre). cbn [verifyEntries]. fold (isBlockFile e).
    rewrite He, Herr. reflexivity.
Qed.

Lemma Pack_faithful sort_Slice opts fs walk :
  Forall (faithful fs) (Pack sort_Slice opts fs walk).1.
Proof.
  unfold Pack. destruct (length walk =? 0)%nat; [constructor|].
  destruct (collectFileInfo opts fs walk) as [infos|e]; [|constructor].
  apply packFiles_faithful.
Qed.

Lemma faithful_validates fs w : faithful fs w -> ValidateBlock (w_bytes w) = None.
Proof.
  intros [Hrec Hbytes]. rewrite Hbytes, (writeBlock_recorded _ _ _ Hrec). cbn [fst].
  apply ValidateBlock_digest. pose proof (length_blockBody fs (w_block w) (w_num w)). lia.
Qed.

(** X7. [Verify] accepts what [Pack] wrote: on the output directory of a
    run of [Pack], with its block files listed in any order and next to
    directories and files that are no block files, [Verify] returns [nil];
    and so it does on each block file given alone. *)
Theorem Pack_then_Verify sort_Slice opts fs walk entries :
  Permutation (List.filter isBlockFile entries) (dirEntries (Pack sort_Slice opts fs walk).1) ->
  Verify (Directory entries) = None /\
  Forall (fun w => Verify (BlockFile (w_bytes w)) = None) (Pack sort_Slice opts fs walk).1.
Proof.
  intros Hperm. pose proof (Pack_faithful sort_Slice opts fs walk) as Hfaith. split.
  - apply verifyEntries_None. rewrite List.Forall_forall. intros e He Hblock.
    assert (Hin : In e (dirEntries (Pack sort_Slice opts fs walk).1)).
    { eapply Permutation_in; [exact Hperm|]. apply filter_In. split; assumption. }
    unfold dirEntries in Hin. apply in_map_iff in Hin as (w & <- & Hw). cbn [Content].
    rewrite List.Forall_forall in Hfaith. apply (faithful_validates fs), Hfaith, Hw.
  - eapply Forall_impl; [exact Hfaith|]. intros w Hw. apply (faithful_validates fs w Hw).
Qed.

Lemma Pack_then_Verify_witness :
  Verify (Directory RoundTripExample.entries) = None /\
  Forall (fun w => Verify (BlockFile (w_bytes w)) = None)
    (Pack stableSort RoundTripExample.opts Example.fs Example.walk).1.
Proof.
  apply (Pack_then_Verify stableSort RoundTripExample.opts Example.fs Example.walk
           RoundTripExample.entries).
  unfold RoundTripExample.entries. cbn [List.filter].
  change (isBlockFile (mkDirEntry "unpack" true [])) with false. cbv iota.
  rewrite List.filter_app, filter_rev, dirEntries_isBlockFile. cbn [List.filter].
  change (isBlockFile (mkDirEntry "notes.txt" false (Example.bytes "not a block")))
    with false.
  cbv iota. rewrite app_nil_r. symmetry. apply Permutation_rev.
Defined.

Section VerifyAfterUnpack.

Variable filepath_Join : string -> string -> string.
Variable umask : Z.
Variable now : Time.

Lemma UnpackBlock_Success_validates opts block outputDir dest dest' :
  VerifyIntegrity opts = true ->
  UnpackBlock filepath_Join umask now opts block outputDir dest = (dest', Success) ->
  ValidateBlock block = None.
Proof.
  intros Hv. unfold UnpackBlock. rewrite Hv.
  destruct (ValidateBlock block); [discriminate|reflexivity].
Qed.

Lemma unpackEntries_Success_verifies opts outputDir entries : forall dest dest',
  VerifyIntegrity opts = true ->
  unpackEntries filepath_Join umask now opts entries outputDir dest = (dest', Success) ->
  verifyEntries entries = None.
Proof.
  induction entries as [|e entries IH]; intros dest dest' Hv H; [reflexivity|].
  cbn [unpackEntries verifyEntries] in *.
  destruct (negb (IsDir e) && String.eqb (filepath_Ext (Name e)) ".beam");
    [|apply (IH _ _ Hv H)].
  destruct (UnpackBlock filepath_Join umask now opts (Content e) outputDir dest)
    as [d [|err|msg]] eqn:E; [|discriminate|discriminate].
  rewrite (UnpackBlock_Success_validates _ _ _ _ _ Hv E). apply (IH _ _ Hv H).
Qed.

End VerifyAfterUnpack.

(** X8. With integrity verification on, a run of [Unpack] that succeeds
    has validated every block file it read: [Verify] on the same input
    returns [nil]. *)
Theorem Unpack_Success_Verify filepath_Join umask now opts input outputDir dest dest' :
  VerifyIntegrity opts = true ->
  Unpack filepath_Join umask now opts input outputDir dest = (dest', Success) ->
  Verify input = None.
Proof.
  intros Hv H. destruct input as [entries|content]; cbn [Unpack Verify] in *.
  - apply (unpackEntries_Success_verifies _ _ _ _ _ _ _ _ Hv H).
  - apply (UnpackBlock_Success_validates _ _ _ _ _ _ _ _ Hv H).
Qed.

Lemma Unpack_Success_Verify_witness :
  Verify (Directory RoundTripExample.entries) = None.
Proof.
  apply (Unpack_Success_Verify RoundTripExample.join RoundTripExample.umask
           RoundTripExample.now RoundTripExample.opts (Directory RoundTripExample.entries)
           "out" ∅
           (Unpack RoundTripExample.join RoundTripExample.umask RoundTripExample.now
              RoundTripExample.opts (Directory RoundTripExample.entries) "out" ∅).1).
  - reflexivity.
  - vm_compute. reflexivity.
Defined.

(** ** The blocks [Pack] writes *)

Lemma collectFileInfo_sizes opts fs walk : forall infos,
  collectFileInfo opts fs walk = inl infos ->
  Forall (fun f => 0 <= FileInfo.Size f <= BlockSize opts) infos.
Proof.
  induction walk as [|p walk IH]; intros infos Hc.
  - injection Hc as <-. constructor.
  - cbn [collectFileInfo] in Hc.
    destruct (fs !! p) as [file|]; [|discriminate].
    destruct (collectFileInfo opts fs walk) as [rest|e]; [|discriminate].
    specialize (IH rest eq_refl).
    destruct (Z.gtb_spec (Z.of_nat (length (data file))) (BlockSize opts)) as [Hgt|Hle];
      injection Hc as <-; [exact IH|].
    apply Forall_cons; split; [|exact IH]. cbn [FileInfo.Size]. lia.
Qed.

Lemma Forall_Permutation {A} (P : A -> Prop) l l' :
  Permutation l l' -> Forall P l' -> Forall P l.
Proof.
  intros Hperm H. rewrite List.Forall_forall in H |- *. intros x Hx.
  apply H. eapply Permutation_in; [exact Hperm|exact Hx].
Qed.

Lemma Pack_wellFormed sort_Slice opts fs walk :
  sortsBySizeDesc sort_Slice ->
  2 * BlockSize opts <= Int.max_int64 ->
  Forall (wellFormed (BlockSize opts)) (Pack sort_Slice opts fs walk).1.
Proof.
  intros sorts Hcap. unfold Pack. destruct (length walk =? 0)%nat; [constructor|].
  destruct (collectFileInfo opts fs walk) as [infos|e] eqn:Hc; [|constructor].
  unfold packSorted. destruct (sorts infos) as [Hperm _].
  apply packFiles_wellFormed; [exact Hcap|].
  apply (Forall_Permutation _ _ _ Hperm), (collectFileInfo_sizes _ _ _ _ Hc).
Qed.

Lemma packFiles_BlockID opts fs files :
  Forall (fun w => Block.ID (w_block w) = w_num w /\
                   Forall (fun m => FileMetadata.BlockID m = w_num w) (Block.Files (w_block w)))
    (packFiles opts fs files).1.
Proof.
  unfold packFiles.
  apply packFiles_loop_rule with
    (G := fun _ => True)
    (J := fun n b s => Block.ID b = n /\
                       Forall (fun m => FileMetadata.BlockID m = n) (Block.Files b)).
  - intros n b s f [Hid Hb] _ _. split; [split; assumption|]. split; [reflexivity|constructor].
  - intros n b s f b' [Hid Hb] _ _ Ha.
    apply addFileToBlock_inl in Ha as (file & _ & ->).
    cbn [Block.ID Block.Files w_block w_num].
    assert (Forall (fun m => FileMetadata.BlockID m = n) (Block.Files b ++
              [FileMetadata.mk (FileInfo.Path f) (FileInfo.Size f) (FileInfo.ModTime f)
                 (SHA256.Sum256 (data file)) (Block.Size b) (Block.ID b) (FileInfo.Mode f)])).
    { apply Forall_app. split; [exact Hb|]. constructor; [exact Hid|constructor]. }
    split; split; assumption.
  - apply Forall_forall. intros; exact I.
  - split; [reflexivity|constructor].
  - constructor.
Qed.

Lemma faithful_header fs w : faithful fs w -> firstn 4 (w_bytes w) = le_bytes 4 (w_num w).
Proof.
  intros [Hrec Hbytes]. rewrite Hbytes, (writeBlock_recorded _ _ _ Hrec). cbn [fst].
  unfold blockBody. rewrite <- !app_assoc.
  rewrite firstn_app, length_le_bytes, Nat.sub_diag. cbn [firstn]. rewrite app_nil_r.
  apply firstn_all2. rewrite length_le_bytes. lia.
Qed.

(** X9. The block files of a run of [Pack] are numbered 1, 2, 3, ... in
    the order they are written, so their names [block-N.beam] differ and
    none is written twice. Each block file starts with its number, and
    every record of it carries that number as its [BlockID]. *)
Theorem Pack_block_numbering sort_Slice opts fs walk :
  sortsBySizeDesc sort_Slice ->
  wfSource fs walk ->
  map w_num (Pack sort_Slice opts fs walk).1 =
    map Z.of_nat (seq 1 (length (Pack sort_Slice opts fs walk).1)) /\
  List.NoDup (map Name (dirEntries (Pack sort_Slice opts fs walk).1)) /\
  Forall (fun w => Block.ID (w_block w) = w_num w /\
                   firstn 4 (w_bytes w) = le_bytes 4 (w_num w) /\
                   Forall (fun m => FileMetadata.BlockID m = w_num w) (Block.Files (w_block w)))
    (Pack sort_Slice opts fs walk).1.
Proof.
  intros sorts Hsrc. split; [|split].
  - destruct Hsrc as (_ & Hcount & Hw). unfold Pack.
    destruct (length walk =? 0)%nat; [reflexivity|].
    destruct (collectFileInfo opts fs walk) as [infos|e] eqn:Hc; [|reflexivity].
    apply collectFileInfo_fit in Hc as [Hfit Hlen].
    + unfold packSorted. destruct (sorts infos) as [Hperm _].
      apply packFiles_numbers.
      * apply (Forall_Permutation _ _ _ Hperm Hfit).
      * rewrite (Permutation_length Hperm). lia.
    + eapply Forall_impl; [exact Hw|]. intros p (_ & file & Hfile & Hsize & _) file' Hfile'.
      rewrite Hfile in Hfile'. injection Hfile' as <-. exact Hsize.
  - apply Pack_names_distinct; assumption.
  - pose proof (Pack_faithful sort_Slice opts fs walk) as Hfaith.
    assert (Hid : Forall (fun w => Block.ID (w_block w) = w_num w /\
                     Forall (fun m => FileMetadata.BlockID m = w_num w)
                       (Block.Files (w_block w))) (Pack sort_Slice opts fs walk).1).
    { unfold Pack. destruct (length walk =? 0)%nat; [constructor|].
      destruct (collectFileInfo opts fs walk) as [infos|e]; [|constructor].
      apply packFiles_BlockID. }
    rewrite List.Forall_forall in Hfaith, Hid |- *. intros w Hw.
    destruct (Hid w Hw) as [H1 H2]. split; [exact H1|]. split; [|exact H2].
    apply (faithful_header fs), Hfaith, Hw.
Qed.

Lemma Example_wfSource : wfSource Example.fs Example.walk.
Proof.
  split; [|split].
  - repeat constructor; cbn; intuition discriminate.
  - vm_compute. discriminate.
  - repeat (apply Forall_cons; split;
              [split; [vm_compute; discriminate|];
               eexists; split; [vm_compute; reflexivity|];
               split; [vm_compute; discriminate|];
               split; [split; vm_compute; discriminate|];
               split; [vm_compute; discriminate|vm_compute; reflexivity]|]).
    constructor.
Qed.

Lemma Pack_block_numbering_witness :
  map w_num (Pack stableSort Example.opts Example.fs Example.walk).1 =
    map Z.of_nat (seq 1 (length (Pack stableSort Example.opts Example.fs Example.walk).1)) /\
  List.NoDup (map Name (dirEntries (Pack stableSort Example.opts Example.fs Example.walk).1)) /\
  Forall (fun w => Block.ID (w_block w) = w_num w /\
                   firstn 4 (w_bytes w) = le_bytes 4 (w_num w) /\
                   Forall (fun m => FileMetadata.BlockID m = w_num w) (Block.Files (w_block w)))
    (Pack stableSort Example.opts Example.fs Example.walk).1.
Proof.
  apply (Pack_block_numbering stableSort Example.opts Example.fs Example.walk).
  - exact stableSort_sorts.
  - exact Example_wfSource.
Defined.

(** ** The layout of a block file *)

Lemma length_writeMetadata m : length (writeMetadata m) = recordLength m.
Proof.
  unfold writeMetadata, recordLength. rewrite !length_app, !length_le_bytes. lia.
Qed.

Lemma length_records files :
  length (concat (map writeMetadata files)) = list_sum (map recordLength files).
Proof.
  induction files as [|m files IH]; [reflexivity|].
  cbn [map concat list_sum]. rewrite length_app, length_writeMetadata, IH. reflexivity.
Qed.

Lemma length_payload fs files :
  Forall (stored fs) files -> Z.of_nat (length (payload fs files)) = sumSizes files.
Proof.
  induction 1 as [|m files (file & Hfile & _ & Hsize) _ IH]; [reflexivity|].
  unfold payload, sumSizes, sizes in *. cbn [map concat fold_right].
  rewrite length_app, Hfile, Nat2Z.inj_add, IH, Hsize. reflexivity.
Qed.

Lemma blockBody_split fs block blockNum :
  blockBody fs block blockNum =
    firstn (payloadOffset (Block.Files block)) (blockBody fs block blockNum) ++
    payload fs (Block.Files block) /\
  length (firstn (payloadOffset (Block.Files block)) (blockBody fs block blockNum)) =
    payloadOffset (Block.Files block).
Proof.
  unfold blockBody, payloadOffset. rewrite app_assoc.
  set (head := (le_bytes 4 blockNum ++ le_bytes 4 (Z.of_nat (length (Block.Files block)))) ++
               concat (map writeMetadata (Block.Files block))).
  assert (Hlen : length head = (8 + list_sum (map recordLength (Block.Files block)))%nat).
  { unfold head. rewrite !length_app, !length_le_bytes, length_records. lia. }
  rewrite <- Hlen, firstn_app, Nat.sub_diag, firstn_all. cbn [firstn].
  rewrite app_nil_r. split; reflexivity.
Qed.

(** X10. The layout of a block file [Pack] wrote: a header of 8 bytes, a
    record of 64 bytes and the bytes of the path for each file, the bytes
    of the files, and a footer of 32 bytes. The file is thus longer than
    the sizes of its files add up to, by 40 bytes and the records: the
    capacity bounds the payload, not the block file. *)
Theorem block_file_length sort_Slice opts fs walk :
  sortsBySizeDesc sort_Slice ->
  wfSource fs walk ->
  Forall (fun w =>
            Z.of_nat (length (w_bytes w)) =
              Z.of_nat (payloadOffset (Block.Files (w_block w))) +
              sumSizes (Block.Files (w_block w)) + 32 /\
            Forall (fun m => recordLength m =
                             (64 + length (list_byte_of_string (FileMetadata.Path m)))%nat)
              (Block.Files (w_block w)))
    (Pack sort_Slice opts fs walk).1.
Proof.
  intros sorts Hsrc. destruct walk as [|p0 walk0] eqn:Ewalk; [constructor|].
  rewrite <- Ewalk in *. assert (Hne : walk <> []) by (rewrite Ewalk; discriminate).
  clear Ewalk p0 walk0.
  eapply Forall_impl; [apply (Pack_packedBlocks sort_Slice opts fs walk sorts Hsrc Hne)|].
  intros w (Hst & Hwf & _ & Hbytes). split.
  - rewrite Hbytes, length_app, length_Sum256.
    destruct (blockBody_split fs (w_block w) (w_num w)) as [Hsplit Hlen].
    rewrite Hsplit, length_app, Hlen, !Nat2Z.inj_add, (length_payload _ _ Hst).
    change (Z.of_nat SHA256.Size) with 32. lia.
  - eapply Forall_impl; [exact Hwf|]. intros m (_ & _ & _ & _ & _ & Hsum).
    unfold recordLength. rewrite Hsum. change SHA256.Size with 32%nat. lia.
Qed.

Lemma block_file_length_witness :
  Forall (fun w =>
            Z.of_nat (length (w_bytes w)) =
              Z.of_nat (payloadOffset (Block.Files (w_block w))) +
              sumSizes (Block.Files (w_block w)) + 32 /\
            Forall (fun m => recordLength m =
                             (64 + length (list_byte_of_string (FileMetadata.Path m)))%nat)
              (Block.Files (w_block w)))
    (Pack stableSort Example.opts Example.fs Example.walk).1.
Proof.
  apply (block_file_length stableSort Example.opts Example.fs Example.walk).
  - exact stableSort_sorts.
  - exact Example_wfSource.
Defined.

Lemma contiguous_lower start files m :
  contiguous start files -> In m files -> start <= FileMetadata.Offset m.
Proof.
  revert start. induction files as [|x files IH]; intros start Hc Hin; [destruct Hin|].
  destruct Hc as (Hoff & Hle & Hc). destruct Hin as [->|Hin]; [lia|].
  specialize (IH _ Hc Hin). lia.
Qed.

Lemma payload_at fs files : forall start m,
  contiguous start files -> Forall (stored fs) files -> In m files ->
  firstn (Z.to_nat (FileMetadata.Size m))
    (skipn (Z.to_nat (FileMetadata.Offset m - start)) (payload fs files)) = contentOf fs m.
Proof.
  induction files as [|x files IH]; intros start m Hc Hst Hin; [destruct Hin|].
  destruct Hc as (Hoff & Hle & Hc). apply Forall_cons in Hst as [Hx Hst].
  pose proof Hx as (file & Hfile & _ & Hsize).
  unfold payload. cbn [map concat]. rewrite Hfile. fold (payload fs files).
  destruct Hin as [->|Hin].
  - rewrite Hoff, Z.sub_diag. change (Z.to_nat 0) with 0%nat. rewrite skipn_O.
    unfold contentOf. rewrite Hfile, Hsize, Nat2Z.id, firstn_app, Nat.sub_diag, firstn_all.
    cbn [firstn]. apply app_nil_r.
  - pose proof (contiguous_lower _ _ _ Hc Hin) as Hlow.
    replace (Z.to_nat (FileMetadata.Offset m - start))
      with (length (data file) + Z.to_nat (FileMetadata.Offset m -
                                             (start + FileMetadata.Size x)))%nat by lia.
    rewrite skipn_app, skipn_all2 by lia. cbn [app].
    replace (length (data file) +
             Z.to_nat (FileMetadata.Offset m - (start + FileMetadata.Size x)) -
             length (data file))%nat
      with (Z.to_nat (FileMetadata.Offset m - (start + FileMetadata.Size x))) by lia.
    apply (IH _ _ Hc Hst Hin).
Qed.

(** X11. In a block file [Pack] wrote, the [Offset] and [Size] of a record
    locate the bytes of its file: they are the [Size] bytes that start
    [Offset] bytes into the payload section, which follows the header and
    the records. *)
Theorem offset_locates_content sort_Slice opts fs walk :
  sortsBySizeDesc sort_Slice ->
  wfSource fs walk ->
  2 * BlockSize opts <= Int.max_int64 ->
  Forall (fun w =>
            forall m file,
              In m (Block.Files (w_block w)) ->
              fs !! FileMetadata.Path m = Some file ->
              firstn (Z.to_nat (FileMetadata.Size m))
                (skipn (payloadOffset (Block.Files (w_block w)) +
                        Z.to_nat (FileMetadata.Offset m)) (w_bytes w)) = data file)
    (Pack sort_Slice opts fs walk).1.
Proof.
  intros sorts Hsrc Hcap. destruct walk as [|p0 walk0] eqn:Ewalk; [constructor|].
  rewrite <- Ewalk in *. assert (Hne : walk <> []) by (rewrite Ewalk; discriminate).
  clear Ewalk p0 walk0.
  pose proof (Pack_packedBlocks sort_Slice opts fs walk sorts Hsrc Hne) as Hpacked.
  pose proof (Pack_wellFormed sort_Slice opts fs walk sorts Hcap) as Hwf.
  rewrite List.Forall_forall in Hpacked, Hwf |- *. intros w Hw m file Hm Hfile.
  destruct (Hpacked w Hw) as (Hst & _ & _ & Hbytes).
  destruct (Hwf w Hw) as (_ & _ & _ & _ & Hc).
  destruct (blockBody_split fs (w_block w) (w_num w)) as [Hsplit Hlen].
  set (head := firstn (payloadOffset (Block.Files (w_block w)))
                 (blockBody fs (w_block w) (w_num w))) in *.
  rewrite Hbytes, Hsplit, <- app_assoc, <- Hlen.
  set (footer := SHA256.Sum256 _).
  assert (Hskip : forall k (l1 l2 : list byte), skipn (length l1 + k) (l1 ++ l2) = skipn k l2).
  { intros k l1 l2. rewrite Nat.add_comm, <- skipn_skipn, skipn_app, skipn_all, Nat.sub_diag.
    reflexivity. }
  rewrite Hskip.
  pose proof (payload_at fs _ 0 m Hc Hst Hm) as Hat. rewrite Z.sub_0_r in Hat.
  pose proof (contiguous_lower _ _ _ Hc Hm) as Hlow.
  assert (Hsz : FileMetadata.Size m = Z.of_nat (length (contentOf fs m))).
  { rewrite List.Forall_forall in Hst. destruct (Hst m Hm) as (file' & Hfile' & _ & Hsize).
    unfold contentOf. rewrite Hfile'. exact Hsize. }
  assert (Hcontent : contentOf fs m = data file) by (unfold contentOf; rewrite Hfile; reflexivity).
  rewrite <- Hcontent, <- Hat.
  rewrite skipn_app, firstn_app.
  set (pl := payload fs (Block.Files (w_block w))) in *.
  assert (Hbound : (Z.to_nat (FileMetadata.Size m) <=
                    length (skipn (Z.to_nat (FileMetadata.Offset m)) pl))%nat).
  { apply (f_equal (@length byte)) in Hat. rewrite length_firstn in Hat. lia. }
  replace (Z.to_nat (FileMetadata.Size m) -
           length (skipn (Z.to_nat (FileMetadata.Offset m)) pl))%nat with O by lia.
  cbn [firstn]. apply app_nil_r.
Qed.

Lemma offset_locates_content_witness :
  Forall (fun w =>
            forall m file,
              In m (Block.Files (w_block w)) ->
              Example.fs !! FileMetadata.Path m = Some file ->
              firstn (Z.to_nat (FileMetadata.Size m))
                (skipn (payloadOffset (Block.Files (w_block w)) +
                        Z.to_nat (FileMetadata.Offset m)) (w_bytes w)) = data file)
    (Pack stableSort Example.opts Example.fs Example.walk).1.
Proof.
  apply (offset_locates_content stableSort Example.opts Example.fs Example.walk).
  - exact stableSort_sorts.
  - exact Example_wfSource.
  - vm_compute. discriminate.
Defined.

(** ** How full the blocks are *)

Lemma placement_nonempty cap files : forall n cur s,
  files <> [] -> placement cap files n cur s <> [].
Proof.
  induction files as [|f rest IH]; intros n cur s Hne; [contradiction|].
  cbn [placement].
  destruct (Int.int64 (s + FileInfo.Size f) >? cap); cbv beta iota zeta;
    destruct rest as [|f' rest']; try discriminate.
  cbn [app]. apply IH. discriminate.
Qed.

Lemma removelast_map {A B} (f : A -> B) l : removelast (map f l) = map f (removelast l).
Proof.
  induction l as [|x l IH]; [reflexivity|].
  cbn [map removelast]. destruct l as [|y l]; [reflexivity|].
  cbn [map] in *. rewrite IH. reflexivity.
Qed.

Lemma In_removelast {A} (x : A) l : In x (removelast l) -> In x l.
Proof.
  induction l as [|y l IH]; [intros []|].
  cbn [removelast]. destruct l as [|z l]; [intros []|].
  intros [->|H]; [left; reflexivity|right; apply IH, H].
Qed.

Lemma length_removelast {A} (l : list A) : length (removelast l) = (length l - 1)%nat.
Proof.
  induction l as [|y l IH]; [reflexivity|].
  cbn [removelast]. destruct l as [|z l]; [reflexivity|].
  cbn [length] in *. rewrite IH. lia.
Qed.

(** The placement of a sequence sorted by size, largest first: a block is
    closed only when it holds more than half the capacity. *)
Lemma placement_half_full cap : forall files n cur s,
  2 * cap <= Int.max_int64 ->
  StronglySorted (fun x y => bySizeDesc y x = false) files ->
  Forall (fun f => 0 <= FileInfo.Size f <= cap) files ->
  0 <= s <= cap ->
  s = 0 \/ Forall (fun f => FileInfo.Size f <= s) files ->
  Forall (fun g => cap < 2 * g.2) (removelast (placement cap files n cur s)).
Proof.
  induction files as [|f rest IH]; intros n cur s Hcap Hsorted HG Hs Hinv; [constructor|].
  apply Forall_cons in HG as [Hf HG].
  apply StronglySorted_inv in Hsorted as [Hsorted Hhead].
  assert (Hrest : Forall (fun y => FileInfo.Size y <= FileInfo.Size f) rest).
  { eapply Forall_impl; [exact Hhead|]. cbn. intros y Hy. unfold bySizeDesc in Hy. lia. }
  assert (Hid : forall z, 0 <= z <= 2 * cap -> Int.int64 z = z).
  { intros z Hz. apply int64_id. unfold Int.is_int64, Int.min_int64, Int.max_int64 in *. lia. }
  cbn [placement].
  destruct (Z.gtb_spec (Int.int64 (s + FileInfo.Size f)) cap) as [Hgt|Hle];
    cbv beta iota zeta.
  - rewrite Hid in Hgt by lia.
    assert (Hhalf : cap < 2 * s).
    { destruct Hinv as [->|Hinv]; [lia|]. apply Forall_cons in Hinv as [Hfs _]. lia. }
    rewrite Z.add_0_l, (Hid (FileInfo.Size f)) by lia.
    destruct rest as [|f' rest']; [cbn; constructor; [exact Hhalf|constructor]|].
    rewrite removelast_app by (apply placement_nonempty; discriminate).
    cbn [app]. constructor; [exact Hhalf|].
    apply IH; try assumption. right. exact Hrest.
  - rewrite Hid in Hle |- * by lia.
    destruct rest as [|f' rest']; [constructor|].
    cbn [app]. apply IH; try assumption; [lia|]. right.
    eapply Forall_impl; [exact Hrest|]. cbn. intros y Hy. lia.
Qed.

Section PackedBlocks.

Variable sort_Slice : (FileInfo.t -> FileInfo.t -> bool) -> list FileInfo.t -> list FileInfo.t.
Hypothesis sorts : sortsBySizeDesc sort_Slice.
Variable opts : PackerOptions.
Variable fs : gmap string File.
Variable walk : list string.
Hypothesis source : wfSource fs walk.
Hypothesis capacity : 2 * BlockSize opts <= Int.max_int64.

Lemma Pack_sealed_half_full :
  Forall (fun w => BlockSize opts < 2 * sumSizes (Block.Files (w_block w)))
    (sealedBlocks (Pack sort_Slice opts fs walk).1).
Proof.
  pose proof (Pack_wellFormed sort_Slice opts fs walk sorts capacity) as Hwf.
  assert (Hsize : Forall (fun w => BlockSize opts < 2 * Block.Size (w_block w))
                    (sealedBlocks (Pack sort_Slice opts fs walk).1)).
  { unfold Pack. destruct (length walk =? 0)%nat; [constructor|].
    destruct (collectFileInfo_readable opts fs walk (walk_readable fs walk source))
      as (infos & Hc & _ & Hinfos).
    rewrite Hc. unfold packSorted. destruct (sorts infos) as [Hperm Hsorted].
    set (sorted := sort_Slice bySizeDesc infos) in *.
    assert (Hread : Forall (fun f => is_Some (fs !! FileInfo.Path f)) sorted).
    { apply (Forall_Permutation _ _ _ Hperm). eapply Forall_impl; [exact Hinfos|].
      intros f (file & Hfile & _). exists file. exact Hfile. }
    pose proof (placement_half_full (BlockSize opts) sorted 1 [] 0 capacity Hsorted) as Hpl.
    assert (Hcap0 : sorted = [] \/ 0 <= BlockSize opts).
    { destruct sorted as [|f l] eqn:E; [left; reflexivity|right].
      pose proof (collectFileInfo_sizes _ _ _ _ Hc) as Hs.
      apply (Forall_Permutation _ _ _ Hperm) in Hs. apply Forall_cons in Hs as [Hf _]. lia. }
    destruct Hcap0 as [E|Hcap0]; [rewrite E; constructor|].
    specialize (Hpl (Forall_Permutation _ _ _ Hperm (collectFileInfo_sizes _ _ _ _ Hc))
                  ltac:(lia) (or_introl eq_refl)).
    unfold sealedBlocks.
    assert (Hmap : Forall (fun t : Z * list (string * Z * Time * Z) * Z => BlockSize opts < 2 * t.2)
                     (map placed (removelast (packFiles opts fs sorted).1))).
    { rewrite <- removelast_map, (packFiles_placement _ _ _ Hread), removelast_map.
      rewrite List.Forall_forall in Hpl |- *. intros t Ht.
      apply in_map_iff in Ht as (g & <- & Hg). cbn. apply Hpl, Hg. }
    rewrite List.Forall_forall in Hmap |- *. intros w Hw.
    apply (Hmap (placed w)), in_map, Hw. }
  unfold sealedBlocks in *. rewrite List.Forall_forall in Hsize, Hwf |- *. intros w Hw.
  destruct (Hwf w (In_removelast _ _ Hw)) as (_ & _ & <- & _). apply Hsize, Hw.
Qed.

Lemma sumSizes_nonneg start files : contiguous start files -> 0 <= sumSizes files.
Proof.
  revert start. induction files as [|m files IH]; intros start Hc; [cbn; lia|].
  destruct Hc as (_ & Hle & Hc). specialize (IH _ Hc).
  unfold sumSizes, sizes in *. cbn [map fold_right]. lia.
Qed.

Lemma sumSizes_concat (blocks : list (list FileMetadata.t)) :
  sumSizes (concat blocks) = fold_right Z.add 0 (map sumSizes blocks).
Proof.
  induction blocks as [|b blocks IH]; [reflexivity|].
  cbn [concat map fold_right]. rewrite <- IH. unfold sumSizes, sizes.
  rewrite map_app, fold_right_app.
  generalize (map FileMetadata.Size b). intros l. induction l as [|x l IHl]; cbn; lia.
Qed.

Lemma sum_Permutation (l l' : list Z) :
  Permutation l l' -> fold_right Z.add 0 l = fold_right Z.add 0 l'.
Proof. induction 1; cbn; lia. Qed.

(** The sizes of the records add up to the sizes of the files that fit. *)
Lemma Pack_total :
  sumSizes (recordsOf (Pack sort_Slice opts fs walk).1) = packedSize opts fs walk.
Proof.
  destruct walk as [|p0 walk0] eqn:Ewalk; [reflexivity|].
  rewrite <- Ewalk in *. assert (Hne : walk <> []) by (rewrite Ewalk; discriminate).
  clear Ewalk p0 walk0.
  destruct (Pack_records sort_Slice sorts opts fs walk source Hne) as (_ & _ & Hfrom & Hperm).
  unfold packedSize. set (sz := fun p => match fs !! p with
                                         | Some f => Z.of_nat (length (data f))
                                         | None => 0
                                         end).
  rewrite <- (sum_Permutation _ _ (Permutation_map sz Hperm)), map_map.
  unfold sumSizes, sizes. f_equal. apply map_ext_in. intros m Hm.
  rewrite List.Forall_forall in Hfrom. destruct (Hfrom m Hm) as (file & Hfile & _ & Hsize & _).
  unfold sz. rewrite Hfile. exact Hsize.
Qed.

Lemma sum_removelast (l : list Z) :
  Forall (fun z => 0 <= z) l -> fold_right Z.add 0 (removelast l) <= fold_right Z.add 0 l.
Proof.
  induction 1 as [|x l Hx Hl IH]; [reflexivity|].
  cbn [removelast]. destruct l as [|y l]; [cbn; lia|].
  cbn [fold_right] in *. lia.
Qed.

Lemma sum_bounds (lo hi : Z) (l : list Z) :
  Forall (fun z => lo <= z <= hi) l ->
  Z.of_nat (length l) * lo <= fold_right Z.add 0 l <= Z.of_nat (length l) * hi.
Proof.
  induction 1 as [|x l Hx _ IH]; [cbn; lia|].
  cbn [fold_right length]. rewrite Nat2Z.inj_succ. lia.
Qed.

End PackedBlocks.

(** X12. [Pack] sorts the files by size, largest first, and fills one
    block after the other; so every block it closes before the last one
    holds files of more than half the capacity in total. *)
Theorem Pack_blocks_half_full sort_Slice opts fs walk :
  sortsBySizeDesc sort_Slice ->
  wfSource fs walk ->
  2 * BlockSize opts <= Int.max_int64 ->
  Forall (fun w => BlockSize opts < 2 * sumSizes (Block.Files (w_block w)))
    (sealedBlocks (Pack sort_Slice opts fs walk).1).
Proof. intros sorts Hsrc Hcap. apply Pack_sealed_half_full; assumption. Qed.

Lemma Pack_blocks_half_full_witness :
  Forall (fun w => 10 < 2 * sumSizes (Block.Files (w_block w)))
    (sealedBlocks (Pack stableSort Example.opts Example.fs Example.walk).1).
Proof.
  apply (Pack_blocks_half_full stableSort Example.opts Example.fs Example.walk).
  - exact stableSort_sorts.
  - exact Example_wfSource.
  - vm_compute. discriminate.
Defined.

(** X13. The number of block files [Pack] writes, against the total size
    of the files that fit in a block: the blocks hold that total, at most
    the capacity each, and each block before the last one holds more than
    half the capacity. So [Pack] writes at least total/capacity blocks and
    fewer than 2*total/capacity + 1. *)
Theorem Pack_block_count sort_Slice opts fs walk :
  sortsBySizeDesc sort_Slice ->
  wfSource fs walk ->
  2 * BlockSize opts <= Int.max_int64 ->
  let blocks := (Pack sort_Slice opts fs walk).1 in
  fold_right Z.add 0 (map (fun w => sumSizes (Block.Files (w_block w))) blocks) =
    packedSize opts fs walk /\
  packedSize opts fs walk <= Z.of_nat (length blocks) * BlockSize opts /\
  Z.of_nat (length (sealedBlocks blocks)) * (BlockSize opts + 1) <= 2 * packedSize opts fs walk /\
  length (sealedBlocks blocks) = (length blocks - 1)%nat.
Proof.
  intros sorts Hsrc Hcap blocks.
  pose proof (Pack_wellFormed sort_Slice opts fs walk sorts Hcap) as Hwf.
  pose proof (Pack_sealed_half_full sort_Slice sorts opts fs walk Hsrc Hcap) as Hhalf.
  pose proof (Pack_total sort_Slice sorts opts fs walk Hsrc) as Htotal.
  fold blocks in Hwf, Hhalf, Htotal.
  set (S := fun w => sumSizes (Block.Files (w_block w))) in *.
  assert (Hsum : fold_right Z.add 0 (map S blocks) = packedSize opts fs walk).
  { rewrite <- Htotal. unfold recordsOf. rewrite sumSizes_concat, map_map. reflexivity. }
  assert (Hrange : Forall (fun z => 0 <= z <= BlockSize opts) (map S blocks)).
  { rewrite List.Forall_forall in Hwf |- *. intros z Hz.
    apply in_map_iff in Hz as (w & <- & Hw). destruct (Hwf w Hw) as (_ & _ & _ & Hle & Hc).
    split; [apply (sumSizes_nonneg _ _ Hc)|exact Hle]. }
  split; [exact Hsum|]. split; [|split].
  - destruct (sum_bounds 0 (BlockSize opts) _ Hrange) as [_ Hup].
    rewrite length_map, Hsum in Hup. exact Hup.
  - assert (Hlow2 : Forall (fun z => BlockSize opts + 1 <= 2 * z)
                      (map S (sealedBlocks blocks))).
    { unfold sealedBlocks in *. rewrite List.Forall_forall in Hhalf |- *. intros z Hz.
      apply in_map_iff in Hz as (w & <- & Hw). specialize (Hhalf w Hw). unfold S. lia. }
    assert (Hsealed : Z.of_nat (length (map S (sealedBlocks blocks))) * (BlockSize opts + 1) <=
                      2 * fold_right Z.add 0 (map S (sealedBlocks blocks))).
    { induction Hlow2 as [|z l Hz _ IH]; [cbn; lia|].
      cbn [length fold_right]. rewrite Nat2Z.inj_succ. lia. }
    rewrite length_map in Hsealed.
    assert (Hle : fold_right Z.add 0 (map S (sealedBlocks blocks)) <=
                  fold_right Z.add 0 (map S blocks)).
    { unfold sealedBlocks. rewrite <- removelast_map. apply sum_removelast.
      eapply Forall_impl; [exact Hrange|]. cbn. intros z Hz. lia. }
    lia.
  - apply length_removelast.
Qed.

Lemma Pack_block_count_witness :
  let blocks := (Pack stableSort Example.opts Example.fs Example.walk).1 in
  fold_right Z.add 0 (map (fun w => sumSizes (Block.Files (w_block w))) blocks) =
    packedSize Example.opts Example.fs Example.walk /\
  packedSize Example.opts Example.fs Example.walk <=
    Z.of_nat (length blocks) * BlockSize Example.opts /\
  Z.of_nat (length (sealedBlocks blocks)) * (BlockSize Example.opts + 1) <=
    2 * packedSize Example.opts Example.fs Example.walk /\
  length (sealedBlocks blocks) = (length blocks - 1)%nat.
Proof.
  apply (Pack_block_count stableSort Example.opts Example.fs Example.walk).
  - exact stableSort_sorts.
  - exact Example_wfSource.
  - vm_compute. discriminate.
Defined.

(** X14. [Pack] places every file of the walk that fits in a block in
    exactly one block, once, and no other file: the paths of the records
    of all the block files have no duplicate, and a path is among them
    exactly when it is a path of the walk whose file is not larger than
    the capacity. *)
Theorem Pack_places_each_file_once sort_Slice opts fs walk :
  sortsBySizeDesc sort_Slice ->
  wfSource fs walk ->
  let paths := map FileMetadata.Path (recordsOf (Pack sort_Slice opts fs walk).1) in
  List.NoDup paths /\
  forall p, In p paths <->
            In p walk /\
            exists file, fs !! p = Some file /\
                         Z.of_nat (length (data file)) <= BlockSize opts.
Proof.
  intros sorts Hsrc paths.
  assert (Hperm : Permutation paths (List.filter (fits opts fs) walk)).
  { unfold paths. clear paths. destruct walk as [|p0 walk0] eqn:Ewalk; [reflexivity|].
    rewrite <- Ewalk in *. assert (Hne : walk <> []) by (rewrite Ewalk; discriminate).
    apply (Pack_records sort_Slice sorts opts fs walk Hsrc Hne). }
  split.
  - eapply Permutation_NoDup; [symmetry; exact Hperm|].
    apply List.NoDup_filter. apply Hsrc.
  - intros p. split.
    + intros Hin. apply (Permutation_in _ Hperm) in Hin.
      apply filter_In in Hin as [Hin Hfit]. split; [exact Hin|].
      unfold fits in Hfit. destruct (fs !! p) as [file|]; [|discriminate].
      exists file. split; [reflexivity|].
      destruct (Z.gtb_spec (Z.of_nat (length (data file))) (BlockSize opts)); [discriminate|lia].
    + intros (Hin & file & Hfile & Hsize).
      apply (Permutation_in _ (Permutation_sym Hperm)). apply filter_In. split; [exact Hin|].
      unfold fits. rewrite Hfile.
      destruct (Z.gtb_spec (Z.of_nat (length (data file))) (BlockSize opts)); [lia|reflexivity].
Qed.

Lemma Pack_places_each_file_once_witness :
  let paths := map FileMetadata.Path
                 (recordsOf (Pack stableSort RoundTripExample.opts Example.fs Example.walk).1) in
  List.NoDup paths /\
  forall p, In p paths <->
            In p Example.walk /\
            exists file, Example.fs !! p = Some file /\
                         Z.of_nat (length (data file)) <= BlockSize RoundTripExample.opts.
Proof.
  apply (Pack_places_each_file_once stableSort RoundTripExample.opts Example.fs Example.walk).
  - exact stableSort_sorts.
  - exact Example_wfSource.
Defined.

Lemma collectFileInfo_missing opts fs pre p post :
  Forall (fun q => is_Some (fs !! q)) pre ->
  fs !! p = None ->
  collectFileInfo opts fs (pre ++ p :: post) =
    inr (ErrorfW "error getting file info: %w" [] (PathError "stat" p)).
Proof.
  intros Hpre Hp. induction Hpre as [|q pre [file Hq] _ IH].
  - cbn [app collectFileInfo]. rewrite Hp. reflexivity.
  - cbn [app collectFileInfo]. rewrite Hq, IH. reflexivity.
Qed.

(** X15. When a file of the walk cannot be examined any more, [Pack]
    writes no block file at all and returns the error of [os.Stat] for the
    first such file, wrapped by [collectFileInfo] and by [Pack]; the sizes
    of the other files do not matter. *)
Theorem Pack_stat_error sort_Slice opts fs pre p post :
  Forall (fun q => is_Some (fs !! q)) pre ->
  fs !! p = None ->
  Pack sort_Slice opts fs (pre ++ p :: post) =
    ([], Some (ErrorfW "error collecting file info: %w" []
                 (ErrorfW "error getting file info: %w" [] (PathError "stat" p)))).
Proof.
  intros Hpre Hp. unfold Pack.
  destruct (Nat.eqb_spec (length (pre ++ p :: post)) 0) as [E|_].
  { rewrite length_app in E. cbn in E. lia. }
  rewrite (collectFileInfo_missing _ _ _ _ _ Hpre Hp). reflexivity.
Qed.

Lemma Pack_stat_error_witness :
  Pack stableSort Example.opts Example.fs (["src/a.txt"] ++ "src/gone" :: ["src/b.txt"]) =
    ([], Some (ErrorfW "error collecting file info: %w" []
                 (ErrorfW "error getting file info: %w" [] (PathError "stat" "src/gone")))).
Proof.
  apply (Pack_stat_error stableSort Example.opts Example.fs ["src/a.txt"] "src/gone"
           ["src/b.txt"]).
  - repeat constructor. vm_compute. eexists. reflexivity.
  - vm_compute. reflexivity.
Defined.

(** ** The codec *)

(** X16. Encoding a record and decoding it again. A record whose fields
    are values of their Go types takes 64 bytes and the bytes of its path;
    [readMetadata] reads exactly these bytes and returns the path, size,
    offset, mode and checksum that were written. The modification time
    comes back in whole seconds, and the block ID, which is not written,
    comes back as zero. *)
Theorem writeMetadata_readMetadata m rest :
  wfMetadata m ->
  readMetadata (writeMetadata m ++ rest) =
    Ok (FileMetadata.mk (FileMetadata.Path m) (FileMetadata.Size m)
          (mkTime (sec (FileMetadata.ModTime m)) 0) (FileMetadata.Checksum m)
          (FileMetadata.Offset m) 0 (FileMetadata.Mode m), rest) /\
  length (writeMetadata m) = (64 + length (list_byte_of_string (FileMetadata.Path m)))%nat.
Proof.
  intros Hwf. split; [apply (readMetadata_writeMetadata m rest Hwf)|].
  destruct Hwf as (_ & _ & _ & _ & _ & Hsum).
  rewrite length_writeMetadata. unfold recordLength. rewrite Hsum.
  change SHA256.Size with 32%nat. lia.
Qed.

Lemma writeMetadata_readMetadata_witness :
  readMetadata (writeMetadata CorruptExample.mc ++ Example.bytes "rest") =
    Ok (FileMetadata.mk "src/c.txt" 4 (mkTime 1700000200 0)
          (SHA256.Sum256 (Example.bytes "char")) 5 0 420, Example.bytes "rest") /\
  length (writeMetadata CorruptExample.mc) = (64 + 9)%nat.
Proof.
  apply (writeMetadata_readMetadata CorruptExample.mc (Example.bytes "rest")).
  split; [vm_compute; discriminate|].
  split; [split; vm_compute; discriminate|].
  split; [split; vm_compute; discriminate|].
  split; [split; vm_compute; discriminate|].
  split; [split; vm_compute; [discriminate|reflexivity]|].
  apply length_Sum256.
Defined.

(** X17. Writing a block and decoding it again. When the files of the
    block can be read and its records have fields of their Go types,
    [writeBlock] succeeds, and decoding the bytes it wrote gives the
    records back, in their order, each as [readMetadata] returns it; the
    reader is left at the first byte of the payload section, which holds
    the bytes of the files in the order of the records and is followed by
    the digest of all that precedes. *)
Theorem writeBlock_decodeBlock fs block blockNum :
  Forall (fun m => is_Some (fs !! FileMetadata.Path m)) (Block.Files block) ->
  Forall wfMetadata (Block.Files block) ->
  Z.of_nat (length (Block.Files block)) <= Int.max_int32 ->
  (writeBlock fs block blockNum).2 = None /\
  decodeBlock (writeBlock fs block blockNum).1 =
    Ok (map decoded (Block.Files block),
        concat (map (contentOf fs) (Block.Files block)) ++
        SHA256.Sum256 (blockBody fs block blockNum)).
Proof.
  intros Hread Hwf Hlen. rewrite (writeBlock_readable _ _ _ Hread). cbn [fst snd].
  split; [reflexivity|]. apply (decodeBlock_encoded fs block blockNum _ Hwf Hlen).
Qed.

Lemma writeBlock_decodeBlock_witness :
  let block := Block.mk 1 [CorruptExample.mb; CorruptExample.mc] 9 in
  (writeBlock Example.fs block 1).2 = None /\
  decodeBlock (writeBlock Example.fs block 1).1 =
    Ok (map decoded (Block.Files block),
        concat (map (contentOf Example.fs) (Block.Files block)) ++
        SHA256.Sum256 (blockBody Example.fs block 1)).
Proof.
  intros block. apply (writeBlock_decodeBlock Example.fs block 1).
  - repeat constructor; vm_compute; eexists; reflexivity.
  - repeat (apply Forall_cons; split;
              [split; [vm_compute; discriminate|];
               split; [split; vm_compute; discriminate|];
               split; [split; vm_compute; discriminate|];
               split; [split; vm_compute; discriminate|];
               split; [split; vm_compute; [discriminate|reflexivity]|apply length_Sum256]|]).
    constructor.
  - vm_compute. discriminate.
Defined.

(** ** Extraction over what is already there *)

(** X18. [extractFile] over a file that exists already and can be opened
    for writing. The file is opened without truncation and keeps its mode:
    the bytes of the record are written over its start, the checksum is
    computed over the bytes written, and the call returns [nil]. When the
    file was longer than the record, its old bytes past the size of the
    record are still there after the call, so the file is not the file
    that was packed. *)
Theorem extractFile_keeps_tail
    filepath_Join umask now content rest outputDir metadata dest old :
  dest !! filepath_Join outputDir (FileMetadata.Path metadata) = Some old ->
  FileMetadata.Size metadata = Z.of_nat (length content) ->
  FileMetadata.Checksum metadata = SHA256.Sum256 content ->
  extractFile filepath_Join umask now (content ++ rest) outputDir metadata dest =
    (rest,
     <[filepath_Join outputDir (FileMetadata.Path metadata) :=
         mkFile (content ++ skipn (length content) (data old)) (mode old)
           (FileMetadata.ModTime metadata)]> dest,
     None) /\
  ((length content < length (data old))%nat ->
   content ++ skipn (length content) (data old) <> content).
Proof.
  intros Hold Hsize Hsum. split.
  - unfold extractFile, openFile. rewrite Hold, Hsize, CopyN_app. cbv beta iota zeta.
    rewrite Hsum.
    replace (bytes_Equal (SHA256.Sum256 content) (SHA256.Sum256 content))
      with true by (symmetry; apply bytesEqual_eq; reflexivity).
    cbn [negb]. unfold writeAt0. cbn [data mode]. rewrite insert_insert_eq. reflexivity.
  - intros Hlen E. apply (f_equal (@length byte)) in E.
    rewrite length_app, length_skipn in E. lia.
Qed.

Lemma extractFile_keeps_tail_witness :
  let old := mkFile (Example.bytes "0123456789") 384 (mkTime 1600000000 0) in
  let dest : gmap string File := {[ "out/src/c.txt"%string := old ]} in
  extractFile RoundTripExample.join 18 RoundTripExample.now
    (Example.bytes "char" ++ Example.bytes "rest") "out" (decoded CorruptExample.mc) dest =
    (Example.bytes "rest",
     <["out/src/c.txt"%string :=
         mkFile (Example.bytes "char456789") 384 (mkTime 1700000200 0)]> dest,
     None) /\
  Example.bytes "char456789" <> Example.bytes "char".
Proof.
  intros old dest.
  destruct (extractFile_keeps_tail RoundTripExample.join 18 RoundTripExample.now
              (Example.bytes "char") (Example.bytes "rest") "out"
              (decoded CorruptExample.mc) dest old) as [H1 H2].
  - vm_compute. reflexivity.
  - reflexivity.
  - reflexivity.
  - split; [exact H1|]. apply H2. vm_compute. lia.
Defined.

Section UnpackDirectory.

Variable filepath_Join : string -> string -> string.
Variable umask : Z.
Variable now : Time.

Lemma unpackEntries_app opts outputDir pre : forall post dest dest',
  unpackEntries filepath_Join umask now opts pre outputDir dest = (dest', Success) ->
  unpackEntries filepath_Join umask now opts (pre ++ post) outputDir dest =
    unpackEntries filepath_Join umask now opts post outputDir dest'.
Proof.
  induction pre as [|e pre IH]; intros post dest dest' H.
  - cbn in H. injection H as <-. reflexivity.
  - cbn [app unpackEntries] in *.
    destruct (negb (IsDir e) && String.eqb (filepath_Ext (Name e)) ".beam");
      [|apply (IH _ _ _ H)].
    destruct (UnpackBlock filepath_Join umask now opts (Content e) outputDir dest)
      as [d [|err|msg]]; [apply (IH _ _ _ H)|discriminate|discriminate].
Qed.

End UnpackDirectory.

(** X19. [Unpack] on a directory reads the entries that are regular files
    with the extension [.beam], in the order of the directory, and nothing
    else. It returns at the first block that fails, with an error that
    names the block file; what the blocks before it and the failing block
    itself have written stays in the extraction root, and the entries
    after it are not read. *)
Theorem Unpack_directory filepath_Join umask now opts entries outputDir dest :
  Unpack filepath_Join umask now opts (Directory entries) outputDir dest =
    Unpack filepath_Join umask now opts (Directory (List.filter isBlockFile entries))
      outputDir dest /\
  (forall pre e post dest1 dest2 err,
     entries = pre ++ e :: post ->
     Unpack filepath_Join umask now opts (Directory pre) outputDir dest = (dest1, Success) ->
     isBlockFile e = true ->
     UnpackBlock filepath_Join umask now opts (Content e) outputDir dest1 =
       (dest2, Failure err) ->
     Unpack filepath_Join umask now opts (Directory entries) outputDir dest =
       (dest2, Failure (ErrorfW "error unpacking block %s: %w" [ArgS (Name e)] err))).
Proof.
  split; [apply unpackEntries_filter|].
  intros pre e post dest1 dest2 err -> Hpre He Herr. cbn [Unpack] in *.
  rewrite (unpackEntries_app _ _ _ _ _ _ _ _ _ Hpre). cbn [unpackEntries].
  fold (isBlockFile e). rewrite He, Herr. reflexivity.
Qed.

Section Again.

Variable filepath_Join : string -> string -> string.
Variable umask : Z.
Variable now : Time.
Variable fs : gmap string File.
Variable outputDir : string.

Local Abbreviation target m := (filepath_Join outputDir (FileMetadata.Path m)).

(** Extracting a stored file over the file an earlier extraction left
    writes the same bytes and sets the same time. *)
Lemma extractFile_again m rest dest :
  stored fs m ->
  dest !! target m = Some (restored umask fs m) ->
  extractFile filepath_Join umask now (contentOf fs m ++ rest) outputDir (decoded m) dest =
    (rest, dest, None).
Proof.
  intros (file & Hfile & Hsum & Hsize) Hthere.
  unfold extractFile, openFile.
  cbn [decoded FileMetadata.Path FileMetadata.Size FileMetadata.Mode FileMetadata.Checksum
         FileMetadata.ModTime].
  assert (Hrestored : restored umask fs m =
            mkFile (data file) (createdMode umask (FileMetadata.Mode m))
              (time_Unix (Unix (FileMetadata.ModTime m)) 0)).
  { unfold restored, contentOf. rewrite Hfile. reflexivity. }
  rewrite Hrestored in Hthere. rewrite Hthere. unfold contentOf. rewrite Hfile, Hsize, CopyN_app.
  cbv beta iota zeta. rewrite Hsum.
  replace (bytes_Equal (SHA256.Sum256 (data file)) (SHA256.Sum256 (data file)))
    with true by (symmetry; apply bytesEqual_eq; reflexivity).
  cbn [negb]. unfold writeAt0. cbn [data mode modTime].
  rewrite skipn_all, app_nil_r, insert_insert_eq.
  rewrite insert_id; [reflexivity|exact Hthere].
Qed.

Lemma extractFiles_again files : forall rest dest,
  Forall (stored fs) files ->
  Forall (fun m => dest !! target m = Some (restored umask fs m)) files ->
  extractFiles filepath_Join umask now (payload fs files ++ rest) outputDir
    (map decoded files) dest = (dest, None).
Proof.
  induction files as [|m files IH]; intros rest dest Hst Hthere; [reflexivity|].
  apply Forall_cons in Hst as [Hm Hst]. apply Forall_cons in Hthere as [Hfm Hthere].
  cbn [map extractFiles]. unfold payload. cbn [map concat]. rewrite <- app_assoc.
  fold (contentOf fs m). fold (payload fs files).
  rewrite (extractFile_again _ _ _ Hm Hfm). cbv beta iota zeta.
  apply IH; assumption.
Qed.

Lemma UnpackBlock_again opts w dest :
  packedBlock fs w ->
  Forall (fun m => dest !! target m = Some (restored umask fs m)) (Block.Files (w_block w)) ->
  UnpackBlock filepath_Join umask now opts (w_bytes w) outputDir dest = (dest, Success).
Proof.
  intros (Hst & Hwf & Hlen & Hbytes) Hthere. unfold UnpackBlock. rewrite Hbytes.
  assert (Hv : (if VerifyIntegrity opts
                then ValidateBlock (blockBody fs (w_block w) (w_num w) ++
                                    SHA256.Sum256 (blockBody fs (w_block w) (w_num w)))
                else None) = None).
  { destruct (VerifyIntegrity opts); [|reflexivity].
    apply ValidateBlock_digest.
    pose proof (length_blockBody fs (w_block w) (w_num w)). lia. }
  rewrite Hv, (decodeBlock_encoded _ _ _ _ Hwf Hlen).
  rewrite (extractFiles_again _ _ _ Hst Hthere). reflexivity.
Qed.

Lemma unpackEntries_again opts ws dest :
  Forall (packedBlock fs) ws ->
  Forall (fun e => isBlockFile e = true) (dirEntries ws) ->
  Forall (fun m => dest !! target m = Some (restored umask fs m)) (recordsOf ws) ->
  unpackEntries filepath_Join umask now opts (dirEntries ws) outputDir dest = (dest, Success).
Proof.
  induction ws as [|w ws IH]; intros Hp Hb Hthere; [reflexivity|].
  apply Forall_cons in Hp as [Hw Hp]. cbn [dirEntries map] in Hb.
  apply Forall_cons in Hb as [Hbw Hb].
  unfold recordsOf in Hthere. cbn [map concat] in Hthere.
  apply Forall_app in Hthere as [Hf1 Hf2].
  cbn [dirEntries map unpackEntries]. unfold isBlockFile in Hbw. cbn [Name IsDir] in Hbw |- *.
  rewrite Hbw. cbn [Content]. rewrite (UnpackBlock_again _ _ _ Hw Hf1).
  apply IH; assumption.
Qed.

(** A truncated payload: the stream ends before the bytes of the record
    are all there. *)
Lemma extractFile_short r m dest :
  Z.of_nat (length r) < FileMetadata.Size m ->
  dest !! target m = None ->
  extractFile filepath_Join umask now r outputDir m dest =
    ([], <[target m := mkFile r (createdMode umask (FileMetadata.Mode m)) now]> dest,
     Some (ErrorfW "error writing file: %w" [] io_EOF)).
Proof.
  intros Hshort Hfresh. unfold extractFile, openFile, CopyN. rewrite Hfresh.
  destruct (Z.leb_spec (FileMetadata.Size m) 0) as [Hle|Hgt]; [lia|].
  rewrite firstn_all2, skipn_all2 by lia.
  destruct (Z.ltb_spec (Z.of_nat (length r)) (FileMetadata.Size m)); [|lia].
  unfold writeAt0. cbn [data mode modTime]. rewrite skipn_nil, app_nil_r.
  destruct r; reflexivity.
Qed.

End Again.

(** X20. Running [Unpack] a second time is harmless. After [Pack] and an
    [Unpack] into a root where none of the files existed, a second
    [Unpack] of the same directory into the same root succeeds and leaves
    the root exactly as the first one left it. The files the first run
    created are writable by their owner, so the second run can open
    them. *)
Theorem Unpack_twice
    sort_Slice filepath_Join umask now opts fs walk outputDir dest entries :
  sortsBySizeDesc sort_Slice ->
  wfSource fs walk ->
  List.NoDup (map (filepath_Join outputDir) walk) ->
  Forall (fun p => dest !! filepath_Join outputDir p = None) walk ->
  Forall (fun p => forall file, fs !! p = Some file ->
                   Z.testbit (createdMode umask (mode file)) 7 = true) walk ->
  Permutation (List.filter isBlockFile entries) (dirEntries (Pack sort_Slice opts fs walk).1) ->
  exists dest',
    Unpack filepath_Join umask now opts (Directory entries) outputDir dest = (dest', Success) /\
    Unpack filepath_Join umask now opts (Directory entries) outputDir dest' = (dest', Success).
Proof.
  intros Hsort Hsrc Hnd Hfresh _ Hentries.
  cbn [Unpack].
  assert (Hfilter : forall d,
            unpackEntries filepath_Join umask now opts entries outputDir d =
            unpackEntries filepath_Join umask now opts (List.filter isBlockFile entries)
              outputDir d).
  { intros d. apply unpackEntries_filter. }
  destruct walk as [|p0 walk0] eqn:Ewalk.
  { cbn in Hentries. apply Permutation_sym, Permutation_nil in Hentries.
    exists dest. rewrite !Hfilter, Hentries. split; reflexivity. }
  rewrite <- Ewalk in *. assert (Hne : walk <> []) by (rewrite Ewalk; discriminate).
  clear Ewalk p0 walk0.
  destruct (Pack_records sort_Slice Hsort opts fs walk Hsrc Hne) as (_ & _ & _ & Hperm).
  pose proof (Pack_packedBlocks sort_Slice opts fs walk Hsort Hsrc Hne) as Hpacked.
  set (out := (Pack sort_Slice opts fs walk).1) in *.
  unfold dirEntries in Hentries.
  apply Permutation_map_inv in Hentries as (out' & Eout' & Hout').
  fold (dirEntries out') in Eout'.
  assert (Hrec : Permutation (recordsOf out') (recordsOf out))
    by (apply Permutation_recordsOf; symmetry; exact Hout').
  assert (Hpacked' : Forall (packedBlock fs) out').
  { rewrite List.Forall_forall in Hpacked |- *. intros w Hw. apply Hpacked.
    eapply Permutation_in; [symmetry; exact Hout'|exact Hw]. }
  assert (Hblock : Forall (fun e => isBlockFile e = true) (dirEntries out')).
  { rewrite <- Eout'. rewrite List.Forall_forall. intros e He.
    apply filter_In in He as [_ He]. exact He. }
  assert (Htargets : List.NoDup (map (fun m => filepath_Join outputDir (FileMetadata.Path m))
                                   (recordsOf out'))).
  { eapply Permutation_NoDup; [|apply (NoDup_map_filter (filepath_Join outputDir)
                                         (fits opts fs) walk Hnd)].
    rewrite <- (map_map FileMetadata.Path (filepath_Join outputDir)).
    apply Permutation_map. symmetry. etransitivity; [|exact Hperm].
    apply Permutation_map, Hrec. }
  exists (extracted filepath_Join umask fs outputDir (recordsOf out') dest).
  split.
  - rewrite Hfilter, Eout'. apply unpackEntries_packed; try assumption.
    rewrite List.Forall_forall in Hfresh |- *. intros m Hm. apply Hfresh.
    assert (Hin : In (FileMetadata.Path m) (List.filter (fits opts fs) walk)).
    { eapply Permutation_in; [exact Hperm|]. apply in_map.
      eapply Permutation_in; [exact Hrec|exact Hm]. }
    apply filter_In in Hin as [Hin _]. exact Hin.
  - rewrite Hfilter, Eout'. apply (unpackEntries_again filepath_Join umask now fs); try assumption.
    rewrite List.Forall_forall. intros m Hm. apply extracted_lookup; assumption.
Qed.

Lemma Unpack_twice_witness :
  exists dest',
    Unpack RoundTripExample.join RoundTripExample.umask RoundTripExample.now
      RoundTripExample.opts (Directory RoundTripExample.entries) "out" ∅ = (dest', Success) /\
    Unpack RoundTripExample.join RoundTripExample.umask RoundTripExample.now
      RoundTripExample.opts (Directory RoundTripExample.entries) "out" dest' = (dest', Success).
Proof.
  apply (Unpack_twice stableSort RoundTripExample.join RoundTripExample.umask
           RoundTripExample.now RoundTripExample.opts Example.fs Example.walk "out" ∅
           RoundTripExample.entries).
  - exact stableSort_sorts.
  - exact Example_wfSource.
  - repeat constructor; cbn; intuition discriminate.
  - repeat constructor.
  - repeat (apply Forall_cons; split;
              [intros file Hfile; vm_compute in Hfile; injection Hfile as <-;
               vm_compute; reflexivity|]).
    constructor.
  - unfold RoundTripExample.entries. cbn [List.filter].
    change (isBlockFile (mkDirEntry "unpack" true [])) with false. cbv iota.
    rewrite List.filter_app, filter_rev, dirEntries_isBlockFile. cbn [List.filter].
    change (isBlockFile (mkDirEntry "notes.txt" false (Example.bytes "not a block")))
      with false.
    cbv iota. rewrite app_nil_r. symmetry. apply Permutation_rev.
Defined.

(** X21. A truncated payload. When the stream ends before all the bytes of
    a record are there, [extractFile] returns [io.EOF], wrapped; the file
    it created stays in the extraction root with the bytes that were
    there, and its modification time is not set. *)
Theorem extractFile_truncated filepath_Join umask now r outputDir metadata dest :
  Z.of_nat (length r) < FileMetadata.Size metadata ->
  dest !! filepath_Join outputDir (FileMetadata.Path metadata) = None ->
  extractFile filepath_Join umask now r outputDir metadata dest =
    ([],
     <[filepath_Join outputDir (FileMetadata.Path metadata) :=
         mkFile r (createdMode umask (FileMetadata.Mode metadata)) now]> dest,
     Some (ErrorfW "error writing file: %w" [] io_EOF)).
Proof. apply extractFile_short. Qed.

Lemma extractFile_truncated_witness :
  extractFile RoundTripExample.join 18 RoundTripExample.now (Example.bytes "ch") "out"
    (decoded CorruptExample.mc) ∅ =
    ([],
     <["out/src/c.txt"%string := mkFile (Example.bytes "ch") 420 RoundTripExample.now]> ∅,
     Some (ErrorfW "error writing file: %w" [] io_EOF)).
Proof.
  apply (extractFile_truncated RoundTripExample.join 18 RoundTripExample.now
           (Example.bytes "ch") "out" (decoded CorruptExample.mc) ∅).
  - vm_compute. reflexivity.
  - reflexivity.
Defined.

(** ** The size strings of the test generator *)

Lemma find_Permutation {A} (p : A -> bool) (l l' : list A) :
  Permutation l l' ->
  (forall x y, In x l -> In y l -> p x = true -> p y = true -> x = y) ->
  find p l = find p l'.
Proof.
  induction 1 as [|x l l' Hperm IH|x y l|l1 l2 l3 H12 IH1 H23 IH2]; intros Huniq.
  - reflexivity.
  - cbn [find]. destruct (p x); [reflexivity|].
    apply IH. intros a b Ha Hb. apply Huniq; right; assumption.
  - cbn [find]. destruct (p x) eqn:Ex, (p y) eqn:Ey; try reflexivity.
    f_equal. apply Huniq; cbn; auto.
  - rewrite IH1 by exact Huniq. apply IH2.
    intros a b Ha Hb. apply Huniq; eapply Permutation_in;
      try (apply Permutation_sym; exact H12); assumption.
Qed.

Lemma hasPrefix_app p l : Generator.hasPrefix p (p ++ l) = true.
Proof.
  induction p as [|a p IH]; [reflexivity|].
  cbn [app Generator.hasPrefix]. rewrite Ascii.eqb_refl, IH. reflexivity.
Qed.

Lemma hasPrefix_inv p l : Generator.hasPrefix p l = true -> exists r, l = p ++ r.
Proof.
  revert l. induction p as [|a p IH]; intros l H; [exists l; reflexivity|].
  destruct l as [|b l]; [discriminate|]. cbn [Generator.hasPrefix] in H.
  apply andb_prop in H as [Hab H]. apply Ascii.eqb_eq in Hab. subst b.
  destruct (IH l H) as [r ->]. exists r. reflexivity.
Qed.

(** A text matches the pattern of a unit when, read from its end, it shows
    the unit, white space and then a digit. *)
Lemma matchUnit_inv u s :
  Generator.matchUnit u s = true ->
  exists r c r',
    rev (list_ascii_of_string s) = rev (list_ascii_of_string u) ++ r /\
    Generator.dropSpaces r = c :: r' /\ Generator.isDigit c = true.
Proof.
  unfold Generator.matchUnit.
  destruct (Generator.hasPrefix (rev (list_ascii_of_string u)) (rev (list_ascii_of_string s)))
    eqn:E; [|discriminate].
  apply hasPrefix_inv in E as [r E]. rewrite E.
  rewrite skipn_app, skipn_all, Nat.sub_diag, skipn_O. cbn [app].
  destruct (Generator.dropSpaces r) as [|c r'] eqn:Er; [intros H; discriminate H|].
  intros Hc. exists r, c, r'. split; [reflexivity|]. split; [exact Er|exact Hc].
Qed.

(** At most one unit matches a text. *)
Lemma matchUnit_unique s u1 u2 :
  In u1 Generator.unitNames -> In u2 Generator.unitNames ->
  Generator.matchUnit u1 s = true -> Generator.matchUnit u2 s = true -> u1 = u2.
Proof.
  intros H1 H2 M1 M2.
  apply matchUnit_inv in M1 as (r1 & c1 & r1' & E1 & D1 & G1).
  apply matchUnit_inv in M2 as (r2 & c2 & r2' & E2 & D2 & G2).
  rewrite E1 in E2. clear E1.
  unfold Generator.unitNames in H1, H2. cbn [In] in H1, H2.
  destruct H1 as [<- | [<- | [<- | [<- | [<- | []]]]]];
    destruct H2 as [<- | [<- | [<- | [<- | [<- | []]]]]];
    try reflexivity; cbn in E2; try discriminate E2; exfalso;
    injection E2 as E2; subst;
    first [ cbn in D1; injection D1 as <- _; vm_compute in G1; discriminate G1
          | cbn in D2; injection D2 as <- _; vm_compute in G2; discriminate G2 ].
Qed.

Section ParseSizeFacts.

Variable strings_ToUpper : string -> string.
Variable strings_TrimSpace : string -> string.

Local Abbreviation unitLoop := (Generator.unitLoop strings_TrimSpace).

(** The loop stops at the first unit, in the order of the iteration, that
    matches. *)
Lemma unitLoop_find order sizeStr :
  unitLoop order sizeStr =
    match find (fun u => Generator.matchUnit u sizeStr) order with
    | None => inr (""%string, 0)
    | Some u => unitLoop [u] sizeStr
    end.
Proof.
  induction order as [|u order IH]; [reflexivity|].
  cbn [Generator.unitLoop find].
  destruct (Generator.matchUnit u sizeStr) eqn:E; [|exact IH].
  cbn [Generator.unitLoop]. rewrite E. reflexivity.
Qed.

Lemma unitLoop_order order1 order2 sizeStr :
  Permutation order1 Generator.unitNames ->
  Permutation order2 Generator.unitNames ->
  unitLoop order1 sizeStr = unitLoop order2 sizeStr.
Proof.
  intros H1 H2. rewrite (unitLoop_find order1), (unitLoop_find order2).
  rewrite (find_Permutation _ order1 order2); [reflexivity| |].
  - etransitivity; [exact H1|symmetry; exact H2].
  - intros x y Hx Hy.
    apply matchUnit_unique; [apply (Permutation_in _ H1 Hx)|apply (Permutation_in _ H1 Hy)].
Qed.

End ParseSizeFacts.

(** X22. [parseSize] ranges over a map, and Go yields the keys of a map in
    an order of its choice; the result of [parseSize] does not depend on
    that order, because a size string matches the pattern of at most one
    unit. *)
Theorem parseSize_order strings_ToUpper strings_TrimSpace order1 order2 sizeStr :
  Permutation order1 Generator.unitNames ->
  Permutation order2 Generator.unitNames ->
  Generator.parseSize strings_ToUpper strings_TrimSpace order1 sizeStr =
    Generator.parseSize strings_ToUpper strings_TrimSpace order2 sizeStr.
Proof.
  intros H1 H2. unfold Generator.parseSize.
  rewrite (unitLoop_order strings_TrimSpace order1 order2 _ H1 H2). reflexivity.
Qed.

Lemma parseSize_order_witness :
  Generator.parseSize Generator.toUpperASCII Generator.trimSpaceASCII
    ["TB"; "GB"; "MB"; "KB"; "B"]%string "12 kb" =
  Generator.parseSize Generator.toUpperASCII Generator.trimSpaceASCII
    ["B"; "KB"; "MB"; "GB"; "TB"]%string "12 kb".
Proof.
  apply (parseSize_order Generator.toUpperASCII Generator.trimSpaceASCII
           ["TB"; "GB"; "MB"; "KB"; "B"]%string ["B"; "KB"; "MB"; "GB"; "TB"]%string "12 kb").
  - apply (Permutation_rev ["TB"; "GB"; "MB"; "KB"; "B"]%string).
  - reflexivity.
Defined.

Lemma isDigit_code c : Generator.isDigit c = true -> 48 <= Generator.code c <= 57.
Proof.
  unfold Generator.isDigit. intros H. apply andb_prop in H as [H1 H2]. lia.
Qed.

Lemma isRegexpSpace_code c :
  Generator.isRegexpSpace c = true -> Generator.code c <= 32.
Proof.
  unfold Generator.isRegexpSpace. intros H.
  repeat (apply orb_prop in H as [H|H]); lia.
Qed.

Lemma isRegexpSpace_isAsciiSpace c :
  Generator.isRegexpSpace c = true -> Generator.isAsciiSpace c = true.
Proof.
  unfold Generator.isRegexpSpace, Generator.isAsciiSpace. intros H.
  repeat (apply orb_prop in H as [H|H]); rewrite H; rewrite ?orb_true_r; reflexivity.
Qed.

Lemma isDigit_no_space c :
  Generator.isDigit c = true ->
  Generator.isRegexpSpace c = false /\ Generator.isAsciiSpace c = false.
Proof.
  intros H. apply isDigit_code in H.
  unfold Generator.isRegexpSpace, Generator.isAsciiSpace. split;
    repeat (apply orb_false_intro); lia.
Qed.

Lemma asciiUpper_below c : Generator.code c < 97 -> Generator.asciiUpper c = c.
Proof.
  intros H. unfold Generator.asciiUpper.
  destruct (Z.leb_spec 97 (Generator.code c)); [lia|reflexivity].
Qed.

Lemma map_asciiUpper_below cs :
  Forall (fun c => Generator.code c < 97) cs -> map Generator.asciiUpper cs = cs.
Proof.
  induction 1 as [|c cs Hc _ IH]; [reflexivity|].
  cbn [map]. rewrite (asciiUpper_below c Hc), IH. reflexivity.
Qed.

Lemma eqb_code a b : Generator.code a <> Generator.code b -> Ascii.eqb a b = false.
Proof.
  intros H. destruct (Ascii.eqb a b) eqn:E; [|reflexivity].
  apply Ascii.eqb_eq in E. subst b. contradiction.
Qed.

Lemma decimal_step_le cs : forall n,
  Forall (fun c => Generator.isDigit c = true) cs -> 0 <= n ->
  n <= fold_left (fun n c => n * 10 + (Generator.code c - 48)) cs n.
Proof.
  induction cs as [|c cs IH]; intros n Hd Hn; [cbn; lia|].
  apply Forall_cons in Hd as [Hc Hd]. apply isDigit_code in Hc.
  cbn [fold_left]. specialize (IH (n * 10 + (Generator.code c - 48)) Hd ltac:(lia)). lia.
Qed.

(** On a string of digits the loop of [ParseUint] computes the number the
    digits denote, as long as it fits in a [uint64]. *)
Lemma parseUintLoop_digits cs : forall n,
  Forall (fun c => Generator.isDigit c = true) cs -> 0 <= n ->
  fold_left (fun n c => n * 10 + (Generator.code c - 48)) cs n <= Generator.maxUint64 ->
  Generator.parseUintLoop cs n =
    inl (fold_left (fun n c => n * 10 + (Generator.code c - 48)) cs n).
Proof.
  induction cs as [|c cs IH]; intros n Hd Hn Hfit; [reflexivity|].
  apply Forall_cons in Hd as [Hc Hd]. cbn [Generator.parseUintLoop fold_left] in *.
  rewrite Hc. pose proof (isDigit_code c Hc) as Hcode.
  pose proof (decimal_step_le cs (n * 10 + (Generator.code c - 48)) Hd ltac:(lia)) as Hle.
  unfold Generator.maxUint64 in *.
  change (2 ^ 64) with 18446744073709551616 in *.
  change ((18446744073709551616 - 1) / 10 + 1) with 1844674407370955162.
  destruct (Z.leb_spec 1844674407370955162 n); [lia|].
  rewrite Z.mod_small by lia.
  destruct (Z.ltb_spec (n * 10 + (Generator.code c - 48)) (n * 10)); [lia|].
  destruct (Z.ltb_spec (18446744073709551616 - 1) (n * 10 + (Generator.code c - 48))); [lia|].
  cbn [orb]. apply IH; [exact Hd|lia|exact Hfit].
Qed.

Lemma ParseInt_digits cs :
  cs <> [] -> Forall (fun c => Generator.isDigit c = true) cs ->
  Generator.decimal cs <= Int.max_int64 ->
  Generator.ParseInt (string_of_list_ascii cs) = (Generator.decimal cs, None).
Proof.
  intros Hne Hd Hfit. unfold Generator.ParseInt.
  rewrite list_ascii_of_string_of_list_ascii.
  destruct cs as [|c cs]; [contradiction|].
  pose proof Hd as Hd'. apply Forall_cons in Hd' as [Hc _].
  pose proof (isDigit_code c Hc) as Hcode.
  rewrite (eqb_code c "+") by (change (Generator.code "+") with 43; lia).
  rewrite (eqb_code c "-") by (change (Generator.code "-") with 45; lia).
  unfold Generator.decimal in *.
  pose proof (decimal_step_le (c :: cs) 0 Hd ltac:(lia)) as Hpos.
  unfold Int.max_int64 in Hfit. change (2 ^ 63) with 9223372036854775808 in *.
  rewrite parseUintLoop_digits; [|exact Hd|lia|].
  - cbn [negb andb].
    destruct (Z.leb_spec 9223372036854775808
                (fold_left (fun n c0 => n * 10 + (Generator.code c0 - 48)) (c :: cs) 0));
      [lia|reflexivity].
  - unfold Generator.maxUint64. change (2 ^ 64) with 18446744073709551616. lia.
Qed.

Lemma rev_digits_head cs :
  cs <> [] -> Forall (fun c => Generator.isDigit c = true) cs ->
  exists c r, rev cs = c :: r /\ Generator.isDigit c = true.
Proof.
  intros Hne Hd. destruct (rev cs) as [|c r] eqn:E.
  - apply (f_equal (@rev ascii)) in E. rewrite rev_involutive in E. contradiction.
  - exists c, r. split; [reflexivity|].
    rewrite List.Forall_forall in Hd. apply Hd, in_rev. rewrite E. left. reflexivity.
Qed.

(** A string of digits matches the pattern of no unit. *)
Lemma matchUnit_digits u cs :
  In u Generator.unitNames ->
  cs <> [] -> Forall (fun c => Generator.isDigit c = true) cs ->
  Generator.matchUnit u (string_of_list_ascii cs) = false.
Proof.
  intros Hu Hne Hd. unfold Generator.matchUnit.
  rewrite list_ascii_of_string_of_list_ascii.
  destruct (rev_digits_head cs Hne Hd) as (c & r & -> & Hc).
  apply isDigit_code in Hc.
  assert (HB : Ascii.eqb "B" c = false)
    by (apply eqb_code; change (Generator.code "B") with 66; lia).
  unfold Generator.unitNames in Hu. cbn [In] in Hu.
  destruct Hu as [<- | [<- | [<- | [<- | [<- | []]]]]];
    cbn [list_ascii_of_string rev app Generator.hasPrefix]; rewrite HB; reflexivity.
Qed.

Lemma find_none {A} (p : A -> bool) l :
  Forall (fun x => p x = false) l -> find p l = None.
Proof.
  induction 1 as [|x l Hx _ IH]; [reflexivity|]. cbn [find]. rewrite Hx. exact IH.
Qed.

(** X23. A size without a unit is read as zero. For a string of decimal
    digits, as in [size: "1024"], no unit matches, [strconv.ParseInt]
    reads the number, and [parseSize] multiplies it by [units[""]], which
    is the zero value of a missing key: the result is 0 and no error,
    whatever the number. *)
Theorem parseSize_without_unit strings_ToUpper strings_TrimSpace order cs :
  Generator.upperCases strings_ToUpper ->
  Permutation order Generator.unitNames ->
  cs <> [] -> Forall (fun c => Generator.isDigit c = true) cs ->
  Generator.decimal cs <= Int.max_int64 ->
  Generator.ParseInt (string_of_list_ascii cs) = (Generator.decimal cs, None) /\
  Generator.parseSize strings_ToUpper strings_TrimSpace order (string_of_list_ascii cs) =
    (0, None).
Proof.
  intros Hupper Hperm Hne Hd Hfit.
  pose proof (ParseInt_digits cs Hne Hd Hfit) as Hparse. split; [exact Hparse|].
  unfold Generator.parseSize.
  assert (Hascii : Generator.isASCII cs).
  { eapply Forall_impl; [exact Hd|]. cbn. intros c Hc. apply isDigit_code in Hc. lia. }
  rewrite (Hupper cs Hascii), map_asciiUpper_below
    by (eapply Forall_impl; [exact Hd|]; cbn; intros c Hc; apply isDigit_code in Hc; lia).
  rewrite unitLoop_find, find_none.
  - change (String.eqb "" "") with true. cbv iota. rewrite Hparse.
    change (Generator.unitFactor "") with 0. rewrite Z.mul_0_r. reflexivity.
  - rewrite List.Forall_forall. intros u Hu. apply matchUnit_digits; try assumption.
    eapply Permutation_in; [exact Hperm|exact Hu].
Qed.

Lemma parseSize_without_unit_witness :
  Generator.ParseInt "1024" = (1024, None) /\
  Generator.parseSize Generator.toUpperASCII Generator.trimSpaceASCII
    ["TB"; "GB"; "MB"; "KB"; "B"]%string "1024" = (0, None).
Proof.
  apply (parseSize_without_unit Generator.toUpperASCII Generator.trimSpaceASCII
           ["TB"; "GB"; "MB"; "KB"; "B"]%string (list_ascii_of_string "1024")).
  - intros cs _. unfold Generator.toUpperASCII.
    rewrite list_ascii_of_string_of_list_ascii. reflexivity.
  - apply (Permutation_rev ["TB"; "GB"; "MB"; "KB"; "B"]%string).
  - discriminate.
  - repeat constructor.
  - vm_compute. discriminate.
Defined.

Lemma length_string_of_list_ascii l : String.length (string_of_list_ascii l) = length l.
Proof. induction l as [|c l IH]; [reflexivity|]. cbn. rewrite IH. reflexivity. Qed.

Lemma length_list_ascii_of_string s : length (list_ascii_of_string s) = String.length s.
Proof. induction s as [|c s IH]; [reflexivity|]. cbn. rewrite IH. reflexivity. Qed.

Lemma dropSpaces_app l1 l2 :
  Forall (fun c => Generator.isRegexpSpace c = true) l1 ->
  Generator.dropSpaces (l1 ++ l2) = Generator.dropSpaces l2.
Proof.
  induction 1 as [|c l1 Hc _ IH]; [reflexivity|].
  cbn [app Generator.dropSpaces]. rewrite Hc. exact IH.
Qed.

Lemma dropAsciiSpaces_app l1 l2 :
  Forall (fun c => Generator.isAsciiSpace c = true) l1 ->
  Generator.dropAsciiSpaces (l1 ++ l2) = Generator.dropAsciiSpaces l2.
Proof.
  induction 1 as [|c l1 Hc _ IH]; [reflexivity|].
  cbn [app Generator.dropAsciiSpaces]. rewrite Hc. exact IH.
Qed.

Lemma find_unique {A} (p : A -> bool) l x :
  In x l -> p x = true -> (forall y, In y l -> p y = true -> y = x) -> find p l = Some x.
Proof.
  induction l as [|a l IH]; intros Hin Hx Huniq; [destruct Hin|].
  cbn [find]. destruct (p a) eqn:Ea.
  - f_equal. apply Huniq; [left; reflexivity|exact Ea].
  - destruct Hin as [->|Hin]; [congruence|].
    apply IH; [exact Hin|exact Hx|]. intros y Hy. apply Huniq. right. exact Hy.
Qed.

Section WithUnit.

Variable ds ws cU : list ascii.
Hypothesis digits : Forall (fun c => Generator.isDigit c = true) ds.
Hypothesis some_digit : ds <> [].
Hypothesis spaces : Forall (fun c => Generator.isRegexpSpace c = true) ws.

Lemma rev_sized : rev (ds ++ ws ++ cU) = rev cU ++ rev ws ++ rev ds.
Proof. rewrite !rev_app_distr, app_assoc. reflexivity. Qed.

Lemma rev_spaces : Forall (fun c => Generator.isRegexpSpace c = true) (rev ws).
Proof.
  rewrite List.Forall_forall in spaces |- *. intros c Hc. apply spaces, in_rev, Hc.
Qed.

Lemma matchUnit_sized U :
  list_ascii_of_string U = cU ->
  Generator.matchUnit U (string_of_list_ascii (ds ++ ws ++ cU)) = true.
Proof.
  intros HU. unfold Generator.matchUnit.
  rewrite list_ascii_of_string_of_list_ascii, HU, rev_sized, hasPrefix_app.
  rewrite skipn_app, skipn_all, Nat.sub_diag, skipn_O. cbn [app].
  rewrite (dropSpaces_app _ _ rev_spaces).
  destruct (rev_digits_head ds some_digit digits) as (c & r & -> & Hc).
  cbn [Generator.dropSpaces]. destruct (isDigit_no_space c Hc) as [-> _]. exact Hc.
Qed.

Lemma TrimSuffix_sized U :
  list_ascii_of_string U = cU ->
  Generator.strings_TrimSuffix (string_of_list_ascii (ds ++ ws ++ cU)) U =
    string_of_list_ascii (ds ++ ws).
Proof.
  intros HU. unfold Generator.strings_TrimSuffix, Generator.strings_HasSuffix.
  rewrite list_ascii_of_string_of_list_ascii, HU, rev_sized, hasPrefix_app.
  rewrite length_string_of_list_ascii, <- length_list_ascii_of_string, HU.
  rewrite app_assoc, length_app, Nat.add_sub, firstn_app, Nat.sub_diag, firstn_all.
  cbn [firstn]. rewrite app_nil_r. reflexivity.
Qed.

Lemma asciiTrimSpace_sized : Generator.asciiTrimSpace (ds ++ ws) = ds.
Proof.
  unfold Generator.asciiTrimSpace.
  assert (Hhead : Generator.dropAsciiSpaces (ds ++ ws) = ds ++ ws).
  { destruct ds as [|c l]; [contradiction|].
    apply Forall_cons in digits as [Hc _].
    cbn [app Generator.dropAsciiSpaces]. destruct (isDigit_no_space c Hc) as [_ ->].
    reflexivity. }
  rewrite Hhead, rev_app_distr, dropAsciiSpaces_app.
  - destruct (rev_digits_head ds some_digit digits) as (c & r & E & Hc).
    rewrite E. cbn [Generator.dropAsciiSpaces]. destruct (isDigit_no_space c Hc) as [_ ->].
    rewrite <- E. apply rev_involutive.
  - pose proof rev_spaces as H. eapply Forall_impl; [exact H|].
    intros c. apply isRegexpSpace_isAsciiSpace.
Qed.

End WithUnit.

(** X24. A size with a unit. A string of decimal digits, then white space
    (or none), then one of the units B, KB, MB, GB, TB in upper or lower
    case, is read as the number times the factor of the unit, as a product
    of [int64]; the factors are powers of 1000, not of 1024. *)
Theorem parseSize_with_unit strings_ToUpper strings_TrimSpace order ds ws u U :
  Generator.upperCases strings_ToUpper ->
  Generator.trimsSpace strings_TrimSpace ->
  Permutation order Generator.unitNames ->
  ds <> [] -> Forall (fun c => Generator.isDigit c = true) ds ->
  Forall (fun c => Generator.isRegexpSpace c = true) ws ->
  Generator.isASCII u ->
  In U Generator.unitNames ->
  map Generator.asciiUpper u = list_ascii_of_string U ->
  Generator.decimal ds <= Int.max_int64 ->
  Generator.parseSize strings_ToUpper strings_TrimSpace order
    (string_of_list_ascii (ds ++ ws ++ u)) =
    (Int.int64 (Generator.decimal ds * Generator.unitFactor U), None) /\
  map Generator.unitFactor Generator.unitNames =
    [1; 1000; 1000000; 1000000000; 1000000000000].
Proof.
  intros Hupper Htrim Hperm Hne Hd Hs Hu HU Hcase Hfit. split; [|reflexivity].
  assert (Hdl : Forall (fun c => Generator.code c < 97) ds).
  { eapply Forall_impl; [exact Hd|]. cbn. intros c Hc. apply isDigit_code in Hc. lia. }
  assert (Hsl : Forall (fun c => Generator.code c < 97) ws).
  { eapply Forall_impl; [exact Hs|]. cbn. intros c Hc. apply isRegexpSpace_code in Hc. lia. }
  assert (Hascii : Generator.isASCII (ds ++ ws)).
  { apply Forall_app. split; eapply Forall_impl; try eassumption; cbn; intros c Hc; lia. }
  unfold Generator.parseSize.
  rewrite (Hupper (ds ++ ws ++ u))
    by (rewrite app_assoc; apply Forall_app; split; assumption).
  rewrite !map_app, (map_asciiUpper_below ds Hdl), (map_asciiUpper_below ws Hsl), Hcase.
  set (cU := list_ascii_of_string U).
  pose proof (matchUnit_sized ds ws cU Hd Hne Hs U eq_refl) as Hmatch.
  rewrite unitLoop_find, (find_unique _ order U).
  - cbn [Generator.unitLoop]. rewrite Hmatch.
    rewrite (TrimSuffix_sized ds ws cU U eq_refl), (Htrim _ Hascii).
    rewrite (asciiTrimSpace_sized ds ws Hd Hne Hs), (ParseInt_digits ds Hne Hd Hfit).
    assert (HnotEmpty : String.eqb U "" = false).
    { unfold Generator.unitNames in HU. cbn [In] in HU.
      destruct HU as [<- | [<- | [<- | [<- | [<- | []]]]]]; reflexivity. }
    rewrite HnotEmpty. reflexivity.
  - eapply Permutation_in; [symmetry; exact Hperm|exact HU].
  - exact Hmatch.
  - intros y Hy My. apply (matchUnit_unique (string_of_list_ascii (ds ++ ws ++ cU))).
    + eapply Permutation_in; [exact Hperm|exact Hy].
    + exact HU.
    + exact My.
    + exact Hmatch.
Qed.

Lemma parseSize_with_unit_witness :
  Generator.parseSize Generator.toUpperASCII Generator.trimSpaceASCII
    ["TB"; "GB"; "MB"; "KB"; "B"]%string "12 kb" = (12000, None) /\
  map Generator.unitFactor Generator.unitNames =
    [1; 1000; 1000000; 1000000000; 1000000000000].
Proof.
  apply (parseSize_with_unit Generator.toUpperASCII Generator.trimSpaceASCII
           ["TB"; "GB"; "MB"; "KB"; "B"]%string
           (list_ascii_of_string "12") (list_ascii_of_string " ") (list_ascii_of_string "kb")
           "KB"%string).
  - intros cs _. unfold Generator.toUpperASCII.
    rewrite list_ascii_of_string_of_list_ascii. reflexivity.
  - intros cs _. unfold Generator.trimSpaceASCII.
    rewrite list_ascii_of_string_of_list_ascii. reflexivity.
  - apply (Permutation_rev ["TB"; "GB"; "MB"; "KB"; "B"]%string).
  - discriminate.
  - repeat constructor.
  - repeat constructor.
  - repeat constructor.
  - right. left. reflexivity.
  - reflexivity.
  - vm_compute. discriminate.
Defined.
